(** * Missile Command (msslcmd.py): simulation core

    A shallow embedding of the game logic of [msslcmd.py]: the entity
    classes ([Explosion], [Missile], [MissileBase], [City]) and the
    [Game] methods [setup_game], [randomize_colors],
    [spawn_enemy_missile], [handle_events], [update] and the loop of
    [run].  Rendering ([draw]) reads the state and never writes it, so
    it is left out.

    Python numbers are modelled as they are at run time: an [int] is a
    [Z], a [float] is an IEEE-754 binary64 value (Rocq's primitive
    [float]), and mixed arithmetic converts the [int] operand first. *)

From Stdlib Require Import ZArith Zpower List Bool Lia Floats.
Import ListNotations.
Open Scope Z_scope.

(** ** Python's numeric tower, as far as the game uses it *)

Module Py.

Inductive num : Type :=
| Int (z : Z)
| Float (f : float).

(** [float(z)]: the nearest binary64 value, ties to even.  (CPython
    raises [OverflowError] beyond the largest finite double, where
    this gives an infinity; screen coordinates are far from it.) *)
Definition float_of_Z (z : Z) : float :=
  SF2Prim (binary_normalize prec emax z 0 false).

Definition to_float (a : num) : float :=
  match a with
  | Int z => float_of_Z z
  | Float f => f
  end.

Definition add (a b : num) : num :=
  match a, b with
  | Int x, Int y => Int (x + y)
  | _, _ => Float (to_float a + to_float b)
  end.

Definition sub (a b : num) : num :=
  match a, b with
  | Int x, Int y => Int (x - y)
  | _, _ => Float (to_float a - to_float b)
  end.

Definition mul (a b : num) : num :=
  match a, b with
  | Int x, Int y => Int (x * y)
  | _, _ => Float (to_float a * to_float b)
  end.

(** [a / b], true division.  Only used with a [float] divisor that
    has been tested to be positive. *)
Definition div (a b : num) : num :=
  Float (to_float a / to_float b).

(** [a ** 2].  On a [float] this is the correctly rounded square. *)
Definition sq (a : num) : num :=
  match a with
  | Int x => Int (x * x)
  | Float f => Float (f * f)
  end.

(** [math.sqrt(a)]: always a [float]. *)
Definition sqrt (a : num) : num :=
  Float (PrimFloat.sqrt (to_float a)).

(** [abs(a)] *)
Definition abs (a : num) : num :=
  match a with
  | Int x => Int (Z.abs x)
  | Float f => Float (PrimFloat.abs f)
  end.

(** Comparison of a [float] with an [int] is exact in Python: the
    integer is not rounded to a double first. *)
Definition cmp_finite_Z (s : bool) (m : positive) (e : Z) (z : Z)
  : comparison :=
  if 0 <=? e
  then cond_Zopp s (Zpos m) * 2 ^ e ?= z
  else cond_Zopp s (Zpos m) ?= z * 2 ^ (- e).

Definition cmp_spec_Z (x : spec_float) (z : Z) : option comparison :=
  match x with
  | S754_nan => None
  | S754_infinity s => Some (if s then Lt else Gt)
  | S754_zero _ => Some (0 ?= z)
  | S754_finite s m e => Some (cmp_finite_Z s m e z)
  end.

Definition cmp_float_Z (f : float) (z : Z) : option comparison :=
  cmp_spec_Z (Prim2SF f) z.

Definition of_float_cmp (c : float_comparison) : option comparison :=
  match c with
  | FEq => Some Eq
  | FLt => Some Lt
  | FGt => Some Gt
  | FNotComparable => None
  end.

(** Three-way comparison; [None] when a NaN is involved, in which
    case every ordering test below is [false]. *)
Definition cmp (a b : num) : option comparison :=
  match a, b with
  | Int x, Int y => Some (x ?= y)
  | Float f, Int y => cmp_float_Z f y
  | Int x, Float g => option_map CompOpp (cmp_float_Z g x)
  | Float f, Float g => of_float_cmp (PrimFloat.compare f g)
  end.

Definition ltb (a b : num) : bool :=
  match cmp a b with Some Lt => true | _ => false end.

Definition leb (a b : num) : bool :=
  match cmp a b with Some Lt | Some Eq => true | _ => false end.

Definition gtb (a b : num) : bool := ltb b a.
Definition geb (a b : num) : bool := leb b a.

End Py.

Declare Scope py_scope.
Delimit Scope py_scope with py.
Infix "+" := Py.add : py_scope.
Infix "-" := Py.sub : py_scope.
Infix "*" := Py.mul : py_scope.
Infix "/" := Py.div : py_scope.
Infix "<?" := Py.ltb : py_scope.
Infix "<=?" := Py.leb : py_scope.
Infix ">?" := Py.gtb : py_scope.
Infix ">=?" := Py.geb : py_scope.
Coercion Py.Int : Z >-> Py.num.

(** ** Constants *)

Definition SCREEN_WIDTH : Z := 800.
Definition SCREEN_HEIGHT : Z := 600.

Definition Color : Type := Z * Z * Z.
Definition WHITE : Color := (255, 255, 255).
Definition RED : Color := (255, 0, 0).
Definition BLUE : Color := (0, 100, 255).
Definition CYAN : Color := (0, 255, 255).

Definition ENEMY_MISSILE_SPEED : Py.num := Py.Float 1.5.
Definition PLAYER_MISSILE_SPEED : Py.num := Py.Int 5.
Definition EXPLOSION_MAX_RADIUS : Z := 60.
Definition EXPLOSION_GROWTH_RATE : Z := 2.
Definition EXPLOSION_DURATION : Z := 45.

(** ** Entities *)

(** *** [class Explosion] *)

Module Explosion.

Record t : Type := mk {
  x : Z;
  y : Z;
  radius : Z;
  max_radius : Z;
  growing : bool;
  timer : Z
}.

(** [Explosion.__init__] *)
Definition init (px py : Z) : t :=
  mk px py 0 EXPLOSION_MAX_RADIUS true EXPLOSION_DURATION.

(** The growth half of [Explosion.update]. *)
Definition grow (e : t) : t :=
  if growing e then
    let r := radius e + EXPLOSION_GROWTH_RATE in
    mk (x e) (y e) r (max_radius e)
       (if r >=? max_radius e then false else true) (timer e)
  else e.

(** [Explosion.update]: the explosion after the tick, and the
    returned flag (whether it is still active). *)
Definition update (e : t) : t * bool :=
  let e1 := grow e in
  let e2 := mk (x e1) (y e1) (radius e1) (max_radius e1) (growing e1)
               (timer e1 - 1) in
  (e2, 0 <? timer e2).

(** [Explosion.collides_with] *)
Definition collides_with (e : t) (px py : Py.num) : bool :=
  let distance := Py.sqrt (Py.sq (px - x e) + Py.sq (py - y e))%py in
  (distance <=? radius e)%py.

End Explosion.

(** *** [class Missile], with its subclasses [PlayerMissile] and
    [EnemyMissile], which only fix constructor arguments *)

Module Missile.

Record t : Type := mk {
  x : Py.num;
  y : Py.num;
  start_x : Z;
  start_y : Z;
  target_x : Z;
  target_y : Z;
  speed : Py.num;
  color : Color;
  active : bool;
  velocity_x : Py.num;
  velocity_y : Py.num
}.

(** The direction computation of [Missile.__init__]. *)
Definition velocity (sx sy tx ty : Z) (spd : Py.num) : Py.num * Py.num :=
  let dx := tx - sx in
  let dy := ty - sy in
  let distance := Py.sqrt (Py.Int (dx * dx + dy * dy)) in
  if (distance >? 0)%py
  then ((dx / distance) * spd, (dy / distance) * spd)%py
  else (Py.Int 0, Py.Int 0).

(** [Missile.__init__] *)
Definition init (sx sy tx ty : Z) (spd : Py.num) (col : Color) : t :=
  let v := velocity sx sy tx ty spd in
  mk (Py.Int sx) (Py.Int sy) sx sy tx ty spd col true (fst v) (snd v).

(** [Missile.update] *)
Definition update (m : t) : t :=
  mk (x m + velocity_x m)%py (y m + velocity_y m)%py
     (start_x m) (start_y m) (target_x m) (target_y m)
     (speed m) (color m) (active m) (velocity_x m) (velocity_y m).

(** [Missile.has_reached_target] *)
Definition has_reached_target (m : t) : bool :=
  let distance :=
    Py.sqrt (Py.sq (x m - target_x m) + Py.sq (y m - target_y m))%py in
  (distance <? speed m)%py.

End Missile.

(** [PlayerMissile.__init__] *)
Definition PlayerMissile (sx sy tx ty : Z) : Missile.t :=
  Missile.init sx sy tx ty PLAYER_MISSILE_SPEED CYAN.

(** [EnemyMissile.__init__] *)
Definition EnemyMissile (sx tx ty : Z) (col : Color) : Missile.t :=
  Missile.init sx 0 tx ty ENEMY_MISSILE_SPEED col.

(** *** [class MissileBase] *)

Inductive Side : Type := side_left | side_center | side_right.

Module MissileBase.

Record t : Type := mk {
  x : Z;
  y : Z;
  side : Side;
  active : bool;
  ammo : Z
}.

(** [MissileBase.__init__] *)
Definition init (px py : Z) (sd : Side) : t := mk px py sd true 10.

Definition set_ammo (a : Z) (b : t) : t :=
  mk (x b) (y b) (side b) (active b) a.

Definition set_active (v : bool) (b : t) : t :=
  mk (x b) (y b) (side b) v (ammo b).

(** [MissileBase.fire]: the base after the call, and the returned
    missile ([None] for Python's [None]). *)
Definition fire (b : t) (tx ty : Z) : t * option Missile.t :=
  if active b && (0 <? ammo b)
  then (set_ammo (ammo b - 1) b, Some (PlayerMissile (x b) (y b) tx ty))
  else (b, None).

End MissileBase.

(** *** [class City] *)

Module City.

Record t : Type := mk {
  x : Z;
  y : Z;
  active : bool;
  color : Color
}.

(** [City.__init__] *)
Definition init (px py : Z) : t := mk px py true BLUE.

Definition set_active (v : bool) (c : t) : t :=
  mk (x c) (y c) v (color c).

Definition set_color (k : Color) (c : t) : t :=
  mk (x c) (y c) (active c) k.

End City.

(** ** The outside world of one frame *)

(** [random.randint(lo, hi)] and [random.choice(l)] reduce a raw draw
    [u] of the generator to the requested range, so every raw draw
    is a possible outcome and every outcome comes from some draw. *)
Definition randint (lo hi u : Z) : Z := lo + u mod (hi - lo + 1).

Definition choice {A : Type} (u : Z) (l : list A) : option A :=
  nth_error l (Z.to_nat (u mod Z.of_nat (length l))).

Definition random_color (u : Z * Z * Z) : Color :=
  let '(r, g, b) := u in
  (randint 100 255 r, randint 100 255 g, randint 100 255 b).

(** The raw draws one call of [Game.update] may consume, one field
    per call site of [random]; [city_rgb i] serves the [i]-th city
    in [randomize_colors]. *)
Record Draws : Type := mkDraws {
  start_x_draw : Z;
  target_draw : Z;
  flash_rgb : Z * Z * Z;
  enemy_rgb : Z * Z * Z;
  city_rgb : nat -> Z * Z * Z
}.

(** The events [pygame.event.get()] may return, as far as
    [handle_events] tells them apart. *)
Inductive Key : Type := K_SPACE | K_OTHER.

Inductive Event : Type :=
| QUIT
| MOUSEBUTTONDOWN (button : Z)
| KEYDOWN (key : Key)
| OTHER_EVENT.

(** ** List helpers *)

(** [l[i] = v] for an index in range; the game only writes to
    elements it has just read. *)
Fixpoint list_set {A : Type} (i : nat) (v : A) (l : list A) : list A :=
  match l, i with
  | [], _ => []
  | _ :: l', O => v :: l'
  | a :: l', S i' => a :: list_set i' v l'
  end.

(** What an optional result adds to a list. *)
Definition opt_list {A : Type} (o : option A) : list A :=
  match o with Some a => [a] | None => [] end.

(** ** [class Game] *)

Module Game.

Record t : Type := mk {
  running : bool;
  game_over : bool;
  score : Z;
  level : Z;
  enemy_spawn_timer : Z;
  enemy_spawn_rate : Z;
  starting_ammo : Z;
  missiles_spawned_this_level : Z;
  enemy_missile_color : Color;
  flash_timer : Z;
  flash_color : Color;
  bases : list MissileBase.t;
  cities : list City.t;
  player_missiles : list Missile.t;
  enemy_missiles : list Missile.t;
  explosions : list Explosion.t;
  missiles_per_level : Z
}.

Definition set_running v g :=
  mk v (game_over g) (score g) (level g) (enemy_spawn_timer g)
     (enemy_spawn_rate g) (starting_ammo g) (missiles_spawned_this_level g)
     (enemy_missile_color g) (flash_timer g) (flash_color g) (bases g)
     (cities g) (player_missiles g) (enemy_missiles g) (explosions g)
     (missiles_per_level g).

Definition set_game_over v g :=
  mk (running g) v (score g) (level g) (enemy_spawn_timer g)
     (enemy_spawn_rate g) (starting_ammo g) (missiles_spawned_this_level g)
     (enemy_missile_color g) (flash_timer g) (flash_color g) (bases g)
     (cities g) (player_missiles g) (enemy_missiles g) (explosions g)
     (missiles_per_level g).

Definition set_score v g :=
  mk (running g) (game_over g) v (level g) (enemy_spawn_timer g)
     (enemy_spawn_rate g) (starting_ammo g) (missiles_spawned_this_level g)
     (enemy_missile_color g) (flash_timer g) (flash_color g) (bases g)
     (cities g) (player_missiles g) (enemy_missiles g) (explosions g)
     (missiles_per_level g).

Definition set_level v g :=
  mk (running g) (game_over g) (score g) v (enemy_spawn_timer g)
     (enemy_spawn_rate g) (starting_ammo g) (missiles_spawned_this_level g)
     (enemy_missile_color g) (flash_timer g) (flash_color g) (bases g)
     (cities g) (player_missiles g) (enemy_missiles g) (explosions g)
     (missiles_per_level g).

Definition set_enemy_spawn_timer v g :=
  mk (running g) (game_over g) (score g) (level g) v
     (enemy_spawn_rate g) (starting_ammo g) (missiles_spawned_this_level g)
     (enemy_missile_color g) (flash_timer g) (flash_color g) (bases g)
     (cities g) (player_missiles g) (enemy_missiles g) (explosions g)
     (missiles_per_level g).

Definition set_enemy_spawn_rate v g :=
  mk (running g) (game_over g) (score g) (level g) (enemy_spawn_timer g)
     v (starting_ammo g) (missiles_spawned_this_level g)
     (enemy_missile_color g) (flash_timer g) (flash_color g) (bases g)
     (cities g) (player_missiles g) (enemy_missiles g) (explosions g)
     (missiles_per_level g).

Definition set_missiles_spawned_this_level v g :=
  mk (running g) (game_over g) (score g) (level g) (enemy_spawn_timer g)
     (enemy_spawn_rate g) (starting_ammo g) v
     (enemy_missile_color g) (flash_timer g) (flash_color g) (bases g)
     (cities g) (player_missiles g) (enemy_missiles g) (explosions g)
     (missiles_per_level g).

Definition set_enemy_missile_color v g :=
  mk (running g) (game_over g) (score g) (level g) (enemy_spawn_timer g)
     (enemy_spawn_rate g) (starting_ammo g) (missiles_spawned_this_level g)
     v (flash_timer g) (flash_color g) (bases g)
     (cities g) (player_missiles g) (enemy_missiles g) (explosions g)
     (missiles_per_level g).

Definition set_flash_timer v g :=
  mk (running g) (game_over g) (score g) (level g) (enemy_spawn_timer g)
     (enemy_spawn_rate g) (starting_ammo g) (missiles_spawned_this_level g)
     (enemy_missile_color g) v (flash_color g) (bases g)
     (cities g) (player_missiles g) (enemy_missiles g) (explosions g)
     (missiles_per_level g).

Definition set_flash_color v g :=
  mk (running g) (game_over g) (score g) (level g) (enemy_spawn_timer g)
     (enemy_spawn_rate g) (starting_ammo g) (missiles_spawned_this_level g)
     (enemy_missile_color g) (flash_timer g) v (bases g)
     (cities g) (player_missiles g) (enemy_missiles g) (explosions g)
     (missiles_per_level g).

Definition set_bases v g :=
  mk (running g) (game_over g) (score g) (level g) (enemy_spawn_timer g)
     (enemy_spawn_rate g) (starting_ammo g) (missiles_spawned_this_level g)
     (enemy_missile_color g) (flash_timer g) (flash_color g) v
     (cities g) (player_missiles g) (enemy_missiles g) (explosions g)
     (missiles_per_level g).

Definition set_cities v g :=
  mk (running g) (game_over g) (score g) (level g) (enemy_spawn_timer g)
     (enemy_spawn_rate g) (starting_ammo g) (missiles_spawned_this_level g)
     (enemy_missile_color g) (flash_timer g) (flash_color g) (bases g)
     v (player_missiles g) (enemy_missiles g) (explosions g)
     (missiles_per_level g).

Definition set_player_missiles v g :=
  mk (running g) (game_over g) (score g) (level g) (enemy_spawn_timer g)
     (enemy_spawn_rate g) (starting_ammo g) (missiles_spawned_this_level g)
     (enemy_missile_color g) (flash_timer g) (flash_color g) (bases g)
     (cities g) v (enemy_missiles g) (explosions g)
     (missiles_per_level g).

Definition set_enemy_missiles v g :=
  mk (running g) (game_over g) (score g) (level g) (enemy_spawn_timer g)
     (enemy_spawn_rate g) (starting_ammo g) (missiles_spawned_this_level g)
     (enemy_missile_color g) (flash_timer g) (flash_color g) (bases g)
     (cities g) (player_missiles g) v (explosions g)
     (missiles_per_level g).

Definition set_explosions v g :=
  mk (running g) (game_over g) (score g) (level g) (enemy_spawn_timer g)
     (enemy_spawn_rate g) (starting_ammo g) (missiles_spawned_this_level g)
     (enemy_missile_color g) (flash_timer g) (flash_color g) (bases g)
     (cities g) (player_missiles g) (enemy_missiles g) v
     (missiles_per_level g).

Definition set_missiles_per_level v g :=
  mk (running g) (game_over g) (score g) (level g) (enemy_spawn_timer g)
     (enemy_spawn_rate g) (starting_ammo g) (missiles_spawned_this_level g)
     (enemy_missile_color g) (flash_timer g) (flash_color g) (bases g)
     (cities g) (player_missiles g) (enemy_missiles g) (explosions g)
     v.

(** [sum(base.ammo for base in self.bases)] *)
Definition total_ammo (bs : list MissileBase.t) : Z :=
  fold_right (fun b acc => MissileBase.ammo b + acc) 0 bs.

(** *** [Game.setup_game] *)

Definition fresh_bases (ammo0 : Z) : list MissileBase.t :=
  map (MissileBase.set_ammo ammo0)
      [ MissileBase.init 100 (SCREEN_HEIGHT - 40) side_left;
        MissileBase.init (SCREEN_WIDTH / 2) (SCREEN_HEIGHT - 40) side_center;
        MissileBase.init (SCREEN_WIDTH - 100) (SCREEN_HEIGHT - 40) side_right ].

Definition fresh_cities : list City.t :=
  [ City.init 200 (SCREEN_HEIGHT - 35);
    City.init 250 (SCREEN_HEIGHT - 35);
    City.init 300 (SCREEN_HEIGHT - 35);
    City.init (SCREEN_WIDTH - 300) (SCREEN_HEIGHT - 35);
    City.init (SCREEN_WIDTH - 250) (SCREEN_HEIGHT - 35);
    City.init (SCREEN_WIDTH - 200) (SCREEN_HEIGHT - 35) ].

Definition setup_game (g : t) : t :=
  set_explosions []
    (set_enemy_missiles []
      (set_player_missiles []
        (set_cities fresh_cities
          (set_bases (fresh_bases (starting_ammo g)) g)))).

(** *** [Game.__init__], without the window and the clock *)

Definition init : t :=
  let g := setup_game
             (mk true false 0 1 0 60 10 0 RED 0 WHITE [] [] [] [] [] 0) in
  set_missiles_per_level (total_ammo (bases g)) g.

(** *** [Game.randomize_colors] *)

Fixpoint recolor_from (i : nat) (rgb : nat -> Z * Z * Z) (cs : list City.t)
  : list City.t :=
  match cs with
  | [] => []
  | c :: cs' =>
      (if City.active c then City.set_color (random_color (rgb i)) c else c)
        :: recolor_from (S i) rgb cs'
  end.

Definition randomize_colors (d : Draws) (g : t) : t :=
  set_cities (recolor_from 0 (city_rgb d) (cities g))
    (set_enemy_missile_color (random_color (enemy_rgb d)) g).

(** *** [Game.spawn_enemy_missile] *)

Definition possible_targets (g : t) : list (Z * Z) :=
  map (fun c => (City.x c, City.y c)) (filter City.active (cities g))
  ++ map (fun b => (MissileBase.x b, MissileBase.y b))
         (filter MissileBase.active (bases g)).

Definition spawn_enemy_missile (d : Draws) (g : t) : t :=
  let sx := randint 50 (SCREEN_WIDTH - 50) (start_x_draw d) in
  match choice (target_draw d) (possible_targets g) with
  | Some (tx, ty) =>
      set_missiles_spawned_this_level (missiles_spawned_this_level g + 1)
        (set_enemy_missiles
           (enemy_missiles g ++ [EnemyMissile sx tx ty (enemy_missile_color g)])
           g)
  | None => g
  end.

(** *** [Game.handle_events] *)

(** [missile = self.bases[i].fire(mouse_x, mouse_y)], then the append
    when a missile came back.  [None] stands for the [IndexError] of
    [self.bases[i]]. *)
Definition fire_from (i : nat) (mouse : Z * Z) (g : t) : option t :=
  match nth_error (bases g) i with
  | None => None
  | Some b =>
      let '(b', missile) := MissileBase.fire b (fst mouse) (snd mouse) in
      let g' := set_bases (list_set i b' (bases g)) g in
      Some match missile with
           | Some m => set_player_missiles (player_missiles g' ++ [m]) g'
           | None => g'
           end
  end.

(** The restart branch: [game_over = False; score = 0; level = 1;
    setup_game()]. *)
Definition restart (g : t) : t :=
  setup_game (set_level 1 (set_score 0 (set_game_over false g))).

(** The body of the event loop for one event. *)
Definition handle_event (mouse : Z * Z) (ev : Event) (g : t) : option t :=
  match ev with
  | QUIT => Some (set_running false g)
  | MOUSEBUTTONDOWN button =>
      if negb (game_over g) then
        if button =? 1 then fire_from 0 mouse g
        else if button =? 2 then fire_from 1 mouse g
        else if button =? 3 then fire_from 2 mouse g
        else Some g
      else Some g
  | KEYDOWN key =>
      match key with
      | K_SPACE => if game_over g then Some (restart g) else Some g
      | K_OTHER => Some g
      end
  | OTHER_EVENT => Some g
  end.

Fixpoint handle_events (mouse : Z * Z) (evs : list Event) (g : t)
  : option t :=
  match evs with
  | [] => Some g
  | ev :: evs' =>
      match handle_event mouse ev g with
      | Some g' => handle_events mouse evs' g'
      | None => None
      end
  end.

(** *** [Game.update] *)

(** Lines 313-323: the flash timer and the spawn throttle. *)
Definition tick_flash (g : t) : t :=
  if 0 <? flash_timer g then set_flash_timer (flash_timer g - 1) g else g.

Definition tick_spawn (d : Draws) (g : t) : t :=
  let g1 := set_enemy_spawn_timer (enemy_spawn_timer g + 1) g in
  if (enemy_spawn_timer g1 >=? enemy_spawn_rate g1)
     && (missiles_spawned_this_level g1 <? missiles_per_level g1)
  then set_enemy_spawn_timer 0 (spawn_enemy_missile d g1)
  else g1.

(** Lines 325-336.  The loop runs over a copy of the list and removes
    the finished missiles from the live one; a [Missile] is compared
    by identity, so what is left is the missiles that were not
    removed, updated, in their order.  The model rebuilds that list. *)
Definition off_screen (m : Missile.t) : bool :=
  (Missile.y m <? 0)%py || (Missile.x m <? 0)%py
  || (Missile.x m >? SCREEN_WIDTH)%py.

Definition player_step (g : t) (m : Missile.t) : t :=
  let m' := Missile.update m in
  if Missile.has_reached_target m' then
    set_explosions
      (explosions g
       ++ [Explosion.init (Missile.target_x m') (Missile.target_y m')]) g
  else if off_screen m' then g
  else set_player_missiles (player_missiles g ++ [m']) g.

Definition update_player_missiles (g : t) : t :=
  fold_left player_step (player_missiles g) (set_player_missiles [] g).

(** Lines 355-360 and 362-367: the first active entity within the hit
    radius of [mx] is switched off, and an explosion is returned for
    it. *)
Definition HIT_RADIUS : Z := 20.

Definition near (px : Z) (mx : Py.num) : bool :=
  (Py.abs (px - mx) <? HIT_RADIUS)%py.

(** The two loops have one shape: walk the list, switch off the first
    element the test accepts, make an explosion for it, and stop. *)
Fixpoint strike_first {A : Type} (hit : A -> bool) (off : A -> A)
         (boom : A -> Explosion.t) (l : list A)
  : list A * option Explosion.t :=
  match l with
  | [] => ([], None)
  | a :: l' =>
      if hit a then (off a :: l', Some (boom a))
      else let '(l'', e) := strike_first hit off boom l' in (a :: l'', e)
  end.

(** [city.active and abs(city.x - missile.x) < 20] *)
Definition hits_city (mx : Py.num) (c : City.t) : bool :=
  City.active c && near (City.x c) mx.

(** [base.active and abs(base.x - missile.x) < 20] *)
Definition hits_base (mx : Py.num) (b : MissileBase.t) : bool :=
  MissileBase.active b && near (MissileBase.x b) mx.

Definition strike_cities (mx : Py.num) (cs : list City.t)
  : list City.t * option Explosion.t :=
  strike_first (hits_city mx) (City.set_active false)
               (fun c => Explosion.init (City.x c) (City.y c)) cs.

Definition strike_bases (mx : Py.num) (bs : list MissileBase.t)
  : list MissileBase.t * option Explosion.t :=
  strike_first (hits_base mx) (MissileBase.set_active false)
               (fun b => Explosion.init (MissileBase.x b) (MissileBase.y b))
               bs.

(** Lines 352-367, after the missile has been removed. *)
Definition ground_impact (mx : Py.num) (g : t) : t :=
  let '(cs, e1) := strike_cities mx (cities g) in
  let '(bs, e2) := strike_bases mx (bases g) in
  set_explosions (explosions g ++ opt_list e1 ++ opt_list e2)
    (set_bases bs (set_cities cs g)).

(** Lines 342-349: the missile is inside some explosion. *)
Definition blasted (g : t) (m : Missile.t) : bool :=
  existsb (fun e => Explosion.collides_with e (Missile.x m) (Missile.y m))
          (explosions g).

Definition GROUND_Y : Z := SCREEN_HEIGHT - 50.

(** Lines 339-367, one iteration. *)
Definition enemy_step (g : t) (m : Missile.t) : t :=
  let m' := Missile.update m in
  if blasted g m' then set_score (score g + 25) g
  else if (Missile.y m' >=? GROUND_Y)%py then ground_impact (Missile.x m') g
  else set_enemy_missiles (enemy_missiles g ++ [m']) g.

Definition update_enemy_missiles (g : t) : t :=
  fold_left enemy_step (enemy_missiles g) (set_enemy_missiles [] g).

(** Lines 369-372 *)
Definition update_explosions (g : t) : t :=
  set_explosions
    (flat_map (fun e => let '(e', alive) := Explosion.update e in
                        if alive then [e'] else [])
              (explosions g)) g.

(** Lines 313-372: everything before the two end-of-tick checks. *)
Definition resolve (d : Draws) (g : t) : t :=
  update_explosions
    (update_enemy_missiles
       (update_player_missiles (tick_spawn d (tick_flash g)))).

(** Lines 374-378 *)
Definition all_cities_destroyed (g : t) : bool :=
  forallb (fun c => negb (City.active c)) (cities g).

Definition check_game_over (g : t) : t :=
  if all_cities_destroyed g then set_game_over true g else g.

(** Lines 380-384 *)
Definition any_city_alive (g : t) : bool := existsb City.active (cities g).

Definition level_complete (g : t) : bool :=
  (Z.of_nat (length (enemy_missiles g)) =? 0)
  && (missiles_spawned_this_level g >=? missiles_per_level g)
  && any_city_alive g.

(** Lines 386-412 *)
Definition city_bonus (g : t) : t :=
  set_score
    (fold_left (fun s c => if City.active c then s + 100 else s)
               (cities g) (score g)) g.

Definition refill (ammo0 : Z) (b : MissileBase.t) : MissileBase.t :=
  MissileBase.set_ammo ammo0 (MissileBase.set_active true b).

Definition regenerate_bases (g : t) : t :=
  let bs := map (refill (starting_ammo g)) (bases g) in
  set_score
    (fold_left (fun s b => if MissileBase.active b then s + 50 else s)
               bs (score g))
    (set_bases bs g).

Definition next_level (d : Draws) (g : t) : t :=
  let g1 := regenerate_bases (city_bonus g) in
  let g2 := set_missiles_per_level (total_ammo (bases g1)) g1 in
  let g3 := set_flash_color (random_color (flash_rgb d))
              (set_flash_timer 20 g2) in
  let g4 := randomize_colors d g3 in
  let g5 := set_level (level g4 + 1) g4 in
  let g6 := set_enemy_spawn_rate (Z.max 30 (enemy_spawn_rate g5 - 5)) g5 in
  set_missiles_spawned_this_level 0 (set_enemy_spawn_timer 0 g6).

Definition check_level (d : Draws) (g : t) : t :=
  if level_complete g then next_level d g else g.

Definition update (d : Draws) (g : t) : t :=
  if game_over g then g
  else check_level d (check_game_over (resolve d g)).

End Game.

(** ** The main loop *)

(** What one iteration of [Game.run] takes from outside. *)
Record Frame : Type := mkFrame {
  events : list Event;
  mouse_pos : Z * Z;
  draws : Draws
}.

(** One iteration of the [while self.running] loop; [None] when it
    raised. *)
Definition frame (f : Frame) (g : Game.t) : option Game.t :=
  match Game.handle_events (mouse_pos f) (events f) g with
  | Some g' => Some (Game.update (draws f) g')
  | None => None
  end.

(** [Game.run] over a finite supply of frames: the loop stops as soon
    as [running] is off. *)
Fixpoint run (fs : list Frame) (g : Game.t) : option Game.t :=
  match fs with
  | [] => Some g
  | f :: fs' =>
      if Game.running g then
        match frame f g with
        | Some g' => run fs' g'
        | None => None
        end
      else Some g
  end.

(** The states the program can be in between two iterations. *)
Definition reachable (g : Game.t) : Prop :=
  exists fs, run fs Game.init = Some g.

(** * Notions the statements use *)

(** ** Launchers and blasts over time *)


(** The explosion after [n] ticks. *)
Fixpoint life (n : nat) (e : Explosion.t) : Explosion.t :=
  match n with
  | O => e
  | S k => fst (Explosion.update (life k e))
  end.

(** A blast that came out of the constructor, some ticks ago. *)
Definition made (e : Explosion.t) : Prop :=
  exists n px py, e = life n (Explosion.init px py).

Definition blasts_made (g : Game.t) : Prop :=
  Forall made (Game.explosions g).

(** ** What a tick leaves alone *)

(** The fields no phase before the end-of-tick checks writes to. *)
Definition same_control (g g' : Game.t) : Prop :=
  Game.running g' = Game.running g
  /\ Game.game_over g' = Game.game_over g
  /\ Game.level g' = Game.level g
  /\ Game.enemy_spawn_rate g' = Game.enemy_spawn_rate g
  /\ Game.starting_ammo g' = Game.starting_ammo g
  /\ Game.missiles_per_level g' = Game.missiles_per_level g
  /\ Game.enemy_missile_color g' = Game.enemy_missile_color g
  /\ Game.flash_color g' = Game.flash_color g.

(** Of the cities and launchers a pass over the missiles changes the
    active flags only: sites and ammo stay. *)
Definition same_sites (g g' : Game.t) : Prop :=
  map City.x (Game.cities g') = map City.x (Game.cities g)
  /\ map MissileBase.x (Game.bases g') = map MissileBase.x (Game.bases g)
  /\ map MissileBase.ammo (Game.bases g')
     = map MissileBase.ammo (Game.bases g).

(** ** The end-of-tick checks *)

(** Every city is inactive. *)
Definition all_lost (g : Game.t) : Prop :=
  Game.all_cities_destroyed g = true.

(** In GAME_OVER every city is gone.  It holds between any two
    iterations of the main loop (see [reachable_sound]). *)
Definition over_means_lost (g : Game.t) : Prop :=
  Game.game_over g = true -> Game.all_cities_destroyed g = true.

(** The state the level-completion test of this tick looks at: after
    the collisions and the game-over test of the tick, or the state as
    it stands when [update] returns at once. *)
Definition at_check (d : Draws) (g : Game.t) : Game.t :=
  if Game.game_over g then g
  else Game.check_game_over (Game.resolve d g).

(** The cities still active, and the launchers, active or not. *)
Definition active_cities (g : Game.t) : Z :=
  Z.of_nat (length (filter City.active (Game.cities g))).

Definition launchers (g : Game.t) : Z := Z.of_nat (length (Game.bases g)).

(** ** Threats and blasts *)


(** ** Exact readings of binary64 values *)

(** [t <= m * 2 ^ e], for an exponent of either sign. *)
Definition at_least (t m e : Z) : Prop :=
  if 0 <=? e then t <= m * 2 ^ e else t * 2 ^ (- e) <= m.

(** The outcome of rounding a positive mantissa that is at least [t]:
    a finite value that is at least [t], or an overflow to infinity,
    with the sign asked for. *)
Definition rounded_at_least (t : Z) (s : bool) (r : spec_float) : Prop :=
  match r with
  | S754_finite s' m' e' => s' = s /\ at_least t (Zpos m') e'
  | S754_infinity s' => s' = s
  | _ => False
  end.

(** [|c - y| < t] for the exact value of a binary64 number [y]. *)
Definition close_to (c t : Z) (y : spec_float) : Prop :=
  match y with
  | S754_zero _ => Z.abs c < t
  | S754_finite s m e =>
      if 0 <=? e
      then Z.abs (c - cond_Zopp s (Zpos m) * 2 ^ e) < t
      else Z.abs (c * 2 ^ (- e) - cond_Zopp s (Zpos m)) < t * 2 ^ (- e)
  | _ => False
  end.

(** [|c - mx| < t], exactly, for a Python number [mx]. *)
Definition within (c t : Z) (mx : Py.num) : Prop :=
  match mx with
  | Py.Int z => Z.abs (c - z) < t
  | Py.Float f => close_to c t (Prim2SF f)
  end.

(** [float(c)] is [c] itself, with a non-positive exponent. *)
Definition exact_int (c : Z) : bool :=
  match Prim2SF (Py.float_of_Z c) with
  | S754_finite false m e => (e <=? 0) && (Zpos m =? c * 2 ^ (- e))
  | _ => false
  end.

(** ** The board *)

(** [a] is the first element of [l] the test accepts, at index [i]. *)
Definition first_hit {A : Type} (hit : A -> bool) (l : list A) (i : nat)
           (a : A) : Prop :=
  nth_error l i = Some a
  /\ hit a = true
  /\ forall j a', (j < i)%nat -> nth_error l j = Some a' -> hit a' = false.

(** Where [setup_game] puts the cities and the launchers. *)
Definition city_sites : list Z := [200; 250; 300; 500; 550; 600].

Definition base_sites : list Z := [100; 400; 700].

Definition standard_layout (g : Game.t) : Prop :=
  map City.x (Game.cities g) = city_sites
  /\ map MissileBase.x (Game.bases g) = base_sites.

(** The cities and launchers still standing. *)
Definition standing (g : Game.t) : Z :=
  Z.of_nat (length (filter City.active (Game.cities g)))
  + Z.of_nat (length (filter MissileBase.active (Game.bases g))).

(** ** What holds between any two iterations of the main loop *)

Definition ammo_in_range (g : Game.t) : Prop :=
  Forall (fun b => 0 <= MissileBase.ammo b <= Game.starting_ammo g)
         (Game.bases g).

Definition sound (g : Game.t) : Prop :=
  standard_layout g
  /\ over_means_lost g
  /\ Game.starting_ammo g = 10
  /\ Game.missiles_per_level g = 30
  /\ ammo_in_range g
  /\ 30 <= Game.enemy_spawn_rate g <= 60
  /\ 1 <= Game.level g.

(** ** Two recorded games *)

(** The state after a supply of frames, from a fresh game. *)
Definition after (fs : list Frame) : Game.t :=
  match run fs Game.init with
  | Some g => g
  | None => Game.init
  end.

(** Nobody plays: no events, and a generator that only draws zeros
    (every threat starts at x = 50 and goes for the first target on
    the list). *)
Definition idle_draws : Draws :=
  mkDraws 0 0 (0, 0, 0) (0, 0, 0) (fun _ => (0, 0, 0)).

Definition idle : Frame := mkFrame [] (0, 0) idle_draws.

(** A perfect first level: every threat starts at x = 200 and falls
    straight onto the first city; the player answers each one with an
    interceptor to the point (200, 300), the first ten from the left
    launcher, then ten from the centre, then ten from the right. *)
Definition drill_draws : Draws :=
  mkDraws 150 0 (0, 0, 0) (0, 0, 0) (fun _ => (0, 0, 0)).

Definition drill_events (tick : Z) : list Event :=
  let k := tick / 60 in
  let r := tick mod 60 in
  if (r =? 52) && (2 <=? k) && (k <=? 11) then [MOUSEBUTTONDOWN 1]
  else if (r =? 42) && (12 <=? k) && (k <=? 21) then [MOUSEBUTTONDOWN 2]
  else if (r =? 55) && (21 <=? k) && (k <=? 30) then [MOUSEBUTTONDOWN 3]
  else [].

Definition drill (n : nat) : list Frame :=
  map (fun i => mkFrame (drill_events (Z.of_nat i)) (200, 300) drill_draws)
      (seq 1 n).

(** A threat on its way to the first city, one step above the ground
    line. *)
Fixpoint flown (n : nat) (m : Missile.t) : Missile.t :=
  match n with
  | O => m
  | S k => Missile.update (flown k m)
  end.

Definition low_threat : Missile.t := flown 379 (EnemyMissile 50 200 565 RED).


(** ** The spawn throttle *)

(** A threat as [spawn_enemy_missile] makes it in state [g]: aimed at
    a city or launcher that is active in [g], starting on the top edge
    between x = 50 and x = 750. *)
Definition fresh_threat (g : Game.t) (m : Missile.t) : Prop :=
  exists sx tx ty,
    m = EnemyMissile sx tx ty (Game.enemy_missile_color g)
    /\ 50 <= sx <= SCREEN_WIDTH - 50
    /\ ((exists c, In c (Game.cities g) /\ City.active c = true
                   /\ (tx, ty) = (City.x c, City.y c))
        \/ (exists b, In b (Game.bases g) /\ MissileBase.active b = true
                      /\ (tx, ty) = (MissileBase.x b, MissileBase.y b))).

(** What the spawn throttle, the flash and the score keep between
    any two iterations of the main loop. *)
Definition paced (g : Game.t) : Prop :=
  0 <= Game.missiles_spawned_this_level g <= Game.missiles_per_level g
  /\ Z.of_nat (length (Game.enemy_missiles g))
     <= Game.missiles_spawned_this_level g
  /\ 0 <= Game.enemy_spawn_timer g
  /\ 0 <= Game.flash_timer g <= 20
  /\ 0 <= Game.score g
  /\ (25 | Game.score g)
  /\ Game.enemy_spawn_rate g <= Z.max 30 (65 - 5 * Game.level g).

(** The fields [paced] reads that the passes over the missiles and the
    blasts leave alone. *)
Definition same_pacing (g g' : Game.t) : Prop :=
  Game.missiles_spawned_this_level g' = Game.missiles_spawned_this_level g
  /\ Game.enemy_spawn_timer g' = Game.enemy_spawn_timer g
  /\ Game.flash_timer g' = Game.flash_timer g.

(** ** What the events of one frame can do while the game is on *)

(** Where a launcher stands and whether it is active: what firing
    never changes. *)
Definition base_post (b : MissileBase.t) : Z * Z * Side * bool :=
  (MissileBase.x b, MissileBase.y b, MissileBase.side b, MissileBase.active b).

(** An interceptor as a click makes it: from an active launcher of
    [g] to the mouse position. *)
Definition shot_from (g : Game.t) (mouse : Z * Z) (m : Missile.t) : Prop :=
  exists sx sy sd,
    In (sx, sy, sd, true) (map base_post (Game.bases g))
    /\ m = PlayerMissile sx sy (fst mouse) (snd mouse).

(** [g'] is [g] after some shots at the mouse position and nothing
    else; [running] is left out, [QUIT] may have cleared it. *)
Definition only_shots (mouse : Z * Z) (g g' : Game.t) : Prop :=
  Game.set_running true
    (Game.set_bases [] (Game.set_player_missiles [] g'))
  = Game.set_running true
      (Game.set_bases [] (Game.set_player_missiles [] g))
  /\ map base_post (Game.bases g') = map base_post (Game.bases g)
  /\ Game.total_ammo (Game.bases g')
     + Z.of_nat (length (Game.player_missiles g'))
     = Game.total_ammo (Game.bases g)
       + Z.of_nat (length (Game.player_missiles g))
  /\ exists new, Game.player_missiles g' = Game.player_missiles g ++ new
                 /\ Forall (shot_from g mouse) new.

(** A busy first frame: two shots, a click of an unused button, the
    restart key and a quit request, with the mouse at (300, 200). *)
Definition busy_events : list Event :=
  [MOUSEBUTTONDOWN 1; KEYDOWN K_SPACE; MOUSEBUTTONDOWN 3;
   MOUSEBUTTONDOWN 7; QUIT].

Definition clicked : Game.t :=
  match Game.handle_events (300, 200) busy_events Game.init with
  | Some g => g
  | None => Game.init
  end.

(** A frame in which the player asks to quit, among other things. *)
Definition quit_frame : Frame := mkFrame busy_events (300, 200) idle_draws.

(** ** The passes over the missiles *)

(** An interceptor that stays on the list after it has moved: it has
    neither arrived nor left the screen. *)
Definition in_flight (m : Missile.t) : bool :=
  negb (Missile.has_reached_target m) && negb (Game.off_screen m).

(** The blast an interceptor makes on arrival. *)
Definition blast_at_target (m : Missile.t) : Explosion.t :=
  Explosion.init (Missile.target_x m) (Missile.target_y m).

(** The books of a pass over [seen] threats that led from [g] to [g']:
    every threat seen or waiting is still in flight, was caught by a
    blast ([hit]) or came down ([grounded]); the score is 25 for each
    one caught; every city or launcher lost is one blast more, and a
    threat that came down made at most two. *)
Definition tally (seen : nat) (g g' : Game.t) : Prop :=
  exists hit grounded : nat,
    (seen + length (Game.enemy_missiles g)
     = length (Game.enemy_missiles g') + hit + grounded)%nat
    /\ Game.score g' = Game.score g + 25 * Z.of_nat hit
    /\ standing g' + Z.of_nat (length (Game.explosions g'))
       = standing g + Z.of_nat (length (Game.explosions g))
    /\ (length (Game.explosions g) <= length (Game.explosions g')
        <= length (Game.explosions g) + 2 * grounded)%nat
    /\ Game.player_missiles g' = Game.player_missiles g.

(** ** Nothing is rebuilt during a level *)

(** [c'] is [c] at a later time: same place, and active only if [c]
    was. *)
Definition city_kept (c c' : City.t) : Prop :=
  City.x c' = City.x c /\ City.y c' = City.y c
  /\ (City.active c' = true -> City.active c = true).

Definition base_kept (b b' : MissileBase.t) : Prop :=
  MissileBase.x b' = MissileBase.x b /\ MissileBase.y b' = MissileBase.y b
  /\ MissileBase.side b' = MissileBase.side b
  /\ MissileBase.ammo b' = MissileBase.ammo b
  /\ (MissileBase.active b' = true -> MissileBase.active b = true).

Definition no_repairs (g g' : Game.t) : Prop :=
  Forall2 city_kept (Game.cities g) (Game.cities g')
  /\ Forall2 base_kept (Game.bases g) (Game.bases g').

(** ** The game without its colours *)

Definition plain_missile (m : Missile.t) : Missile.t :=
  Missile.mk (Missile.x m) (Missile.y m) (Missile.start_x m)
             (Missile.start_y m) (Missile.target_x m) (Missile.target_y m)
             (Missile.speed m) WHITE (Missile.active m)
             (Missile.velocity_x m) (Missile.velocity_y m).

Definition plain_city (c : City.t) : City.t := City.set_color WHITE c.

(** The state with every colour painted white: the threat colour, the
    flash colour, and the colours of the cities and of the missiles in
    flight. *)
Definition plain (g : Game.t) : Game.t :=
  Game.set_enemy_missile_color WHITE
    (Game.set_flash_color WHITE
       (Game.set_cities (map plain_city (Game.cities g))
          (Game.set_player_missiles
             (map plain_missile (Game.player_missiles g))
             (Game.set_enemy_missiles
                (map plain_missile (Game.enemy_missiles g)) g)))).

(** The draws with the colour draws blanked. *)
Definition plain_draws (d : Draws) : Draws :=
  mkDraws (start_x_draw d) (target_draw d) (0, 0, 0) (0, 0, 0)
          (fun _ => (0, 0, 0)).

(** Two supplies of draws that agree on where a threat starts and
    what it goes for. *)
Definition same_rolls (d d' : Draws) : Prop :=
  start_x_draw d = start_x_draw d' /\ target_draw d = target_draw d'.

(** Two frames that differ in the colour draws at most. *)
Definition same_play (f f' : Frame) : Prop :=
  events f = events f' /\ mouse_pos f = mouse_pos f'
  /\ same_rolls (draws f) (draws f').

(** The drill again, with other colours coming out of the generator. *)
Definition gaudy_draws : Draws :=
  mkDraws 150 0 (17, 200, 3) (99, 5, 250) (fun i => (Z.of_nat i, 7, 40)).

Definition gaudy (n : nat) : list Frame :=
  map (fun i => mkFrame (drill_events (Z.of_nat i)) (200, 300) gaudy_draws)
      (seq 1 n).

(** ** Missiles in flight *)

(** Where a city or a launcher stands. *)
Definition city_point (c : City.t) : Z * Z := (City.x c, City.y c).

Definition base_point (b : MissileBase.t) : Z * Z :=
  (MissileBase.x b, MissileBase.y b).

(** The points [setup_game] builds on. *)
Definition city_points : list (Z * Z) :=
  map (fun x => (x, SCREEN_HEIGHT - 35)) city_sites.

Definition base_points : list (Z * Z) :=
  map (fun x => (x, SCREEN_HEIGHT - 40)) base_sites.

(** Cities and launchers stand on those points, in that order. *)
Definition placed (g : Game.t) : Prop :=
  map city_point (Game.cities g) = city_points
  /\ map base_point (Game.bases g) = base_points.

(** Not on or below the ground line. *)
Definition aloft (m : Missile.t) : Prop :=
  (Missile.y m >=? Game.GROUND_Y)%py = false.

(** A threat as [spawn_enemy_missile] makes it, some ticks into its
    flight: it started on the top edge between x = 50 and x = 750,
    aimed at a city or launcher point. *)
Definition threat_made (m : Missile.t) : Prop :=
  exists (n : nat) (sx tx ty : Z) (c : Color),
    m = flown n (EnemyMissile sx tx ty c)
    /\ 50 <= sx <= SCREEN_WIDTH - 50
    /\ In (tx, ty) (city_points ++ base_points).

(** An interceptor as [MissileBase.fire] makes it, some ticks into its
    flight: it started at a launcher point. *)
Definition interceptor_made (m : Missile.t) : Prop :=
  exists (n : nat) (bx bY tx ty : Z),
    m = flown n (PlayerMissile bx bY tx ty) /\ In (bx, bY) base_points.

(** What holds of the missiles between any two iterations of the
    main loop. *)
Definition flights (g : Game.t) : Prop :=
  placed g
  /\ Forall (fun m => threat_made m /\ aloft m) (Game.enemy_missiles g)
  /\ Forall (fun m => interceptor_made m /\ Game.off_screen m = false)
            (Game.player_missiles g).

(** ** Proof steps that recur *)

Ltac control_by_cases :=
  unfold same_control; repeat split; reflexivity.

Ltac sites_by_cases := unfold same_sites; repeat split; reflexivity.

(** * Properties *)

(** ** Launchers: [MissileBase.fire] *)







(** ** Blasts: [Explosion.update] *)

Lemma update_radius_growing (e : Explosion.t) :
  Explosion.growing e = true ->
  Explosion.radius (fst (Explosion.update e))
  = Explosion.radius e + EXPLOSION_GROWTH_RATE.
Proof.
  intros H. unfold Explosion.update, Explosion.grow. rewrite H. reflexivity.
Qed.

Lemma update_radius_frozen (e : Explosion.t) :
  Explosion.growing e = false ->
  Explosion.radius (fst (Explosion.update e)) = Explosion.radius e
  /\ Explosion.growing (fst (Explosion.update e)) = false.
Proof.
  intros H. unfold Explosion.update, Explosion.grow. rewrite H.
  split; [reflexivity | exact H].
Qed.

Lemma update_growing_stops (e : Explosion.t) :
  Explosion.growing e = true ->
  Explosion.growing (fst (Explosion.update e))
  = (Explosion.radius e + EXPLOSION_GROWTH_RATE <? Explosion.max_radius e).
Proof.
  intros H. unfold Explosion.update, Explosion.grow. rewrite H.
  cbn [fst Explosion.growing].
  rewrite Z.geb_leb, Z.ltb_antisym.
  destruct (Explosion.max_radius e <=? _); reflexivity.
Qed.

Lemma update_timer (e : Explosion.t) :
  Explosion.timer (fst (Explosion.update e)) = Explosion.timer e - 1
  /\ snd (Explosion.update e) = (0 <? Explosion.timer e - 1).
Proof.
  unfold Explosion.update, Explosion.grow.
  destruct (Explosion.growing e); split; reflexivity.
Qed.

(** What the pass over the blasts keeps: the updated blasts whose
    [update] answered that they are still active. *)
Lemma update_explosions_keeps (g : Game.t) (e' : Explosion.t) :
  In e' (Game.explosions (Game.update_explosions g)) <->
  exists e, In e (Game.explosions g)
            /\ e' = fst (Explosion.update e)
            /\ snd (Explosion.update e) = true.
Proof.
  unfold Game.update_explosions.
  change (Game.explosions (Game.set_explosions ?v g)) with v.
  rewrite in_flat_map. split.
  - intros [e [Hin He]]. exists e. split; [exact Hin|].
    destruct (Explosion.update e) as [e2 alive]. cbn [fst snd].
    destruct alive; [|destruct He].
    destruct He as [<-|[]]. split; reflexivity.
  - intros [e [Hin [-> Ha]]]. exists e. split; [exact Hin|].
    destruct (Explosion.update e) as [e2 alive]. cbn [fst snd] in *.
    subst alive. left. reflexivity.
Qed.

(** The closed form of a blast's life. *)
Lemma life_closed_form (px py : Z) (n : nat) :
  life n (Explosion.init px py)
  = Explosion.mk px py (Z.min (2 * Z.of_nat n) EXPLOSION_MAX_RADIUS)
                 EXPLOSION_MAX_RADIUS (Z.of_nat n <? 30)
                 (EXPLOSION_DURATION - Z.of_nat n).
Proof.
  induction n as [|n IH].
  - reflexivity.
  - cbn [life]. rewrite IH. clear IH.
    unfold Explosion.update, Explosion.grow.
    cbn [Explosion.growing Explosion.radius Explosion.max_radius
         Explosion.x Explosion.y Explosion.timer fst].
    unfold EXPLOSION_MAX_RADIUS, EXPLOSION_GROWTH_RATE, EXPLOSION_DURATION.
    destruct (Z.of_nat n <? 30) eqn:Hn.
    + apply Z.ltb_lt in Hn.
      cbn [Explosion.growing Explosion.radius Explosion.max_radius
           Explosion.x Explosion.y Explosion.timer].
      f_equal.
      * lia.
      * rewrite Z.geb_leb.
        destruct (60 <=? _) eqn:H1; destruct (Z.of_nat (S n) <? 30) eqn:H2;
          try reflexivity;
          [apply Z.leb_le in H1; apply Z.ltb_lt in H2
          |apply Z.leb_gt in H1; apply Z.ltb_ge in H2]; lia.
      * lia.
    + apply Z.ltb_ge in Hn.
      cbn [Explosion.growing Explosion.radius Explosion.max_radius
           Explosion.x Explosion.y Explosion.timer].
      f_equal.
      * lia.
      * symmetry. apply Z.ltb_ge. lia.
      * lia.
Qed.

(** C7. One tick of any blast: while [growing] the radius goes up by
    the growth rate, and [growing] is switched off as soon as the
    radius has reached the maximum; once [growing] is off the radius
    and the flag stay as they are; the timer goes down by one in
    either case, and the blast is reported dead once the timer is no
    longer positive.  Over the whole life of a blast made by the
    constructor: after [n] ticks the radius is [min (2 n) 60], so it
    never decreases and never exceeds the maximum, it is growing
    exactly during the first 30 ticks, the timer is [45 - n], and the
    tick that removes it is the 45th.  In the game, the pass over
    the blasts keeps exactly the updated blasts that were not reported
    dead. *)
Theorem blast_lifecycle (px py : Z) :
  (forall e, Explosion.growing e = true ->
        Explosion.radius (fst (Explosion.update e))
        = Explosion.radius e + EXPLOSION_GROWTH_RATE
        /\ Explosion.growing (fst (Explosion.update e))
           = (Explosion.radius e + EXPLOSION_GROWTH_RATE
              <? Explosion.max_radius e))
  /\ (forall e, Explosion.growing e = false ->
        Explosion.radius (fst (Explosion.update e)) = Explosion.radius e
        /\ Explosion.growing (fst (Explosion.update e)) = false)
  /\ (forall e,
        Explosion.timer (fst (Explosion.update e)) = Explosion.timer e - 1
        /\ snd (Explosion.update e) = (0 <? Explosion.timer e - 1))
  /\ (forall n : nat,
        let e := life n (Explosion.init px py) in
        Explosion.radius e = Z.min (2 * Z.of_nat n) EXPLOSION_MAX_RADIUS
        /\ Explosion.radius e <= Explosion.radius (life (S n) (Explosion.init px py))
        /\ Explosion.radius e <= Explosion.max_radius e
        /\ Explosion.max_radius e = EXPLOSION_MAX_RADIUS
        /\ Explosion.growing e = (Z.of_nat n <? 30)
        /\ Explosion.timer e = EXPLOSION_DURATION - Z.of_nat n
        /\ snd (Explosion.update e) = (Z.of_nat (S n) <? 45))
  /\ (forall g e',
        In e' (Game.explosions (Game.update_explosions g)) <->
        exists e, In e (Game.explosions g)
                  /\ e' = fst (Explosion.update e)
                  /\ 0 < Explosion.timer e - 1).
Proof.
  split.
  { intros e H. split.
    - apply update_radius_growing; exact H.
    - apply update_growing_stops; exact H. }
  split; [exact update_radius_frozen|].
  split; [exact update_timer|].
  split.
  2:{ intros g e'. rewrite update_explosions_keeps.
      split; intros [e [Hin [He Ht]]]; exists e;
        (split; [exact Hin|]); (split; [exact He|]);
        destruct (update_timer e) as [_ Hflag]; rewrite Hflag in *;
        apply Z.ltb_lt; exact Ht. }
  intros n. cbv zeta.
  destruct (update_timer (life n (Explosion.init px py))) as [_ Hflag].
  rewrite Hflag. clear Hflag.
  rewrite (life_closed_form px py (S n)), (life_closed_form px py n).
  cbn [Explosion.radius Explosion.max_radius Explosion.growing
       Explosion.timer].
  unfold EXPLOSION_MAX_RADIUS, EXPLOSION_DURATION.
  repeat split; try lia.
  destruct (0 <? 45 - Z.of_nat n - 1) eqn:H1;
    destruct (Z.of_nat (S n) <? 45) eqn:H2; try reflexivity;
    [apply Z.ltb_lt in H1; apply Z.ltb_ge in H2
    |apply Z.ltb_ge in H1; apply Z.ltb_lt in H2]; lia.
Qed.

(** ** GAME_OVER is frozen *)

(** C10. With the game-over flag set, [update] returns the state it
    was given, field for field, whatever the draws.  Of the events,
    only the restart key leaves GAME_OVER: every other event keeps
    the flag and every game field ([QUIT] clears [running], the loop
    flag, and nothing else), and none of them raises. *)
Theorem update_frozen_when_over (g : Game.t) :
  Game.game_over g = true ->
  (forall d, Game.update d g = g)
  /\ (forall mouse ev,
        ev <> KEYDOWN K_SPACE ->
        exists g', Game.handle_event mouse ev g = Some g'
                   /\ Game.game_over g' = true
                   /\ (g' = g \/ (ev = QUIT /\ g' = Game.set_running false g)))
  /\ (forall mouse,
        Game.handle_event mouse (KEYDOWN K_SPACE) g = Some (Game.restart g)
        /\ Game.game_over (Game.restart g) = false).
Proof.
  intros Hover. split; [|split].
  - intros d. unfold Game.update. rewrite Hover. reflexivity.
  - intros mouse ev Hev. destruct ev as [|button|key|].
    + exists (Game.set_running false g). cbn. rewrite Hover. auto.
    + exists g. cbn. rewrite Hover. cbn. auto.
    + destruct key; [congruence|]. exists g. cbn. auto.
    + exists g. cbn. auto.
  - intros mouse. cbn. rewrite Hover. split; reflexivity.
Qed.

(** ** Threats against blasts *)


(** ** End-of-tick checks *)

Lemma any_alive_not_all_destroyed (g : Game.t) :
  Game.any_city_alive g = negb (Game.all_cities_destroyed g).
Proof.
  unfold Game.any_city_alive, Game.all_cities_destroyed.
  induction (Game.cities g) as [|c cs IH]; [reflexivity|].
  cbn [existsb forallb]. rewrite IH.
  destruct (City.active c); reflexivity.
Qed.

Lemma recolor_active (rgb : nat -> Z * Z * Z) (cs : list City.t) :
  forall i, map City.active (Game.recolor_from i rgb cs) = map City.active cs.
Proof.
  induction cs as [|c cs IH]; intros i; [reflexivity|].
  cbn [Game.recolor_from map]. rewrite IH.
  destruct (City.active c) eqn:Hc; cbn [City.active City.set_color];
    rewrite Hc; reflexivity.
Qed.

Lemma forallb_active_map (cs : list City.t) :
  forallb (fun c => negb (City.active c)) cs
  = forallb negb (map City.active cs).
Proof.
  induction cs as [|c cs IH]; [reflexivity|].
  cbn [forallb map]. rewrite IH. reflexivity.
Qed.

Lemma next_level_cities_active (d : Draws) (g : Game.t) :
  map City.active (Game.cities (Game.next_level d g))
  = map City.active (Game.cities g).
Proof. unfold Game.next_level. cbn. apply recolor_active. Qed.

Lemma next_level_all_destroyed (d : Draws) (g : Game.t) :
  Game.all_cities_destroyed (Game.next_level d g)
  = Game.all_cities_destroyed g.
Proof.
  unfold Game.all_cities_destroyed.
  rewrite !forallb_active_map, next_level_cities_active. reflexivity.
Qed.

Lemma next_level_game_over (d : Draws) (g : Game.t) :
  Game.game_over (Game.next_level d g) = Game.game_over g.
Proof. reflexivity. Qed.

(** The two end-of-tick checks can be run in either order. *)
Lemma checks_commute (d : Draws) (g : Game.t) :
  Game.check_level d (Game.check_game_over g)
  = Game.check_game_over (Game.check_level d g).
Proof.
  unfold Game.check_level, Game.check_game_over.
  destruct (Game.all_cities_destroyed g) eqn:Hall.
  - change (Game.level_complete (Game.set_game_over true g))
      with (Game.level_complete g).
    assert (Hc : Game.level_complete g = false).
    { unfold Game.level_complete.
      rewrite any_alive_not_all_destroyed, Hall. apply andb_false_r. }
    rewrite Hc, Hall. reflexivity.
  - destruct (Game.level_complete g) eqn:Hc.
    + rewrite next_level_all_destroyed, Hall. reflexivity.
    + rewrite Hall. reflexivity.
Qed.

(** ** What the phases of [resolve] leave alone *)

Lemma fold_left_inv {A B : Type} (P : A -> Prop) (f : A -> B -> A)
      (l : list B) :
  (forall a b, P a -> P (f a b)) -> forall a, P a -> P (fold_left f l a).
Proof.
  intros Hstep. induction l as [|b l IH]; intros a Ha; [exact Ha|].
  cbn [fold_left]. apply IH, Hstep, Ha.
Qed.

Lemma same_control_refl (g : Game.t) : same_control g g.
Proof. unfold same_control. tauto. Qed.

Lemma same_control_trans (g1 g2 g3 : Game.t) :
  same_control g1 g2 -> same_control g2 g3 -> same_control g1 g3.
Proof. unfold same_control. intuition congruence. Qed.

Lemma tick_flash_control (g : Game.t) : same_control g (Game.tick_flash g).
Proof.
  unfold Game.tick_flash. destruct (0 <? Game.flash_timer g);
    control_by_cases.
Qed.

Lemma spawn_control (d : Draws) (g : Game.t) :
  same_control g (Game.spawn_enemy_missile d g).
Proof.
  unfold Game.spawn_enemy_missile.
  destruct (choice _ _) as [[tx ty]|]; control_by_cases.
Qed.

Lemma tick_spawn_control (d : Draws) (g : Game.t) :
  same_control g (Game.tick_spawn d g).
Proof.
  unfold Game.tick_spawn, Game.spawn_enemy_missile. cbv zeta.
  destruct (_ && _); [|control_by_cases].
  destruct (choice _ _) as [[tx ty]|]; control_by_cases.
Qed.

Lemma player_step_control (g : Game.t) (m : Missile.t) :
  same_control g (Game.player_step g m).
Proof.
  unfold Game.player_step. cbv zeta.
  destruct (Missile.has_reached_target _); [control_by_cases|].
  destruct (Game.off_screen _); control_by_cases.
Qed.

Lemma ground_impact_control (mx : Py.num) (g : Game.t) :
  same_control g (Game.ground_impact mx g).
Proof.
  unfold Game.ground_impact.
  destruct (Game.strike_cities mx _) as [cs e1].
  destruct (Game.strike_bases mx _) as [bs e2]. control_by_cases.
Qed.

Lemma enemy_step_control (g : Game.t) (m : Missile.t) :
  same_control g (Game.enemy_step g m).
Proof.
  unfold Game.enemy_step. cbv zeta.
  destruct (Game.blasted _ _); [control_by_cases|].
  destruct (_ >=? _)%py; [apply ground_impact_control | control_by_cases].
Qed.

Lemma fold_control {B : Type} (f : Game.t -> B -> Game.t) (l : list B) :
  (forall g b, same_control g (f g b)) ->
  forall g, same_control g (fold_left f l g).
Proof.
  intros Hf g.
  apply (fold_left_inv (fun g' => same_control g g')).
  - intros a b Ha. eapply same_control_trans; [exact Ha | apply Hf].
  - apply same_control_refl.
Qed.

Lemma update_player_missiles_control (g : Game.t) :
  same_control g (Game.update_player_missiles g).
Proof.
  unfold Game.update_player_missiles.
  apply (same_control_trans _ (Game.set_player_missiles [] g));
    [control_by_cases|].
  apply fold_control, player_step_control.
Qed.

Lemma update_enemy_missiles_control (g : Game.t) :
  same_control g (Game.update_enemy_missiles g).
Proof.
  unfold Game.update_enemy_missiles.
  apply (same_control_trans _ (Game.set_enemy_missiles [] g));
    [control_by_cases|].
  apply fold_control, enemy_step_control.
Qed.

Lemma update_explosions_control (g : Game.t) :
  same_control g (Game.update_explosions g).
Proof. control_by_cases. Qed.

Lemma resolve_control (d : Draws) (g : Game.t) :
  same_control g (Game.resolve d g).
Proof.
  unfold Game.resolve.
  eapply same_control_trans; [|apply update_explosions_control].
  eapply same_control_trans; [|apply update_enemy_missiles_control].
  eapply same_control_trans; [|apply update_player_missiles_control].
  eapply same_control_trans; [|apply tick_spawn_control].
  apply tick_flash_control.
Qed.

(** Cities are only ever switched off before the checks. *)
Lemma strike_first_no_hit {A : Type} (hit : A -> bool) (off : A -> A)
      (boom : A -> Explosion.t) (l : list A) :
  (forall a, In a l -> hit a = false) ->
  Game.strike_first hit off boom l = (l, None).
Proof.
  induction l as [|a l IH]; intros H; [reflexivity|].
  cbn [Game.strike_first]. rewrite (H a (or_introl eq_refl)).
  rewrite IH; [reflexivity|]. intros b Hb. apply H. right. exact Hb.
Qed.

Lemma strike_cities_none_active (mx : Py.num) (cs : list City.t) :
  forallb (fun c => negb (City.active c)) cs = true ->
  Game.strike_cities mx cs = (cs, None).
Proof.
  intros H. apply strike_first_no_hit. intros c Hc.
  rewrite forallb_forall in H. specialize (H c Hc).
  unfold Game.hits_city. destruct (City.active c); [discriminate|reflexivity].
Qed.

Lemma enemy_step_all_lost (g : Game.t) (m : Missile.t) :
  all_lost g -> all_lost (Game.enemy_step g m).
Proof.
  unfold all_lost, Game.all_cities_destroyed, Game.enemy_step. cbv zeta.
  intros H.
  destruct (Game.blasted _ _); [exact H|].
  destruct (_ >=? _)%py; [|exact H].
  unfold Game.ground_impact.
  rewrite (strike_cities_none_active _ _ H).
  destruct (Game.strike_bases _ _) as [bs e2]. exact H.
Qed.

Lemma player_step_cities (g : Game.t) (m : Missile.t) :
  Game.cities (Game.player_step g m) = Game.cities g.
Proof.
  unfold Game.player_step. cbv zeta.
  destruct (Missile.has_reached_target _); [reflexivity|].
  destruct (Game.off_screen _); reflexivity.
Qed.

Lemma tick_spawn_cities (d : Draws) (g : Game.t) :
  Game.cities (Game.tick_spawn d g) = Game.cities g.
Proof.
  unfold Game.tick_spawn, Game.spawn_enemy_missile. cbv zeta.
  destruct (_ && _); [|reflexivity].
  destruct (choice _ _) as [[tx ty]|]; reflexivity.
Qed.

Lemma tick_flash_cities (g : Game.t) :
  Game.cities (Game.tick_flash g) = Game.cities g.
Proof.
  unfold Game.tick_flash. destruct (0 <? _); reflexivity.
Qed.

Lemma update_player_missiles_cities (g : Game.t) :
  Game.cities (Game.update_player_missiles g) = Game.cities g.
Proof.
  unfold Game.update_player_missiles.
  apply (fold_left_inv (fun g' => Game.cities g' = Game.cities g)).
  - intros a b Ha. rewrite player_step_cities. exact Ha.
  - reflexivity.
Qed.

Lemma resolve_all_lost (d : Draws) (g : Game.t) :
  all_lost g -> all_lost (Game.resolve d g).
Proof.
  intros H. unfold Game.resolve.
  assert (H1 : all_lost (Game.update_player_missiles
                           (Game.tick_spawn d (Game.tick_flash g)))).
  { unfold all_lost, Game.all_cities_destroyed in *.
    rewrite update_player_missiles_cities, tick_spawn_cities,
      tick_flash_cities. exact H. }
  revert H1. generalize (Game.update_player_missiles
                           (Game.tick_spawn d (Game.tick_flash g))).
  intros g1 H1.
  unfold Game.update_enemy_missiles.
  assert (H2 : all_lost (fold_left Game.enemy_step (Game.enemy_missiles g1)
                                   (Game.set_enemy_missiles [] g1))).
  { apply fold_left_inv; [intros a b; apply enemy_step_all_lost | exact H1]. }
  exact H2.
Qed.

(** C5. In a tick that starts in PLAYING, the game-over test can be
    read as the last step of [update], after the level-completion
    logic, and it depends on the cities alone: if every city is
    inactive when the tick has resolved its collisions (in
    particular, if every city was inactive already), the state after
    the tick is GAME_OVER, whatever threats are in flight and whatever
    launchers are left. *)
Theorem game_over_when_all_cities_lost (d : Draws) (g : Game.t) :
  Game.game_over g = false ->
  Game.update d g
  = Game.check_game_over (Game.check_level d (Game.resolve d g))
  /\ (Game.all_cities_destroyed (Game.resolve d g) = true ->
      Game.game_over (Game.update d g) = true)
  /\ (Game.all_cities_destroyed g = true ->
      Game.game_over (Game.update d g) = true).
Proof.
  intros Hplay.
  assert (Hupd : Game.update d g
                 = Game.check_game_over
                     (Game.check_level d (Game.resolve d g))).
  { unfold Game.update. rewrite Hplay. apply checks_commute. }
  assert (Hmid : Game.all_cities_destroyed (Game.resolve d g) = true ->
                 Game.game_over (Game.update d g) = true).
  { intros Hall. unfold Game.update. rewrite Hplay.
    unfold Game.check_game_over. rewrite Hall.
    unfold Game.check_level.
    assert (Hc : Game.level_complete
                   (Game.set_game_over true (Game.resolve d g)) = false).
    { unfold Game.level_complete.
      rewrite any_alive_not_all_destroyed.
      change (Game.all_cities_destroyed
                (Game.set_game_over true (Game.resolve d g)))
        with (Game.all_cities_destroyed (Game.resolve d g)).
      rewrite Hall. apply andb_false_r. }
    rewrite Hc. reflexivity. }
  split; [exact Hupd|]. split; [exact Hmid|].
  intros Hall. apply Hmid. apply resolve_all_lost. exact Hall.
Qed.

(** ** Level completion *)

Lemma level_complete_iff_conditions (s : Game.t) :
  Game.level_complete s = true <->
  Game.enemy_missiles s = []
  /\ Game.missiles_per_level s <= Game.missiles_spawned_this_level s
  /\ exists c, In c (Game.cities s) /\ City.active c = true.
Proof.
  unfold Game.level_complete, Game.any_city_alive.
  rewrite !andb_true_iff, existsb_exists, Z.eqb_eq, Z.geb_leb, Z.leb_le.
  split.
  - intros [[Hm Hq] Hc]. repeat split; try assumption.
    destruct (Game.enemy_missiles s); [reflexivity | discriminate].
  - intros [Hm [Hq Hc]]. repeat split; try assumption.
    rewrite Hm. reflexivity.
Qed.

Lemma all_destroyed_no_active (s : Game.t) :
  Game.all_cities_destroyed s = true ->
  ~ exists c, In c (Game.cities s) /\ City.active c = true.
Proof.
  unfold Game.all_cities_destroyed. rewrite forallb_forall.
  intros H [c [Hin Hc]]. specialize (H c Hin). rewrite Hc in H.
  discriminate.
Qed.

Lemma at_check_level (d : Draws) (g : Game.t) :
  Game.level (at_check d g) = Game.level g.
Proof.
  unfold at_check. destruct (Game.game_over g); [reflexivity|].
  unfold Game.check_game_over.
  destruct (resolve_control d g) as (_ & _ & Hl & _).
  destruct (Game.all_cities_destroyed _); exact Hl.
Qed.

Lemma next_level_level (d : Draws) (s : Game.t) :
  Game.level (Game.next_level d s) = Game.level s + 1.
Proof. reflexivity. Qed.

(** C3. In every tick the level-complete transition is taken exactly
    when, at the test, no threat is in flight, the number spawned
    this level has reached the quota and some city is active: then
    the tick ends in [next_level] (the level counter goes up by one),
    and otherwise it ends in the tested state with the level counter
    as it was.  So it is never taken with a threat in flight, and
    never with every city inactive, which ends in GAME_OVER. *)
Theorem level_complete_iff (d : Draws) (g : Game.t) :
  over_means_lost g ->
  let s := at_check d g in
  let complete :=
    Game.enemy_missiles s = []
    /\ Game.missiles_per_level s <= Game.missiles_spawned_this_level s
    /\ exists c, In c (Game.cities s) /\ City.active c = true in
  (Game.level (Game.update d g) = Game.level g + 1 <-> complete)
  /\ (complete -> Game.update d g = Game.next_level d s)
  /\ (~ complete ->
      Game.update d g = s /\ Game.level (Game.update d g) = Game.level g)
  /\ (Game.enemy_missiles s <> [] -> ~ complete)
  /\ (Game.all_cities_destroyed s = true ->
      ~ complete /\ Game.game_over (Game.update d g) = true).
Proof.
  intros Hinv s complete.
  assert (Hlev : Game.level s = Game.level g) by apply at_check_level.
  assert (Hupd : Game.update d g
                 = if Game.level_complete s then Game.next_level d s else s).
  { unfold Game.update, s, at_check, over_means_lost in *.
    destruct (Game.game_over g) eqn:Hover; [|reflexivity].
    destruct (Game.level_complete g) eqn:Hc; [|reflexivity].
    exfalso. apply level_complete_iff_conditions in Hc.
    destruct Hc as (_ & _ & Hc).
    exact (all_destroyed_no_active g (Hinv eq_refl) Hc). }
  assert (Hiff : Game.level_complete s = true <-> complete)
    by apply level_complete_iff_conditions.
  assert (Hyes : complete -> Game.update d g = Game.next_level d s).
  { intros Hc. apply Hiff in Hc. rewrite Hupd, Hc. reflexivity. }
  assert (Hno : ~ complete -> Game.update d g = s).
  { intros Hc. rewrite Hupd.
    destruct (Game.level_complete s); [|reflexivity].
    exfalso. apply Hc, Hiff. reflexivity. }
  split; [|split; [exact Hyes|split; [|split]]].
  - split.
    + intros Hl. apply Hiff.
      destruct (Game.level_complete s) eqn:Hc; [reflexivity|].
      rewrite Hupd in Hl. lia.
    + intros Hc. rewrite (Hyes Hc), next_level_level. lia.
  - intros Hc. split; [exact (Hno Hc)|]. rewrite (Hno Hc). exact Hlev.
  - intros Hm [Hm' _]. exact (Hm Hm').
  - intros Hall.
    assert (Hnc : ~ complete).
    { intros (_ & _ & Hc). exact (all_destroyed_no_active s Hall Hc). }
    split; [exact Hnc|]. rewrite (Hno Hnc).
    unfold s, at_check, over_means_lost in *.
    destruct (Game.game_over g) eqn:Hover; [exact Hover|].
    unfold Game.check_game_over in *.
    destruct (Game.all_cities_destroyed (Game.resolve d g)) eqn:H1;
      [reflexivity|].
    rewrite Hall in H1. discriminate.
Qed.

(** ** Level-up rewards *)

Lemma city_bonus_sum (cs : list City.t) :
  forall s0,
    fold_left (fun s c => if City.active c then s + 100 else s) cs s0
    = s0 + 100 * Z.of_nat (length (filter City.active cs)).
Proof.
  induction cs as [|c cs IH]; intros s0; cbn [fold_left filter].
  - simpl. lia.
  - rewrite IH. destruct (City.active c); cbn [length]; lia.
Qed.

Lemma base_bonus_sum (a : Z) (bs : list MissileBase.t) :
  forall s0,
    fold_left (fun s b => if MissileBase.active b then s + 50 else s)
              (map (Game.refill a) bs) s0
    = s0 + 50 * Z.of_nat (length bs).
Proof.
  induction bs as [|b bs IH]; intros s0; cbn [fold_left map].
  - simpl. lia.
  - rewrite IH. cbn [Game.refill MissileBase.active MissileBase.set_ammo
                     MissileBase.set_active length]. lia.
Qed.

Lemma total_ammo_refilled (a : Z) (bs : list MissileBase.t) :
  Game.total_ammo (map (Game.refill a) bs) = a * Z.of_nat (length bs).
Proof.
  unfold Game.total_ammo.
  induction bs as [|b bs IH]; cbn [map fold_right length]; [lia|].
  rewrite IH. cbn [Game.refill MissileBase.ammo MissileBase.set_ammo]. lia.
Qed.

Lemma refilled_bases (a : Z) (bs : list MissileBase.t) :
  Forall (fun b => MissileBase.active b = true /\ MissileBase.ammo b = a)
         (map (Game.refill a) bs).
Proof.
  induction bs as [|b bs IH]; cbn [map]; constructor; [|exact IH].
  split; reflexivity.
Qed.

(** C4. A tick that completes the level ends in [next_level] of the
    tested state [s], where: the score has gone up by 100 for every
    active city and by 50 for every launcher; every launcher is
    active again with the starting ammo; the next quota is the sum of
    the launchers' ammo; the level counter is one higher; the spawn
    interval is 5 shorter but not below 30; and the spawn timer and
    the spawned-this-level count are 0.  In particular, on level 1
    with 3 launchers of 10 ammo and all 6 cities standing, a score of
    [s0 + 30 * 25] (30 threats taken out by blasts) becomes
    [s0 + 30 * 25 + 6 * 100 + 3 * 50], on level 2 with quota 30. *)
Theorem level_up_rewards (d : Draws) (g : Game.t) :
  Game.game_over g = false ->
  let s := Game.check_game_over (Game.resolve d g) in
  Game.level_complete s = true ->
  let s' := Game.update d g in
  s' = Game.next_level d s
  /\ Game.score s' = Game.score s + 100 * active_cities s + 50 * launchers s
  /\ Forall (fun b => MissileBase.active b = true
                      /\ MissileBase.ammo b = Game.starting_ammo s)
            (Game.bases s')
  /\ Game.missiles_per_level s' = Game.total_ammo (Game.bases s')
  /\ Game.missiles_per_level s' = Game.starting_ammo s * launchers s
  /\ Game.level s' = Game.level s + 1
  /\ Game.enemy_spawn_rate s' = Z.max 30 (Game.enemy_spawn_rate s - 5)
  /\ 30 <= Game.enemy_spawn_rate s'
  /\ Game.enemy_spawn_timer s' = 0
  /\ Game.missiles_spawned_this_level s' = 0
  /\ (forall s0,
        Game.level s = 1 -> launchers s = 3 -> Game.starting_ammo s = 10 ->
        active_cities s = 6 -> Game.score s = s0 + 30 * 25 ->
        Game.score s' = s0 + 30 * 25 + 6 * 100 + 3 * 50
        /\ Game.level s' = 2
        /\ Game.missiles_per_level s' = 30).
Proof.
  intros Hplay s Hc s'.
  assert (Hs' : s' = Game.next_level d s).
  { unfold s', Game.update, Game.check_level. rewrite Hplay.
    fold s. rewrite Hc. reflexivity. }
  assert (Hscore : Game.score (Game.next_level d s)
                   = Game.score s + 100 * active_cities s + 50 * launchers s).
  { change (Game.score (Game.next_level d s))
      with (fold_left
              (fun s b => if MissileBase.active b then s + 50 else s)
              (map (Game.refill (Game.starting_ammo s)) (Game.bases s))
              (fold_left (fun s c => if City.active c then s + 100 else s)
                         (Game.cities s) (Game.score s))).
    rewrite base_bonus_sum, city_bonus_sum.
    unfold active_cities, launchers. lia. }
  assert (Hquota : Game.missiles_per_level (Game.next_level d s)
                   = Game.starting_ammo s * launchers s).
  { change (Game.missiles_per_level (Game.next_level d s))
      with (Game.total_ammo
              (map (Game.refill (Game.starting_ammo s)) (Game.bases s))).
    unfold launchers. apply total_ammo_refilled. }
  rewrite Hs'.
  split; [reflexivity|]. split; [exact Hscore|].
  split; [exact (refilled_bases (Game.starting_ammo s) (Game.bases s))|].
  split; [reflexivity|]. split; [exact Hquota|].
  split; [reflexivity|]. split; [reflexivity|].
  split; [change (30 <= Z.max 30 (Game.enemy_spawn_rate s - 5)); lia|].
  split; [reflexivity|]. split; [reflexivity|].
  intros s0 Hl Hb Ha Hcs Hsc.
  rewrite Hscore, Hquota, next_level_level, Hl, Hb, Ha, Hcs, Hsc.
  repeat split; lia.
Qed.

(** ** Threats inside a blast *)



Lemma ground_impact_score (mx : Py.num) (g : Game.t) :
  Game.score (Game.ground_impact mx g) = Game.score g.
Proof.
  unfold Game.ground_impact.
  destruct (Game.strike_cities mx _) as [cs e1].
  destruct (Game.strike_bases mx _) as [bs e2]. reflexivity.
Qed.

Lemma ground_impact_enemy_missiles (mx : Py.num) (g : Game.t) :
  Game.enemy_missiles (Game.ground_impact mx g) = Game.enemy_missiles g.
Proof.
  unfold Game.ground_impact.
  destruct (Game.strike_cities mx _) as [cs e1].
  destruct (Game.strike_bases mx _) as [bs e2]. reflexivity.
Qed.




Section BlastedThreat.

Variable m : Missile.t.
Variable blasts : list Explosion.t.
Hypothesis inside :
  exists e, In e blasts
            /\ Explosion.collides_with e (Missile.x (Missile.update m))
                                       (Missile.y (Missile.update m)) = true.






End BlastedThreat.


(** ** Rounding never crosses an integer threshold *)

Lemma digits2_pos_bounds (p : positive) :
  2 ^ (Zpos (digits2_pos p) - 1) <= Zpos p < 2 ^ Zpos (digits2_pos p).
Proof.
  induction p as [p IH|p IH|]; cbn [digits2_pos].
  - rewrite Pos2Z.inj_succ.
    replace (Z.succ (Zpos (digits2_pos p)) - 1) with (Z.succ (Zpos (digits2_pos p) - 1)) by lia.
    rewrite !Z.pow_succ_r by lia. lia.
  - rewrite Pos2Z.inj_succ.
    replace (Z.succ (Zpos (digits2_pos p)) - 1) with (Z.succ (Zpos (digits2_pos p) - 1)) by lia.
    rewrite !Z.pow_succ_r by lia. lia.
  - simpl. lia.
Qed.

Lemma shr_1_m (mrs : shr_record) :
  0 <= shr_m mrs -> shr_m (shr_1 mrs) = shr_m mrs / 2.
Proof.
  destruct mrs as [m r s]. cbn [shr_m]. intros Hm.
  rewrite <- Z.div2_div.
  destruct m as [|[p|p|]|p]; try reflexivity; lia.
Qed.

Lemma iter_shr_1_m (p : positive) :
  forall mrs, 0 <= shr_m mrs ->
         shr_m (iter_pos shr_1 p mrs) = shr_m mrs / 2 ^ Zpos p.
Proof.
  induction p as [p IH|p IH|]; intros mrs Hm; cbn [iter_pos].
  - assert (H1 : 0 <= shr_m (shr_1 mrs)).
    { rewrite shr_1_m by exact Hm. apply Z.div_pos; lia. }
    assert (H2 : 0 <= shr_m (iter_pos shr_1 p (shr_1 mrs))).
    { rewrite IH by exact H1. apply Z.div_pos; [exact H1|]. apply Z.pow_pos_nonneg; lia. }
    rewrite IH by exact H2. rewrite IH by exact H1. rewrite shr_1_m by exact Hm.
    rewrite !Z.div_div by (try apply Z.pow_pos_nonneg; lia).
    f_equal. rewrite <- Z.pow_add_r by lia.
    rewrite <- (Z.pow_succ_r 2) by lia. f_equal. lia.
  - assert (H2 : 0 <= shr_m (iter_pos shr_1 p mrs)).
    { rewrite IH by exact Hm. apply Z.div_pos; [exact Hm|]. apply Z.pow_pos_nonneg; lia. }
    rewrite IH by exact H2. rewrite IH by exact Hm.
    rewrite !Z.div_div by (try apply Z.pow_pos_nonneg; lia).
    f_equal. rewrite <- Z.pow_add_r by lia. f_equal. lia.
  - rewrite shr_1_m by exact Hm. reflexivity.
Qed.

Lemma at_least_pos (t m e : Z) : 0 < t -> at_least t m e -> 0 < m.
Proof.
  unfold at_least. intros Ht H.
  destruct (0 <=? e) eqn:He.
  - apply Z.leb_le in He.
    assert (0 < 2 ^ e) by (apply Z.pow_pos_nonneg; lia). nia.
  - apply Z.leb_gt in He.
    assert (0 < 2 ^ (- e)) by (apply Z.pow_pos_nonneg; lia). nia.
Qed.

Lemma at_least_mono (t m m' e : Z) :
  m <= m' -> at_least t m e -> at_least t m' e.
Proof.
  unfold at_least. intros Hm H.
  destruct (0 <=? e) eqn:He; [|lia].
  apply Z.leb_le in He.
  assert (0 < 2 ^ e) by (apply Z.pow_pos_nonneg; lia). nia.
Qed.

Lemma shr_record_of_loc_m (m : Z) (l : location) :
  shr_m (shr_record_of_loc m l) = m.
Proof. destruct l as [|[]]; reflexivity. Qed.

Lemma pow2_pos (e : Z) : 0 <= e -> 0 < 2 ^ e.
Proof. intros H. apply Z.pow_pos_nonneg; lia. Qed.

(** Truncating a mantissa to the format's precision keeps it above an
    integer threshold that fits the precision. *)
Lemma shr_fexp_at_least (t m e : Z) (l : location) :
  0 < t <= 2 ^ 53 -> 0 < m -> at_least t m e ->
  at_least t (shr_m (fst (shr_fexp prec emax m e l)))
           (snd (shr_fexp prec emax m e l)).
Proof.
  intros Ht Hm H.
  unfold shr_fexp, shr.
  destruct m as [|p|p]; try lia.
  cbn [Zdigits2].
  pose proof (digits2_pos_bounds p) as Hd.
  set (dg := Zpos (digits2_pos p)) in *.
  unfold fexp, emin, emax, prec.
  destruct (Z.max (dg + e - 53) (3 - 1024 - 53) - e) as [|n|n] eqn:Hn;
    cbn [fst snd]; rewrite ?shr_record_of_loc_m; try exact H.
  rewrite iter_shr_1_m by (rewrite shr_record_of_loc_m; lia).
  rewrite shr_record_of_loc_m.
  assert (Hp : 0 < 2 ^ Zpos n) by (apply pow2_pos; lia).
  unfold at_least in *.
  destruct (0 <=? e + Zpos n) eqn:He'.
  - apply Z.leb_le in He'.
    destruct (Z.eq_dec (e + Zpos n) 0) as [Hz|Hz].
    + rewrite Hz. rewrite Z.pow_0_r, Z.mul_1_r.
      assert (He : (0 <=? e) = false) by (apply Z.leb_gt; lia).
      rewrite He in H.
      apply Z.div_le_lower_bound; [exact Hp|].
      replace (- e) with (Zpos n) in H by lia. lia.
    + assert (Hn' : Zpos n = dg - 53) by lia.
      assert (Hq : 2 ^ 52 <= Zpos p / 2 ^ Zpos n).
      { apply Z.div_le_lower_bound; [exact Hp|].
        rewrite <- Z.pow_add_r by lia.
        replace (Zpos n + 52) with (dg - 1) by lia. lia. }
      assert (H2 : 2 <= 2 ^ (e + Zpos n)).
      { change 2 with (2 ^ 1) at 1. apply Z.pow_le_mono_r; lia. }
      assert (2 ^ 53 = 2 ^ 52 * 2) by reflexivity.
      nia.
  - apply Z.leb_gt in He'.
    assert (He : (0 <=? e) = false) by (apply Z.leb_gt; lia).
    rewrite He in H.
    apply Z.div_le_lower_bound; [exact Hp|].
    replace (- e) with (Zpos n + - (e + Zpos n)) in H by lia.
    rewrite Z.pow_add_r in H by lia. lia.
Qed.

Lemma round_nearest_even_ge (m : Z) (l : location) :
  m <= round_nearest_even m l.
Proof.
  unfold round_nearest_even.
  destruct l as [|[]]; try lia. destruct (Z.even m); lia.
Qed.

Lemma binary_round_aux_at_least (t : Z) (s : bool) (m e : Z) (l : location) :
  0 < t <= 2 ^ 53 -> 0 < m -> at_least t m e ->
  rounded_at_least t s (binary_round_aux prec emax s m e l).
Proof.
  intros Ht Hm H. unfold binary_round_aux.
  pose proof (shr_fexp_at_least t m e l Ht Hm H) as H1.
  destruct (shr_fexp prec emax m e l) as [mrs1 e1]. cbn [fst snd] in H1.
  set (m1 := round_nearest_even (shr_m mrs1) (loc_of_shr_record mrs1)).
  assert (H1' : at_least t m1 e1).
  { eapply at_least_mono; [apply round_nearest_even_ge | exact H1]. }
  assert (Hm1 : 0 < m1) by (eapply at_least_pos; [apply Ht | exact H1']).
  pose proof (shr_fexp_at_least t m1 e1 loc_Exact Ht Hm1 H1') as H2.
  destruct (shr_fexp prec emax m1 e1 loc_Exact) as [mrs2 e2].
  cbn [fst snd] in H2.
  pose proof (at_least_pos _ _ _ (proj1 Ht) H2) as Hm2.
  destruct (shr_m mrs2) as [|p|p]; try lia.
  destruct (e2 <=? emax - prec); cbn; auto.
Qed.

Lemma shl_align_fst (m : positive) (e e' : Z) :
  e' <= e -> Zpos (fst (shl_align m e e')) = Zpos m * 2 ^ (e - e').
Proof.
  intros H. unfold shl_align.
  destruct (e' - e) as [|d|d] eqn:Hd; cbn [fst].
  - replace (e - e') with 0 by lia. simpl. lia.
  - lia.
  - change (Pos.iter xO m d) with (shift_pos d m).
    rewrite shift_pos_correct, Z.pow_pos_fold.
    replace (e - e') with (Zpos d) by lia. lia.
Qed.

Lemma shl_align_snd (m : positive) (e e' : Z) :
  snd (shl_align m e e') = Z.min e e'.
Proof.
  unfold shl_align. destruct (e' - e) as [|d|d] eqn:Hd; cbn [snd]; lia.
Qed.

Lemma at_least_shl (t m e d : Z) :
  0 <= d -> at_least t m e -> at_least t (m * 2 ^ d) (e - d).
Proof.
  unfold at_least. intros Hd H.
  assert (Hpd : 0 < 2 ^ d) by (apply pow2_pos; lia).
  destruct (0 <=? e) eqn:He.
  - apply Z.leb_le in He.
    destruct (0 <=? e - d) eqn:He'.
    + apply Z.leb_le in He'.
      replace e with (d + (e - d)) in H by lia.
      rewrite Z.pow_add_r in H by lia. lia.
    + apply Z.leb_gt in He'.
      replace (- (e - d)) with (d - e) by lia.
      assert (Hpe : 0 < 2 ^ (d - e)) by (apply pow2_pos; lia).
      assert (Hsplit : 2 ^ d = 2 ^ e * 2 ^ (d - e)).
      { rewrite <- Z.pow_add_r by lia. f_equal. lia. }
      rewrite Hsplit. nia.
  - apply Z.leb_gt in He.
    assert (He' : (0 <=? e - d) = false) by (apply Z.leb_gt; lia).
    rewrite He'.
    replace (- (e - d)) with (- e + d) by lia.
    rewrite Z.pow_add_r by lia. nia.
Qed.

Lemma binary_round_at_least (t : Z) (s : bool) (m : positive) (e : Z) :
  0 < t <= 2 ^ 53 -> at_least t (Zpos m) e ->
  rounded_at_least t s (binary_round prec emax s m e).
Proof.
  intros Ht H. unfold binary_round.
  set (e' := fexp prec emax (Zpos (digits2_pos m) + e)).
  pose proof (shl_align_snd m e e') as Hs.
  destruct (Z.le_gt_cases e' e) as [Hle|Hgt].
  - pose proof (shl_align_fst m e e' Hle) as Hf.
    destruct (shl_align m e e') as [mz ez]. cbn [fst snd] in *.
    apply binary_round_aux_at_least; [exact Ht | lia |].
    rewrite Hf, Hs. replace (Z.min e e') with (e - (e - e')) by lia.
    apply at_least_shl; [lia | exact H].
  - unfold shl_align.
    destruct (e' - e) as [|d|d] eqn:Hd; try lia.
    apply binary_round_aux_at_least; [exact Ht | lia | exact H].
Qed.

Lemma binary_normalize_at_least (t m e : Z) :
  0 < t <= 2 ^ 53 -> at_least t (Z.abs m) e ->
  rounded_at_least t (m <? 0) (binary_normalize prec emax m e false).
Proof.
  intros Ht H. unfold binary_normalize.
  destruct m as [|p|p].
  - apply at_least_pos in H; [cbn in H; lia | lia].
  - apply binary_round_at_least; assumption.
  - apply binary_round_at_least; assumption.
Qed.

(** ** The hit test, exactly *)

Lemma cond_Zopp_mul (s : bool) (a b : Z) :
  cond_Zopp s (a * b) = cond_Zopp s a * b.
Proof. destruct s; cbn [cond_Zopp]; lia. Qed.

Lemma cond_Zopp_abs (s : bool) (a : Z) : Z.abs (cond_Zopp s a) = Z.abs a.
Proof. destruct s; cbn [cond_Zopp]; lia. Qed.

Lemma rounded_not_below (t : Z) (s : bool) (r : spec_float) :
  rounded_at_least t s r ->
  Py.cmp_spec_Z (SFabs r) t <> Some Lt.
Proof.
  destruct r as [s'|s'|  |s' m e]; cbn [rounded_at_least SFabs Py.cmp_spec_Z];
    try tauto; try discriminate.
  intros [_ H] Hc. injection Hc as Hc.
  unfold Py.cmp_finite_Z, at_least in *. cbn [cond_Zopp] in Hc.
  destruct (0 <=? e); rewrite Z.compare_lt_iff in Hc; lia.
Qed.

Lemma cancel_scale (u t k : Z) : 0 < k -> Z.abs (u * k) < t * k -> Z.abs u < t.
Proof.
  intros Hk H. rewrite Z.abs_mul, (Z.abs_eq k) in H by lia.
  apply Z.mul_lt_mono_pos_r in H; assumption.
Qed.

Lemma sub_close (c t : Z) (mc : positive) (ec : Z) (y : spec_float) :
  0 < t <= 2 ^ 53 -> ec <= 0 -> Zpos mc = c * 2 ^ (- ec) ->
  Py.cmp_spec_Z (SFabs (SF64sub (S754_finite false mc ec) y)) t = Some Lt ->
  close_to c t y.
Proof.
  intros Ht Hec Hmc Hlt.
  assert (Hpc : 0 < 2 ^ (- ec)) by (apply pow2_pos; lia).
  destruct y as [sy|sy| |sy my ey]; cbn [SF64sub SFsub SFabs close_to] in *.
  - (* zero *)
    cbn [Py.cmp_spec_Z] in Hlt. injection Hlt as Hlt.
    unfold Py.cmp_finite_Z in Hlt. cbn [cond_Zopp] in Hlt.
    destruct (0 <=? ec) eqn:He; rewrite Z.compare_lt_iff in Hlt.
    + apply Z.leb_le in He. assert (ec = 0) by lia. subst ec.
      cbn in Hmc, Hlt. lia.
    + rewrite Hmc in Hlt. apply Z.mul_lt_mono_pos_r in Hlt; [|exact Hpc].
      assert (0 < c) by nia. lia.
  - (* infinity *)
    cbn in Hlt. discriminate.
  - (* nan *)
    cbn in Hlt. discriminate.
  - (* finite *)
    set (ez := IntDef.Z.min ec ey) in *.
    assert (Hez : ez = Z.min ec ey) by reflexivity.
    rewrite !shl_align_fst in Hlt by lia.
    cbn [cond_Zopp] in Hlt.
    set (M := Zpos mc * 2 ^ (ec - ez)
              - cond_Zopp sy (Zpos my * 2 ^ (ey - ez))) in *.
    (* the exact difference is below the threshold *)
    assert (Hbelow : Z.abs M < t * 2 ^ (- ez)).
    { destruct (Z.lt_ge_cases (Z.abs M) (t * 2 ^ (- ez))) as [|Hge];
        [assumption|].
      exfalso. revert Hlt. apply (rounded_not_below t (M <? 0)).
      apply binary_normalize_at_least; [exact Ht|].
      unfold at_least.
      destruct (0 <=? ez) eqn:H0; [|exact Hge].
      apply Z.leb_le in H0. assert (ez = 0) by lia.
      replace ez with 0 in * by lia. cbn in Hge |- *. lia. }
    clear Hlt.
    assert (HA : Zpos mc * 2 ^ (ec - ez) = c * 2 ^ (- ez)).
    { rewrite Hmc, <- Z.mul_assoc, <- Z.pow_add_r by lia.
      do 2 f_equal. lia. }
    unfold M in Hbelow. rewrite HA, cond_Zopp_mul in Hbelow.
    set (Y := cond_Zopp sy (Zpos my)) in *.
    destruct (0 <=? ey) eqn:Hey.
    + apply Z.leb_le in Hey.
      apply (cancel_scale _ _ (2 ^ (- ez))); [apply pow2_pos; lia|].
      replace (ey - ez) with (ey + - ez) in Hbelow by lia.
      rewrite Z.pow_add_r in Hbelow by lia.
      replace ((c - Y * 2 ^ ey) * 2 ^ (- ez))
        with (c * 2 ^ (- ez) - Y * (2 ^ ey * 2 ^ (- ez))) by ring.
      exact Hbelow.
    + apply Z.leb_gt in Hey.
      apply (cancel_scale _ _ (2 ^ (ey - ez))); [apply pow2_pos; lia|].
      replace (- ez) with (- ey + (ey - ez)) in Hbelow by lia.
      rewrite Z.pow_add_r in Hbelow by lia.
      replace ((c * 2 ^ (- ey) - Y) * 2 ^ (ey - ez))
        with (c * (2 ^ (- ey) * 2 ^ (ey - ez)) - Y * 2 ^ (ey - ez)) by ring.
      rewrite <- Z.mul_assoc. exact Hbelow.
Qed.

Lemma near_exact (c : Z) (mx : Py.num) :
  exact_int c = true -> Game.near c mx = true ->
  within c Game.HIT_RADIUS mx.
Proof.
  unfold exact_int, Game.near, Game.HIT_RADIUS, Py.ltb.
  intros Hc Hn.
  destruct mx as [z|f]; cbn [Py.sub Py.abs Py.cmp within Py.to_float] in *.
  - destruct (Z.abs (c - z) ?= 20) eqn:Hcmp; try discriminate.
    rewrite Z.compare_lt_iff in Hcmp. exact Hcmp.
  - unfold Py.cmp_float_Z in Hn. rewrite abs_spec, sub_spec in Hn.
    destruct (Prim2SF (Py.float_of_Z c)) as [| | |[] mc ec];
      try discriminate.
    apply andb_true_iff in Hc. destruct Hc as [Hec Hmc].
    apply Z.leb_le in Hec. apply Z.eqb_eq in Hmc.
    apply (sub_close c 20 mc ec); try assumption; [cbn; lia|].
    destruct (Py.cmp_spec_Z _ 20) as [[]|]; try discriminate. reflexivity.
Qed.

Lemma within_exclusive (c1 c2 t : Z) (mx : Py.num) :
  within c1 t mx -> within c2 t mx -> Z.abs (c1 - c2) < 2 * t.
Proof.
  destruct mx as [z|f]; cbn [within]; [lia|].
  destruct (Prim2SF f) as [s|s| |s m e]; cbn [close_to]; try tauto; [lia|].
  destruct (0 <=? e) eqn:He.
  - generalize (cond_Zopp s (Zpos m) * 2 ^ e). intros; lia.
  - apply Z.leb_gt in He.
    assert (Hk : 0 < 2 ^ (- e)) by (apply pow2_pos; lia).
    revert Hk. generalize (2 ^ (- e)), (cond_Zopp s (Zpos m)).
    intros k y Hk H1 H2.
    apply (cancel_scale _ _ k Hk). lia.
Qed.

(** ** Ground impacts *)

Lemma strike_first_hit {A : Type} (hit : A -> bool) (off : A -> A)
      (boom : A -> Explosion.t) (l : list A) :
  (forall a, In a l -> hit a = false)
  \/ exists i a, first_hit hit l i a
                 /\ Game.strike_first hit off boom l
                    = (list_set i (off a) l, Some (boom a)).
Proof.
  induction l as [|a l IH].
  - left. intros a [].
  - destruct (hit a) eqn:Ha.
    + right. exists 0%nat, a. split.
      * split; [reflexivity|]. split; [exact Ha|]. intros j a' Hj. lia.
      * cbn [Game.strike_first list_set]. rewrite Ha. reflexivity.
    + destruct IH as [IH|[i [b [[Hn [Hb Hfirst]] Hs]]]].
      * left. intros b [Hb|Hb]; [subst b; exact Ha | apply IH, Hb].
      * right. exists (S i), b. split.
        -- split; [exact Hn|]. split; [exact Hb|].
           intros [|j] a' Hj Hj'.
           ++ cbn in Hj'. injection Hj' as <-. exact Ha.
           ++ apply (Hfirst j a'); [lia | exact Hj'].
        -- cbn [Game.strike_first list_set]. rewrite Ha, Hs. reflexivity.
Qed.

Lemma sites_apart (c b : Z) :
  In c city_sites -> In b base_sites ->
  exact_int c = true /\ exact_int b = true
  /\ 2 * Game.HIT_RADIUS <= Z.abs (c - b).
Proof.
  unfold city_sites, base_sites. cbn [In].
  intros Hc Hb.
  repeat match goal with H : _ \/ _ |- _ => destruct H as [H|H] end;
    try contradiction; subst c b;
    (split; [vm_compute; reflexivity
            |split; [vm_compute; reflexivity | vm_compute; discriminate]]).
Qed.

(** No point of the ground line is within the hit radius of both a
    city and a launcher. *)
Lemma near_city_not_base (g : Game.t) (mx : Py.num)
      (c : City.t) (b : MissileBase.t) :
  standard_layout g ->
  In c (Game.cities g) -> In b (Game.bases g) ->
  Game.near (City.x c) mx = true -> Game.near (MissileBase.x b) mx = true ->
  False.
Proof.
  intros [Hcs Hbs] Hc Hb Hnc Hnb.
  assert (Hc' : In (City.x c) city_sites)
    by (rewrite <- Hcs; apply in_map, Hc).
  assert (Hb' : In (MissileBase.x b) base_sites)
    by (rewrite <- Hbs; apply in_map, Hb).
  destruct (sites_apart _ _ Hc' Hb') as (Hec & Heb & Hfar).
  pose proof (within_exclusive _ _ _ _ (near_exact _ _ Hec Hnc)
                               (near_exact _ _ Heb Hnb)).
  lia.
Qed.

Lemma switch_off_city (cs : list City.t) :
  forall i c, nth_error cs i = Some c -> City.active c = true ->
         (length (filter City.active
                         (list_set i (City.set_active false c) cs)) + 1
          = length (filter City.active cs))%nat.
Proof.
  induction cs as [|a cs IH]; intros [|i] c Hn Hc; try discriminate.
  - cbn in Hn. injection Hn as ->. cbn [list_set filter City.set_active
                                          City.active].
    rewrite Hc. cbn [length]. lia.
  - cbn [list_set filter nth_error] in *.
    destruct (City.active a); cbn [length]; rewrite <- (IH i c Hn Hc); lia.
Qed.

Lemma switch_off_base (bs : list MissileBase.t) :
  forall i b, nth_error bs i = Some b -> MissileBase.active b = true ->
         (length (filter MissileBase.active
                         (list_set i (MissileBase.set_active false b) bs)) + 1
          = length (filter MissileBase.active bs))%nat.
Proof.
  induction bs as [|a bs IH]; intros [|i] b Hn Hb; try discriminate.
  - cbn in Hn. injection Hn as ->.
    cbn [list_set filter MissileBase.set_active MissileBase.active].
    rewrite Hb. cbn [length]. lia.
  - cbn [list_set filter nth_error] in *.
    destruct (MissileBase.active a); cbn [length];
      rewrite <- (IH i b Hn Hb); lia.
Qed.

(** C1. A threat that is not caught by a blast and has reached the
    ground line is dropped from the live threats, leaves the score
    alone, and then exactly one of three things has happened: the
    first active city within 20 units of its x is switched off and a
    blast is made there, with every launcher untouched; or no city
    matched, and the first active launcher within 20 units is switched
    off and a blast is made there; or nothing matched and nothing
    changed.  So one impact takes out at most one city or launcher,
    never a city and a launcher together. *)
Theorem ground_impact_one_victim (g : Game.t) (m : Missile.t) :
  standard_layout g ->
  Game.blasted g (Missile.update m) = false ->
  (Missile.y (Missile.update m) >=? Game.GROUND_Y)%py = true ->
  let mx := Missile.x (Missile.update m) in
  let g' := Game.enemy_step g m in
  Game.enemy_missiles g' = Game.enemy_missiles g
  /\ Game.score g' = Game.score g
  /\ standing g - 1 <= standing g' <= standing g
  /\ ((exists i c,
         first_hit (Game.hits_city mx) (Game.cities g) i c
         /\ Game.cities g'
            = list_set i (City.set_active false c) (Game.cities g)
         /\ Game.bases g' = Game.bases g
         /\ Game.explosions g'
            = Game.explosions g ++ [Explosion.init (City.x c) (City.y c)])
      \/ ((forall c, In c (Game.cities g) -> Game.hits_city mx c = false)
          /\ exists i b,
            first_hit (Game.hits_base mx) (Game.bases g) i b
            /\ Game.bases g'
               = list_set i (MissileBase.set_active false b) (Game.bases g)
            /\ Game.cities g' = Game.cities g
            /\ Game.explosions g'
               = Game.explosions g
                 ++ [Explosion.init (MissileBase.x b) (MissileBase.y b)])
      \/ ((forall c, In c (Game.cities g) -> Game.hits_city mx c = false)
          /\ (forall b, In b (Game.bases g) -> Game.hits_base mx b = false)
          /\ Game.cities g' = Game.cities g
          /\ Game.bases g' = Game.bases g
          /\ Game.explosions g' = Game.explosions g)).
Proof.
  intros Hlay Hb Hy mx g'.
  assert (Hg' : g' = Game.ground_impact mx g).
  { unfold g', Game.enemy_step. cbv zeta. rewrite Hb, Hy. reflexivity. }
  rewrite Hg'. clear Hg' g'.
  split; [apply ground_impact_enemy_missiles|].
  split; [apply ground_impact_score|].
  unfold Game.ground_impact, Game.strike_cities, Game.strike_bases.
  destruct (strike_first_hit (Game.hits_city mx) (City.set_active false)
              (fun c => Explosion.init (City.x c) (City.y c))
              (Game.cities g)) as [Hnc|[i [c [Hfc Hsc]]]].
  - (* no city *)
    rewrite (strike_first_no_hit _ _ _ _ Hnc).
    destruct (strike_first_hit (Game.hits_base mx)
                (MissileBase.set_active false)
                (fun b => Explosion.init (MissileBase.x b) (MissileBase.y b))
                (Game.bases g)) as [Hnb|[j [b [Hfb Hsb]]]].
    + rewrite (strike_first_no_hit _ _ _ _ Hnb).
      split; [unfold standing; cbn; lia|].
      right. right. cbn. rewrite app_nil_r. auto.
    + rewrite Hsb. split.
      * unfold standing. cbn.
        destruct Hfb as (Hn & Hh & _).
        apply andb_true_iff in Hh. destruct Hh as [Ha _].
        pose proof (switch_off_base _ _ _ Hn Ha). lia.
      * right. left. split; [exact Hnc|]. exists j, b. cbn. auto.
  - (* a city: then no launcher *)
    rewrite Hsc.
    assert (Hnb : forall b, In b (Game.bases g) -> Game.hits_base mx b = false).
    { intros b Hin. unfold Game.hits_base.
      destruct (MissileBase.active b); [|reflexivity]. cbn [andb].
      destruct (Game.near (MissileBase.x b) mx) eqn:Hnb; [|reflexivity].
      exfalso. destruct Hfc as (Hn & Hh & _).
      apply andb_true_iff in Hh. destruct Hh as [_ Hnc].
      apply (near_city_not_base g mx c b Hlay); try assumption.
      eapply nth_error_In, Hn. }
    rewrite (strike_first_no_hit _ _ _ _ Hnb). split.
    + unfold standing. cbn.
      destruct Hfc as (Hn & Hh & _).
      apply andb_true_iff in Hh. destruct Hh as [Ha _].
      pose proof (switch_off_city _ _ _ Hn Ha). lia.
    + left. exists i, c. cbn. auto.
Qed.

(** ** What holds between any two iterations of the main loop *)

Lemma strike_first_map {A B : Type} (f : A -> B) (hit : A -> bool)
      (off : A -> A) (boom : A -> Explosion.t) (l : list A) :
  (forall a, f (off a) = f a) ->
  map f (fst (Game.strike_first hit off boom l)) = map f l.
Proof.
  intros Hf. induction l as [|a l IH]; [reflexivity|].
  cbn [Game.strike_first]. destruct (hit a).
  - cbn [fst map]. rewrite Hf. reflexivity.
  - destruct (Game.strike_first hit off boom l) as [l' e].
    cbn [fst map] in *. rewrite IH. reflexivity.
Qed.

Lemma list_set_map {A B : Type} (f : A -> B) (l : list A) :
  forall i a v, nth_error l i = Some a -> f v = f a ->
           map f (list_set i v l) = map f l.
Proof.
  induction l as [|x l IH]; intros [|i] a v Hn Hf; try discriminate.
  - cbn in Hn. injection Hn as ->. cbn [list_set map]. rewrite Hf.
    reflexivity.
  - cbn [list_set map nth_error] in *. rewrite (IH i a v Hn Hf). reflexivity.
Qed.

Lemma list_set_Forall {A : Type} (P : A -> Prop) (l : list A) :
  forall i v, Forall P l -> P v -> Forall P (list_set i v l).
Proof.
  induction l as [|x l IH]; intros [|i] v Hl Hv; cbn [list_set];
    try exact Hl; inversion Hl; subst; constructor; auto.
Qed.

Lemma same_sites_refl (g : Game.t) : same_sites g g.
Proof. unfold same_sites. tauto. Qed.

Lemma same_sites_trans (g1 g2 g3 : Game.t) :
  same_sites g1 g2 -> same_sites g2 g3 -> same_sites g1 g3.
Proof. unfold same_sites. intuition congruence. Qed.

Lemma tick_flash_sites (g : Game.t) : same_sites g (Game.tick_flash g).
Proof.
  unfold Game.tick_flash. destruct (0 <? _); sites_by_cases.
Qed.

Lemma tick_spawn_sites (d : Draws) (g : Game.t) :
  same_sites g (Game.tick_spawn d g).
Proof.
  unfold Game.tick_spawn, Game.spawn_enemy_missile. cbv zeta.
  destruct (_ && _); [|sites_by_cases].
  destruct (choice _ _) as [[tx ty]|]; sites_by_cases.
Qed.

Lemma player_step_sites (g : Game.t) (m : Missile.t) :
  same_sites g (Game.player_step g m).
Proof.
  unfold Game.player_step. cbv zeta.
  destruct (Missile.has_reached_target _); [sites_by_cases|].
  destruct (Game.off_screen _); sites_by_cases.
Qed.

Lemma ground_impact_sites (mx : Py.num) (g : Game.t) :
  same_sites g (Game.ground_impact mx g).
Proof.
  unfold Game.ground_impact, Game.strike_cities, Game.strike_bases.
  pose proof (strike_first_map City.x (Game.hits_city mx)
                (City.set_active false)
                (fun c => Explosion.init (City.x c) (City.y c))
                (Game.cities g) (fun a => eq_refl)) as H1.
  pose proof (strike_first_map MissileBase.x (Game.hits_base mx)
                (MissileBase.set_active false)
                (fun b => Explosion.init (MissileBase.x b) (MissileBase.y b))
                (Game.bases g) (fun a => eq_refl)) as H2.
  pose proof (strike_first_map MissileBase.ammo (Game.hits_base mx)
                (MissileBase.set_active false)
                (fun b => Explosion.init (MissileBase.x b) (MissileBase.y b))
                (Game.bases g) (fun a => eq_refl)) as H3.
  destruct (Game.strike_first (Game.hits_city mx) _ _ _) as [cs e1].
  destruct (Game.strike_first (Game.hits_base mx) _ _ _) as [bs e2].
  unfold same_sites. cbn [fst] in *. repeat split; assumption.
Qed.

Lemma enemy_step_sites (g : Game.t) (m : Missile.t) :
  same_sites g (Game.enemy_step g m).
Proof.
  unfold Game.enemy_step. cbv zeta.
  destruct (Game.blasted _ _); [sites_by_cases|].
  destruct (_ >=? _)%py; [apply ground_impact_sites | sites_by_cases].
Qed.

Lemma fold_sites {B : Type} (f : Game.t -> B -> Game.t) (l : list B) :
  (forall g b, same_sites g (f g b)) ->
  forall g, same_sites g (fold_left f l g).
Proof.
  intros Hf g.
  apply (fold_left_inv (fun g' => same_sites g g')).
  - intros a b Ha. eapply same_sites_trans; [exact Ha | apply Hf].
  - apply same_sites_refl.
Qed.

Lemma resolve_sites (d : Draws) (g : Game.t) :
  same_sites g (Game.resolve d g).
Proof.
  unfold Game.resolve.
  set (g1 := Game.tick_spawn d (Game.tick_flash g)).
  set (g2 := Game.update_player_missiles g1).
  set (g3 := Game.update_enemy_missiles g2).
  assert (H1 : same_sites g g1).
  { eapply same_sites_trans; [apply tick_flash_sites | apply tick_spawn_sites]. }
  assert (H2 : same_sites g1 g2).
  { unfold g2, Game.update_player_missiles.
    apply (same_sites_trans _ (Game.set_player_missiles [] g1));
      [sites_by_cases|].
    apply fold_sites, player_step_sites. }
  assert (H3 : same_sites g2 g3).
  { unfold g3, Game.update_enemy_missiles.
    apply (same_sites_trans _ (Game.set_enemy_missiles [] g2));
      [sites_by_cases|].
    apply fold_sites, enemy_step_sites. }
  assert (H4 : same_sites g3 (Game.update_explosions g3)) by sites_by_cases.
  eauto using same_sites_trans.
Qed.

Lemma recolor_x (rgb : nat -> Z * Z * Z) (cs : list City.t) :
  forall i, map City.x (Game.recolor_from i rgb cs) = map City.x cs.
Proof.
  induction cs as [|c cs IH]; intros i; [reflexivity|].
  cbn [Game.recolor_from map]. rewrite IH.
  destruct (City.active c); reflexivity.
Qed.

Lemma refill_x (a : Z) (bs : list MissileBase.t) :
  map MissileBase.x (map (Game.refill a) bs) = map MissileBase.x bs.
Proof. rewrite map_map. reflexivity. Qed.

Lemma layout_three_bases (g : Game.t) :
  standard_layout g -> length (Game.bases g) = 3%nat.
Proof.
  intros [_ H]. rewrite <- (length_map MissileBase.x), H. reflexivity.
Qed.

Lemma ammo_in_range_map (g : Game.t) :
  ammo_in_range g <->
  Forall (fun a => 0 <= a <= Game.starting_ammo g)
         (map MissileBase.ammo (Game.bases g)).
Proof. unfold ammo_in_range. rewrite Forall_map. reflexivity. Qed.

Lemma next_level_cities (d : Draws) (s : Game.t) :
  Game.cities (Game.next_level d s)
  = Game.recolor_from 0 (city_rgb d) (Game.cities s).
Proof. reflexivity. Qed.

Lemma next_level_bases (d : Draws) (s : Game.t) :
  Game.bases (Game.next_level d s)
  = map (Game.refill (Game.starting_ammo s)) (Game.bases s).
Proof. reflexivity. Qed.

Lemma next_level_quota (d : Draws) (s : Game.t) :
  Game.missiles_per_level (Game.next_level d s)
  = Game.total_ammo (map (Game.refill (Game.starting_ammo s)) (Game.bases s)).
Proof. reflexivity. Qed.

Lemma next_level_rate (d : Draws) (s : Game.t) :
  Game.enemy_spawn_rate (Game.next_level d s)
  = Z.max 30 (Game.enemy_spawn_rate s - 5).
Proof. reflexivity. Qed.

Lemma next_level_starting_ammo (d : Draws) (s : Game.t) :
  Game.starting_ammo (Game.next_level d s) = Game.starting_ammo s.
Proof. reflexivity. Qed.

Lemma sound_next_level (d : Draws) (s : Game.t) :
  sound s -> Game.game_over s = false -> sound (Game.next_level d s).
Proof.
  intros (Hlay & Hover & Hsa & Hq & Hammo & Hrate & Hlev) Hplay.
  pose proof (layout_three_bases s Hlay) as H3.
  destruct Hlay as [Hcs Hbs].
  unfold sound, standard_layout, over_means_lost, ammo_in_range.
  rewrite next_level_cities, next_level_bases, next_level_game_over,
    next_level_starting_ammo, next_level_quota, next_level_rate,
    next_level_level.
  rewrite recolor_x, refill_x, total_ammo_refilled, H3, Hsa.
  split; [split; assumption|].
  split; [rewrite Hplay; discriminate|].
  split; [reflexivity|]. split; [reflexivity|].
  split; [|lia].
  apply Forall_forall. intros b Hb.
  pose proof (refilled_bases 10 (Game.bases s)) as Hr.
  rewrite Forall_forall in Hr. destruct (Hr b Hb) as [_ Ha]. lia.
Qed.

Lemma sound_update (d : Draws) (g : Game.t) :
  sound g -> sound (Game.update d g).
Proof.
  intros Hs. unfold Game.update.
  destruct (Game.game_over g) eqn:Hplay; [exact Hs|].
  destruct Hs as (Hlay & Hover & Hsa & Hq & Hammo & Hrate & Hlev).
  destruct (resolve_control d g)
    as (_ & Hgo & Hl & Hr & Hsa' & Hq' & _).
  destruct (resolve_sites d g) as (Hcx & Hbx & Hba).
  set (r := Game.resolve d g) in *.
  assert (Hr_sound : sound r /\ Game.game_over r = false).
  { split; [|congruence].
    unfold sound, standard_layout, over_means_lost.
    rewrite Hcx, Hbx, Hl, Hr, Hsa', Hq', Hgo, Hplay.
    destruct Hlay as [Hc Hb].
    repeat split; try assumption; try lia; try discriminate.
    apply ammo_in_range_map. rewrite Hba, Hsa'.
    apply ammo_in_range_map. exact Hammo. }
  destruct Hr_sound as [Hrs Hrp].
  unfold Game.check_game_over.
  destruct (Game.all_cities_destroyed r) eqn:Hall.
  - assert (Hc : Game.level_complete (Game.set_game_over true r) = false).
    { unfold Game.level_complete. rewrite any_alive_not_all_destroyed.
      change (Game.all_cities_destroyed (Game.set_game_over true r))
        with (Game.all_cities_destroyed r).
      rewrite Hall. apply andb_false_r. }
    unfold Game.check_level. rewrite Hc.
    destruct Hrs as (Hlay' & _ & Hrest).
    split; [exact Hlay'|]. split; [|exact Hrest].
    intros _. exact Hall.
  - unfold Game.check_level.
    destruct (Game.level_complete r); [|exact Hrs].
    apply sound_next_level; assumption.
Qed.

(** *** Events *)

Lemma fire_from_sound (i : nat) (mouse : Z * Z) (g : Game.t) :
  sound g -> Game.game_over g = false ->
  (i < 3)%nat ->
  exists g', Game.fire_from i mouse g = Some g'
             /\ sound g' /\ Game.game_over g' = false.
Proof.
  intros (Hlay & Hover & Hsa & Hq & Hammo & Hrate & Hlev) Hplay Hi.
  pose proof (layout_three_bases g Hlay) as H3.
  unfold Game.fire_from.
  destruct (nth_error (Game.bases g) i) as [b|] eqn:Hn;
    [|apply nth_error_None in Hn; lia].
  assert (Hb : 0 <= MissileBase.ammo b <= Game.starting_ammo g).
  { unfold ammo_in_range in Hammo. rewrite Forall_forall in Hammo.
    apply Hammo. eapply nth_error_In, Hn. }
  set (bs := list_set i (fst (MissileBase.fire b (fst mouse) (snd mouse)))
                      (Game.bases g)).
  assert (Hx : map MissileBase.x bs = map MissileBase.x (Game.bases g)).
  { apply (list_set_map MissileBase.x _ i b); [exact Hn|].
    unfold MissileBase.fire. destruct (_ && _); reflexivity. }
  assert (Ha : Forall (fun b => 0 <= MissileBase.ammo b
                                <= Game.starting_ammo g) bs).
  { apply list_set_Forall; [exact Hammo|].
    unfold MissileBase.fire.
    destruct (MissileBase.active b); cbn [andb]; [|exact Hb].
    destruct (0 <? MissileBase.ammo b) eqn:Hpos; [|exact Hb].
    apply Z.ltb_lt in Hpos. cbn. lia. }
  assert (Hsound : forall g',
             Game.bases g' = bs -> Game.cities g' = Game.cities g ->
             Game.game_over g' = false ->
             Game.starting_ammo g' = Game.starting_ammo g ->
             Game.missiles_per_level g' = Game.missiles_per_level g ->
             Game.enemy_spawn_rate g' = Game.enemy_spawn_rate g ->
             Game.level g' = Game.level g ->
             sound g').
  { intros g' E1 E2 E3 E4 E5 E6 E7.
    unfold sound, standard_layout, over_means_lost, ammo_in_range.
    rewrite E1, E2, E3, E4, E5, E6, E7, Hx.
    destruct Hlay as [Hc Hbx].
    repeat split; try assumption; try lia; discriminate. }
  fold bs.
  destruct (MissileBase.fire b (fst mouse) (snd mouse)) as [b' missile] eqn:Hf.
  cbn [fst] in bs.
  destruct missile as [ms|]; eexists; split; try reflexivity;
    (split; [apply Hsound; reflexivity || exact Hplay | exact Hplay]).
Qed.

Lemma restart_fields (g : Game.t) :
  Game.cities (Game.restart g) = Game.fresh_cities
  /\ Game.bases (Game.restart g) = Game.fresh_bases (Game.starting_ammo g)
  /\ Game.game_over (Game.restart g) = false
  /\ Game.score (Game.restart g) = 0
  /\ Game.level (Game.restart g) = 1
  /\ Game.player_missiles (Game.restart g) = []
  /\ Game.enemy_missiles (Game.restart g) = []
  /\ Game.explosions (Game.restart g) = []
  /\ Game.starting_ammo (Game.restart g) = Game.starting_ammo g
  /\ Game.missiles_per_level (Game.restart g) = Game.missiles_per_level g
  /\ Game.enemy_spawn_rate (Game.restart g) = Game.enemy_spawn_rate g
  /\ Game.enemy_spawn_timer (Game.restart g) = Game.enemy_spawn_timer g
  /\ Game.missiles_spawned_this_level (Game.restart g)
     = Game.missiles_spawned_this_level g
  /\ Game.flash_timer (Game.restart g) = Game.flash_timer g
  /\ Game.running (Game.restart g) = Game.running g.
Proof. destruct g. repeat split. Qed.

Lemma sound_restart (g : Game.t) :
  sound g -> sound (Game.restart g) /\ Game.game_over (Game.restart g) = false.
Proof.
  intros (Hlay & Hover & Hsa & Hq & Hammo & Hrate & Hlev).
  destruct (restart_fields g)
    as (Ec & Eb & Eo & _ & El & _ & _ & _ & Ea & Eq & Er & _).
  split; [|exact Eo].
  unfold sound, standard_layout, over_means_lost, ammo_in_range.
  rewrite Ec, Eb, Eo, El, Ea, Eq, Er, Hsa.
  split; [split; reflexivity|].
  split; [discriminate|].
  split; [reflexivity|]. split; [exact Hq|].
  split; [|lia].
  repeat constructor; cbn; lia.
Qed.

Lemma sound_handle_event (mouse : Z * Z) (ev : Event) (g : Game.t) :
  sound g ->
  exists g', Game.handle_event mouse ev g = Some g' /\ sound g'.
Proof.
  intros Hs. destruct ev as [|button|key|]; cbn [Game.handle_event].
  - exists (Game.set_running false g). split; [reflexivity | exact Hs].
  - destruct (Game.game_over g) eqn:Hplay; cbn [negb];
      [exists g; auto|].
    destruct (button =? 1);
      [destruct (fire_from_sound 0 mouse g Hs Hplay) as [g' [? [? _]]];
       [lia | exists g'; auto]|].
    destruct (button =? 2);
      [destruct (fire_from_sound 1 mouse g Hs Hplay) as [g' [? [? _]]];
       [lia | exists g'; auto]|].
    destruct (button =? 3);
      [destruct (fire_from_sound 2 mouse g Hs Hplay) as [g' [? [? _]]];
       [lia | exists g'; auto]|].
    exists g; auto.
  - destruct key; [|exists g; auto].
    destruct (Game.game_over g); [|exists g; auto].
    exists (Game.restart g). split; [reflexivity | apply sound_restart, Hs].
  - exists g; auto.
Qed.

Lemma sound_handle_events (mouse : Z * Z) (evs : list Event) :
  forall g, sound g ->
       exists g', Game.handle_events mouse evs g = Some g' /\ sound g'.
Proof.
  induction evs as [|ev evs IH]; intros g Hs; cbn [Game.handle_events].
  - exists g; auto.
  - destruct (sound_handle_event mouse ev g Hs) as [g1 [E1 Hs1]].
    rewrite E1. apply IH, Hs1.
Qed.

Lemma sound_init : sound Game.init.
Proof.
  unfold sound, standard_layout, over_means_lost, ammo_in_range.
  repeat split; try reflexivity; try (cbn; lia); try discriminate.
  repeat constructor; cbn; lia.
Qed.

(** One iteration of the main loop never raises, and keeps the
    invariant. *)
Lemma sound_frame (f : Frame) (g : Game.t) :
  sound g -> exists g', frame f g = Some g' /\ sound g'.
Proof.
  intros Hs. unfold frame.
  destruct (sound_handle_events (mouse_pos f) (events f) g Hs)
    as [g1 [E1 Hs1]].
  rewrite E1. eexists. split; [reflexivity | apply sound_update, Hs1].
Qed.

Lemma sound_run (fs : list Frame) :
  forall g, sound g -> exists g', run fs g = Some g' /\ sound g'.
Proof.
  induction fs as [|f fs IH]; intros g Hs; cbn [run].
  - exists g; auto.
  - destruct (Game.running g); [|exists g; auto].
    destruct (sound_frame f g Hs) as [g1 [E1 Hs1]]. rewrite E1.
    apply IH, Hs1.
Qed.

(** X2. Between any two iterations of the main loop: the cities and
    launchers are at the sites [setup_game] gave them, GAME_OVER means
    that every city is inactive, the starting ammo is 10, the quota is
    30, every launcher's ammo is between 0 and the starting ammo, the
    spawn interval is between 30 and 60, and the level is at least 1.
    The loop never raises on the way ([sound_run]). *)
Lemma reachable_sound (g : Game.t) : reachable g -> sound g.
Proof.
  intros [fs Hrun].
  destruct (sound_run fs Game.init sound_init) as [g' [E Hs]].
  rewrite E in Hrun. injection Hrun as <-. exact Hs.
Qed.

(** The layout is kept by every step of a tick, so the states the
    ground-impact theorem speaks of all have it. *)
Lemma layout_same_sites (g g' : Game.t) :
  standard_layout g -> same_sites g g' -> standard_layout g'.
Proof.
  intros [Hc Hb] (Hc' & Hb' & _). split; congruence.
Qed.

Lemma layout_during_enemy_pass (d : Draws) (g : Game.t)
      (seen : list Missile.t) :
  sound g ->
  standard_layout
    (fold_left Game.enemy_step seen
       (Game.set_enemy_missiles []
          (Game.update_player_missiles
             (Game.tick_spawn d (Game.tick_flash g))))).
Proof.
  intros (Hlay & _).
  set (g1 := Game.tick_spawn d (Game.tick_flash g)).
  set (g2 := Game.update_player_missiles g1).
  assert (H1 : same_sites g g1).
  { eapply same_sites_trans; [apply tick_flash_sites | apply tick_spawn_sites]. }
  assert (H2 : same_sites g1 g2).
  { unfold g2, Game.update_player_missiles.
    apply (same_sites_trans _ (Game.set_player_missiles [] g1));
      [sites_by_cases|].
    apply fold_sites, player_step_sites. }
  assert (H3 : same_sites g2 (Game.set_enemy_missiles [] g2))
    by sites_by_cases.
  assert (H4 : same_sites (Game.set_enemy_missiles [] g2)
                          (fold_left Game.enemy_step seen
                                     (Game.set_enemy_missiles [] g2)))
    by apply fold_sites, enemy_step_sites.
  eapply layout_same_sites; [exact Hlay|].
  eauto using same_sites_trans.
Qed.

(** ** Two recorded games *)

Lemma after_reachable (fs : list Frame) : reachable (after fs).
Proof.
  unfold after, reachable.
  destruct (sound_run fs Game.init sound_init) as [g [E _]].
  rewrite E. exists fs. exact E.
Qed.

(** ** The theorems at work *)

(** C1 on a fresh board: [low_threat] crosses the ground line at
    x = 196.26..., and of the nine cities and launchers eight are
    left. *)
Lemma ground_impact_one_victim_witness :
  Game.score (Game.enemy_step Game.init low_threat) = 0
  /\ standing (Game.enemy_step Game.init low_threat) = 8.
Proof.
  assert (H1 : standard_layout Game.init) by (split; reflexivity).
  assert (H2 : Game.blasted Game.init (Missile.update low_threat) = false)
    by reflexivity.
  assert (H3 : (Missile.y (Missile.update low_threat) >=? Game.GROUND_Y)%py
               = true) by (vm_compute; reflexivity).
  pose proof (ground_impact_one_victim Game.init low_threat H1 H2 H3) as H.
  cbv zeta in H. destruct H as (_ & Hs & _).
  split; [exact Hs | vm_compute; reflexivity].
Defined.

(** C3 in the idle game: tick 2289 is the one that completes level
    1. *)
Lemma level_complete_iff_witness :
  Game.level (Game.update idle_draws (after (repeat idle 2288)))
  = Game.level (after (repeat idle 2288)) + 1.
Proof.
  assert (H0 : over_means_lost (after (repeat idle 2288))).
  { intros H. exfalso. revert H. vm_compute. discriminate. }
  pose proof (level_complete_iff idle_draws _ H0) as H.
  cbv zeta in H. destruct H as (Hiff & _).
  apply Hiff. split; [vm_compute; reflexivity|].
  split; [vm_compute; discriminate|].
  apply existsb_exists. vm_compute. reflexivity.
Defined.

(** C4 in the drill: after 1980 ticks the last threat is about to be
    caught; tick 1981 catches it, which makes 30 threats at 25 points,
    and completes the level with six cities and three launchers. *)
Lemma level_up_rewards_witness :
  Game.score (Game.update drill_draws (after (drill 1980)))
  = 0 + 30 * 25 + 6 * 100 + 3 * 50
  /\ Game.level (Game.update drill_draws (after (drill 1980))) = 2
  /\ Game.missiles_per_level (Game.update drill_draws (after (drill 1980)))
     = 30.
Proof.
  assert (H0 : Game.game_over (after (drill 1980)) = false)
    by (vm_compute; reflexivity).
  assert (H1 : Game.level_complete
                 (Game.check_game_over
                    (Game.resolve drill_draws (after (drill 1980)))) = true)
    by (vm_compute; reflexivity).
  pose proof (level_up_rewards drill_draws _ H0 H1) as H.
  cbv zeta in H.
  destruct H as (_ & _ & _ & _ & _ & _ & _ & _ & _ & _ & H).
  apply (H 0); vm_compute; reflexivity.
Defined.

(** C5 in the idle game: tick 2855 takes the last city while nine
    threats are in flight and all three launchers stand. *)
Lemma game_over_when_all_cities_lost_witness :
  Game.game_over (after (repeat idle 2854)) = false
  /\ length (Game.enemy_missiles
               (Game.update idle_draws (after (repeat idle 2854)))) = 9%nat
  /\ map MissileBase.active
         (Game.bases (Game.update idle_draws (after (repeat idle 2854))))
     = [true; true; true]
  /\ Game.game_over (Game.update idle_draws (after (repeat idle 2854)))
     = true.
Proof.
  assert (H0 : Game.game_over (after (repeat idle 2854)) = false)
    by (vm_compute; reflexivity).
  pose proof (game_over_when_all_cities_lost idle_draws _ H0) as H.
  destruct H as (_ & H & _).
  split; [exact H0|].
  split; [vm_compute; reflexivity|].
  split; [vm_compute; reflexivity|].
  apply H. vm_compute. reflexivity.
Defined.


(** C10 in the idle game: once over, nothing moves. *)
Lemma update_frozen_when_over_witness :
  Game.update idle_draws (after (repeat idle 2855))
  = after (repeat idle 2855).
Proof.
  assert (H0 : Game.game_over (after (repeat idle 2855)) = true)
    by (vm_compute; reflexivity).
  exact (proj1 (update_frozen_when_over _ H0) idle_draws).
Defined.

(** ** Restart *)

(** X1. From GAME_OVER the restart key never raises and gives a state
    in PLAYING with score 0, level 1, the six cities and three
    launchers as [setup_game] makes them (all active, launchers at
    starting ammo) and no interceptor, threat or blast. *)
Lemma restart_resets_entities (g : Game.t) (mouse : Z * Z) :
  Game.game_over g = true ->
  Game.handle_events mouse [KEYDOWN K_SPACE] g = Some (Game.restart g)
  /\ Game.game_over (Game.restart g) = false
  /\ Game.score (Game.restart g) = 0
  /\ Game.level (Game.restart g) = 1
  /\ Game.cities (Game.restart g) = Game.fresh_cities
  /\ Game.bases (Game.restart g) = Game.fresh_bases (Game.starting_ammo g)
  /\ Game.player_missiles (Game.restart g) = []
  /\ Game.enemy_missiles (Game.restart g) = []
  /\ Game.explosions (Game.restart g) = [].
Proof.
  intros Hover.
  destruct (restart_fields g)
    as (Ec & Eb & Eo & Es & El & Ep & Ee & Ex & _).
  split; [cbn [Game.handle_events Game.handle_event]; rewrite Hover;
          reflexivity|].
  repeat split; assumption.
Qed.

Lemma restart_resets_entities_witness :
  Game.score (Game.restart (after (repeat idle 2855))) = 0
  /\ Game.level (Game.restart (after (repeat idle 2855))) = 1
  /\ Game.cities (Game.restart (after (repeat idle 2855)))
     = Game.fresh_cities.
Proof.
  assert (H0 : Game.game_over (after (repeat idle 2855)) = true)
    by (vm_compute; reflexivity).
  pose proof (restart_resets_entities _ (0, 0) H0) as H.
  destruct H as (_ & _ & Hs & Hl & Hc & _).
  split; [exact Hs|]. split; [exact Hl | exact Hc].
Defined.

(** C2, on the code as it is.  The idle game is lost at tick 2855, on
    level 2.  Restarting from there gives score 0, level 1 and a fresh
    board, but the spawn interval stays at level 2's 55 (a fresh game
    has 60), the spawn timer at 16 (fresh: 0) and the
    spawned-this-level count at 10 (fresh: 0): the restart branch
    never writes to the spawn-pacing fields. *)
Lemma restart_keeps_spawn_pacing :
  reachable (after (repeat idle 2855))
  /\ Game.game_over (after (repeat idle 2855)) = true
  /\ Game.handle_events (0, 0) [KEYDOWN K_SPACE] (after (repeat idle 2855))
     = Some (Game.restart (after (repeat idle 2855)))
  /\ Game.score (Game.restart (after (repeat idle 2855))) = 0
  /\ Game.level (Game.restart (after (repeat idle 2855))) = 1
  /\ Game.enemy_spawn_rate (Game.restart (after (repeat idle 2855))) = 55
  /\ Game.enemy_spawn_rate Game.init = 60
  /\ Game.enemy_spawn_timer (Game.restart (after (repeat idle 2855))) = 16
  /\ Game.enemy_spawn_timer Game.init = 0
  /\ Game.missiles_spawned_this_level
       (Game.restart (after (repeat idle 2855))) = 10
  /\ Game.missiles_spawned_this_level Game.init = 0.
Proof.
  assert (H0 : Game.game_over (after (repeat idle 2855)) = true)
    by (vm_compute; reflexivity).
  split; [apply after_reachable|]. split; [exact H0|].
  split; [cbn [Game.handle_events Game.handle_event]; rewrite H0;
          reflexivity|].
  repeat split; vm_compute; reflexivity.
Qed.

(** ** Kinematics *)

(** X4. A missile fired at its own position gets the zero velocity,
    the integers [(0, 0)], whatever its speed. *)
Lemma velocity_zero_at_target (sx sy : Z) (spd : Py.num) :
  Missile.velocity sx sy sx sy spd = (Py.Int 0, Py.Int 0).
Proof.
  unfold Missile.velocity. rewrite !Z.sub_diag.
  change (0 * 0 + 0 * 0) with 0.
  replace (Py.sqrt (Py.Int 0) >? 0)%py with false
    by (vm_compute; reflexivity).
  reflexivity.
Qed.

(** ** Every blast on the board was made by the constructor *)

Lemma made_init (px py : Z) : made (Explosion.init px py).
Proof. exists 0%nat, px, py. reflexivity. Qed.

Lemma made_update (e : Explosion.t) :
  made e -> made (fst (Explosion.update e)).
Proof.
  intros (n & px & py & ->). exists (S n), px, py. reflexivity.
Qed.

Lemma strike_first_boom {A : Type} (hit : A -> bool) (off : A -> A)
      (boom : A -> Explosion.t) (l : list A) :
  (forall a, made (boom a)) ->
  Forall made (opt_list (snd (Game.strike_first hit off boom l))).
Proof.
  intros Hb. induction l as [|a l IH]; [constructor|].
  cbn [Game.strike_first]. destruct (hit a).
  - cbn. constructor; [apply Hb | constructor].
  - destruct (Game.strike_first hit off boom l) as [l' e]. exact IH.
Qed.

Lemma blasts_made_player_step (g : Game.t) (m : Missile.t) :
  blasts_made g -> blasts_made (Game.player_step g m).
Proof.
  unfold blasts_made, Game.player_step. cbv zeta. intros H.
  destruct (Missile.has_reached_target _).
  - cbn. apply Forall_app. split; [exact H|].
    constructor; [apply made_init | constructor].
  - destruct (Game.off_screen _); exact H.
Qed.

Lemma blasts_made_ground_impact (mx : Py.num) (g : Game.t) :
  blasts_made g -> blasts_made (Game.ground_impact mx g).
Proof.
  unfold blasts_made, Game.ground_impact, Game.strike_cities,
    Game.strike_bases.
  intros H.
  pose proof (strike_first_boom (Game.hits_city mx) (City.set_active false)
                (fun c => Explosion.init (City.x c) (City.y c))
                (Game.cities g) (fun c => made_init _ _)) as H1.
  pose proof (strike_first_boom (Game.hits_base mx)
                (MissileBase.set_active false)
                (fun b => Explosion.init (MissileBase.x b) (MissileBase.y b))
                (Game.bases g) (fun b => made_init _ _)) as H2.
  destruct (Game.strike_first (Game.hits_city mx) _ _ _) as [cs e1].
  destruct (Game.strike_first (Game.hits_base mx) _ _ _) as [bs e2].
  cbn [snd] in *. cbn.
  apply Forall_app. split; [exact H|].
  apply Forall_app. split; assumption.
Qed.

Lemma blasts_made_enemy_step (g : Game.t) (m : Missile.t) :
  blasts_made g -> blasts_made (Game.enemy_step g m).
Proof.
  unfold Game.enemy_step. cbv zeta. intros H.
  destruct (Game.blasted _ _); [exact H|].
  destruct (_ >=? _)%py; [apply blasts_made_ground_impact, H | exact H].
Qed.

Lemma blasts_made_update_explosions (g : Game.t) :
  blasts_made g -> blasts_made (Game.update_explosions g).
Proof.
  unfold blasts_made. rewrite !Forall_forall. intros H e' He'.
  apply update_explosions_keeps in He'.
  destruct He' as [e [Hin [-> _]]]. apply made_update, H, Hin.
Qed.

Lemma blasts_made_resolve (d : Draws) (g : Game.t) :
  blasts_made g -> blasts_made (Game.resolve d g).
Proof.
  intros H. unfold Game.resolve.
  apply blasts_made_update_explosions.
  unfold Game.update_enemy_missiles.
  apply fold_left_inv; [intros a b; apply blasts_made_enemy_step|].
  change (blasts_made (Game.update_player_missiles
                         (Game.tick_spawn d (Game.tick_flash g)))).
  unfold Game.update_player_missiles.
  apply fold_left_inv; [intros a b; apply blasts_made_player_step|].
  change (blasts_made (Game.tick_spawn d (Game.tick_flash g))).
  unfold blasts_made, Game.tick_spawn, Game.spawn_enemy_missile,
    Game.tick_flash. cbv zeta.
  destruct (0 <? Game.flash_timer g); destruct (_ && _);
    try destruct (choice _ _) as [[tx ty]|]; exact H.
Qed.

Lemma blasts_made_update (d : Draws) (g : Game.t) :
  blasts_made g -> blasts_made (Game.update d g).
Proof.
  intros H. unfold Game.update.
  destruct (Game.game_over g); [exact H|].
  pose proof (blasts_made_resolve d g H) as Hr.
  unfold Game.check_level, Game.check_game_over.
  destruct (Game.all_cities_destroyed _);
    destruct (Game.level_complete _); exact Hr.
Qed.

Lemma blasts_made_handle_event (mouse : Z * Z) (ev : Event) (g g' : Game.t) :
  blasts_made g -> Game.handle_event mouse ev g = Some g' -> blasts_made g'.
Proof.
  intros H. destruct ev as [|button|key|]; cbn [Game.handle_event].
  - intros E. injection E as <-. exact H.
  - assert (Hf : forall i, Game.fire_from i mouse g = Some g' ->
                      blasts_made g').
    { intros i. unfold Game.fire_from.
      destruct (nth_error _ _) as [b|]; [|discriminate].
      destruct (MissileBase.fire _ _ _) as [b' [ms|]];
        intros E; injection E as <-; exact H. }
    destruct (negb _); [|intros E; injection E as <-; exact H].
    destruct (_ =? 1); [apply Hf|].
    destruct (_ =? 2); [apply Hf|].
    destruct (_ =? 3); [apply Hf|].
    intros E; injection E as <-; exact H.
  - destruct key; [|intros E; injection E as <-; exact H].
    destruct (Game.game_over g); intros E; injection E as <-;
      [|exact H].
    unfold blasts_made.
    destruct (restart_fields g) as (_ & _ & _ & _ & _ & _ & _ & -> & _).
    constructor.
  - intros E. injection E as <-. exact H.
Qed.

Lemma blasts_made_run (fs : list Frame) :
  forall g g', blasts_made g -> run fs g = Some g' -> blasts_made g'.
Proof.
  induction fs as [|f fs IH]; intros g g' H; cbn [run].
  - intros E. injection E as <-. exact H.
  - destruct (Game.running g); [|intros E; injection E as <-; exact H].
    unfold frame.
    destruct (Game.handle_events (mouse_pos f) (events f) g) as [g1|] eqn:E1;
      [|discriminate].
    apply IH. apply blasts_made_update.
    clear IH. revert g H E1.
    induction (events f) as [|ev evs IHe]; intros g H; cbn [Game.handle_events].
    + intros E. injection E as <-. exact H.
    + destruct (Game.handle_event (mouse_pos f) ev g) as [g2|] eqn:E2;
        [|discriminate].
      apply IHe. eapply blasts_made_handle_event; eassumption.
Qed.

(** X3. Every blast of a reachable state is some ticks into the life
    the constructor started: its radius is [min (2 n) 60], within the
    maximum, and its timer is [45 - n]. *)
Lemma reachable_blasts (g : Game.t) :
  reachable g ->
  Forall (fun e => exists n : nat,
              Explosion.radius e = Z.min (2 * Z.of_nat n) EXPLOSION_MAX_RADIUS
              /\ 0 <= Explosion.radius e <= Explosion.max_radius e
              /\ Explosion.max_radius e = EXPLOSION_MAX_RADIUS
              /\ Explosion.timer e = EXPLOSION_DURATION - Z.of_nat n)
         (Game.explosions g).
Proof.
  intros [fs Hrun].
  assert (H : blasts_made g).
  { apply (blasts_made_run fs Game.init g); [constructor | exact Hrun]. }
  unfold blasts_made in H. rewrite Forall_forall in *.
  intros e He. destruct (H e He) as (n & px & py & ->).
  exists n. rewrite life_closed_form.
  cbn [Explosion.radius Explosion.max_radius Explosion.timer].
  unfold EXPLOSION_MAX_RADIUS. repeat split; lia.
Qed.

Lemma reachable_blasts_witness :
  Forall (fun e => exists n : nat,
              Explosion.radius e = Z.min (2 * Z.of_nat n) EXPLOSION_MAX_RADIUS
              /\ 0 <= Explosion.radius e <= Explosion.max_radius e
              /\ Explosion.max_radius e = EXPLOSION_MAX_RADIUS
              /\ Explosion.timer e = EXPLOSION_DURATION - Z.of_nat n)
         (Game.explosions (after (drill 240))).
Proof. exact (reachable_blasts _ (after_reachable (drill 240))). Defined.

(** The invariant in a reachable state. *)
Lemma reachable_sound_witness : sound (after (repeat idle 2855)).
Proof. exact (reachable_sound _ (after_reachable (repeat idle 2855))). Defined.

(** ** The spawn throttle *)

Lemma randint_range (lo hi u : Z) :
  lo <= hi -> lo <= randint lo hi u <= hi.
Proof.
  intros H. unfold randint.
  pose proof (Z.mod_pos_bound u (hi - lo + 1)). lia.
Qed.

Lemma choice_in {A : Type} (u : Z) (l : list A) (a : A) :
  choice u l = Some a -> In a l.
Proof. unfold choice. apply nth_error_In. Qed.

Lemma choice_some {A : Type} (u : Z) (l : list A) :
  l <> [] -> exists a, choice u l = Some a.
Proof.
  intros Hl. unfold choice.
  destruct (nth_error l _) as [a|] eqn:E; [exists a; reflexivity|].
  apply nth_error_None in E.
  assert (0 < Z.of_nat (length l)) by (destruct l; [congruence | cbn; lia]).
  pose proof (Z.mod_pos_bound u (Z.of_nat (length l))). lia.
Qed.

Lemma possible_targets_active (g : Game.t) (tx ty : Z) :
  In (tx, ty) (Game.possible_targets g) <->
  (exists c, In c (Game.cities g) /\ City.active c = true
             /\ (tx, ty) = (City.x c, City.y c))
  \/ (exists b, In b (Game.bases g) /\ MissileBase.active b = true
                /\ (tx, ty) = (MissileBase.x b, MissileBase.y b)).
Proof.
  unfold Game.possible_targets. rewrite in_app_iff, !in_map_iff.
  split.
  - intros [[c [E Hc]]|[b [E Hb]]]; apply filter_In in Hc || apply filter_In in Hb.
    + left. exists c. destruct Hc. auto.
    + right. exists b. destruct Hb. auto.
  - intros [[c (Hc & Ha & E)]|[b (Hb & Ha & E)]].
    + left. exists c. split; [auto | apply filter_In; auto].
    + right. exists b. split; [auto | apply filter_In; auto].
Qed.

(** X5. One tick of the spawn throttle adds at most one threat.  It
    adds one exactly when the timer, counted up by this tick, has
    reached the spawn interval, fewer threats than the quota have been
    spawned this level, and some city or launcher is active; the new
    threat is aimed at one of the active cities or launchers, starts
    at y = 0 with 50 <= x <= 750, and the spawned count goes up by
    one.  With the first two conditions but nothing active no threat
    is made and nothing is counted, yet the timer is reset.  In every
    other case the timer has just gone up by one. *)
Theorem tick_spawn_cases (d : Draws) (g : Game.t) :
  let g' := Game.tick_spawn d g in
  let due := Game.enemy_spawn_rate g <= Game.enemy_spawn_timer g + 1
             /\ Game.missiles_spawned_this_level g
                < Game.missiles_per_level g in
  (due /\ Game.possible_targets g <> [] ->
   exists m, fresh_threat g m
             /\ Game.enemy_missiles g' = Game.enemy_missiles g ++ [m]
             /\ Game.missiles_spawned_this_level g'
                = Game.missiles_spawned_this_level g + 1
             /\ Game.enemy_spawn_timer g' = 0)
  /\ (due /\ Game.possible_targets g = [] ->
      Game.enemy_missiles g' = Game.enemy_missiles g
      /\ Game.missiles_spawned_this_level g'
         = Game.missiles_spawned_this_level g
      /\ Game.enemy_spawn_timer g' = 0)
  /\ (~ due ->
      Game.enemy_missiles g' = Game.enemy_missiles g
      /\ Game.missiles_spawned_this_level g'
         = Game.missiles_spawned_this_level g
      /\ Game.enemy_spawn_timer g' = Game.enemy_spawn_timer g + 1).
Proof.
  intros g' due.
  assert (Hdue : (Game.enemy_spawn_timer g + 1 >=? Game.enemy_spawn_rate g)
                 && (Game.missiles_spawned_this_level g
                     <? Game.missiles_per_level g) = true <-> due).
  { unfold due. rewrite andb_true_iff, Z.geb_leb, Z.leb_le, Z.ltb_lt.
    reflexivity. }
  unfold g', Game.tick_spawn. cbv zeta.
  change (Game.enemy_spawn_timer
            (Game.set_enemy_spawn_timer (Game.enemy_spawn_timer g + 1) g))
    with (Game.enemy_spawn_timer g + 1).
  change (Game.enemy_spawn_rate
            (Game.set_enemy_spawn_timer (Game.enemy_spawn_timer g + 1) g))
    with (Game.enemy_spawn_rate g).
  change (Game.missiles_spawned_this_level
            (Game.set_enemy_spawn_timer (Game.enemy_spawn_timer g + 1) g))
    with (Game.missiles_spawned_this_level g).
  change (Game.missiles_per_level
            (Game.set_enemy_spawn_timer (Game.enemy_spawn_timer g + 1) g))
    with (Game.missiles_per_level g).
  destruct (_ && _) eqn:Hc.
  - assert (Hd : due) by (apply Hdue; reflexivity).
    unfold Game.spawn_enemy_missile.
    change (Game.possible_targets
              (Game.set_enemy_spawn_timer (Game.enemy_spawn_timer g + 1) g))
      with (Game.possible_targets g).
    split; [|split].
    + intros [_ Hne].
      destruct (choice_some (target_draw d) _ Hne) as [[tx ty] E].
      rewrite E.
      exists (EnemyMissile (randint 50 (SCREEN_WIDTH - 50) (start_x_draw d))
                           tx ty (Game.enemy_missile_color g)).
      split; [|split; [reflexivity | split; reflexivity]].
      exists (randint 50 (SCREEN_WIDTH - 50) (start_x_draw d)), tx, ty.
      split; [reflexivity|].
      split; [apply randint_range; unfold SCREEN_WIDTH; lia|].
      apply possible_targets_active. eapply choice_in, E.
    + intros [_ He]. rewrite He. unfold choice. rewrite nth_error_nil.
      repeat split.
    + intros Hn. contradiction.
  - split; [|split].
    + intros [Hd _]. apply Hdue in Hd. discriminate.
    + intros [Hd _]. apply Hdue in Hd. discriminate.
    + intros _. repeat split.
Qed.

(** ** Pacing, flash and score between iterations *)

Lemma same_pacing_refl (g : Game.t) : same_pacing g g.
Proof. unfold same_pacing. tauto. Qed.

Lemma same_pacing_trans (g1 g2 g3 : Game.t) :
  same_pacing g1 g2 -> same_pacing g2 g3 -> same_pacing g1 g3.
Proof. unfold same_pacing. intuition congruence. Qed.

Ltac pacing_by_cases := unfold same_pacing; repeat split; reflexivity.

Lemma player_step_pacing (g : Game.t) (m : Missile.t) :
  same_pacing g (Game.player_step g m)
  /\ Game.enemy_missiles (Game.player_step g m) = Game.enemy_missiles g
  /\ Game.score (Game.player_step g m) = Game.score g.
Proof.
  unfold Game.player_step. cbv zeta.
  destruct (Missile.has_reached_target _);
    [split; [pacing_by_cases | split; reflexivity]|].
  destruct (Game.off_screen _); (split; [pacing_by_cases | split; reflexivity]).
Qed.

Lemma update_player_missiles_pacing (g : Game.t) :
  same_pacing g (Game.update_player_missiles g)
  /\ Game.enemy_missiles (Game.update_player_missiles g)
     = Game.enemy_missiles g
  /\ Game.score (Game.update_player_missiles g) = Game.score g.
Proof.
  unfold Game.update_player_missiles.
  apply (fold_left_inv
           (fun g' => same_pacing g g'
                      /\ Game.enemy_missiles g' = Game.enemy_missiles g
                      /\ Game.score g' = Game.score g)).
  - intros a b (H1 & H2 & H3).
    destruct (player_step_pacing a b) as (K1 & K2 & K3).
    split; [eapply same_pacing_trans; eassumption|].
    split; congruence.
  - split; [pacing_by_cases | split; reflexivity].
Qed.

Lemma ground_impact_pacing (mx : Py.num) (g : Game.t) :
  same_pacing g (Game.ground_impact mx g).
Proof.
  unfold Game.ground_impact.
  destruct (Game.strike_cities mx _) as [cs e1].
  destruct (Game.strike_bases mx _) as [bs e2]. pacing_by_cases.
Qed.

(** One iteration over a threat: the survivors grow by at most one,
    and the score by nothing or by 25. *)
Lemma enemy_step_pacing (g : Game.t) (m : Missile.t) :
  same_pacing g (Game.enemy_step g m)
  /\ (length (Game.enemy_missiles (Game.enemy_step g m))
      <= S (length (Game.enemy_missiles g)))%nat
  /\ (Game.score (Game.enemy_step g m) = Game.score g
      \/ Game.score (Game.enemy_step g m) = Game.score g + 25).
Proof.
  unfold Game.enemy_step. cbv zeta.
  destruct (Game.blasted _ _).
  { split; [pacing_by_cases|]. split; [cbn; lia | right; reflexivity]. }
  destruct (_ >=? _)%py.
  - split; [apply ground_impact_pacing|].
    rewrite ground_impact_enemy_missiles, ground_impact_score.
    split; [lia | left; reflexivity].
  - split; [pacing_by_cases|].
    split; [|left; reflexivity].
    change (Game.enemy_missiles (Game.set_enemy_missiles ?v g)) with v.
    rewrite length_app. cbn. lia.
Qed.

Lemma enemy_pass_pacing (ms : list Missile.t) :
  forall g,
    same_pacing g (fold_left Game.enemy_step ms g)
    /\ (length (Game.enemy_missiles (fold_left Game.enemy_step ms g))
        <= length ms + length (Game.enemy_missiles g))%nat
    /\ exists k, 0 <= k
                 /\ Game.score (fold_left Game.enemy_step ms g)
                    = Game.score g + 25 * k.
Proof.
  induction ms as [|m ms IH]; intros g; cbn [fold_left].
  - split; [apply same_pacing_refl|]. split; [cbn; lia|].
    exists 0. lia.
  - destruct (enemy_step_pacing g m) as (H1 & H2 & H3).
    destruct (IH (Game.enemy_step g m)) as (K1 & K2 & k & Hk & K3).
    split; [eapply same_pacing_trans; eassumption|].
    split; [cbn [length]; lia|].
    destruct H3 as [H3|H3]; [exists k | exists (k + 1)]; lia.
Qed.

Lemma update_enemy_missiles_pacing (g : Game.t) :
  same_pacing g (Game.update_enemy_missiles g)
  /\ (length (Game.enemy_missiles (Game.update_enemy_missiles g))
      <= length (Game.enemy_missiles g))%nat
  /\ exists k, 0 <= k
               /\ Game.score (Game.update_enemy_missiles g)
                  = Game.score g + 25 * k.
Proof.
  unfold Game.update_enemy_missiles.
  destruct (enemy_pass_pacing (Game.enemy_missiles g)
                              (Game.set_enemy_missiles [] g))
    as (H1 & H2 & H3).
  split; [eapply same_pacing_trans; [|exact H1]; pacing_by_cases|].
  split; [|exact H3].
  change (Game.enemy_missiles (Game.set_enemy_missiles [] g)) with
    (@nil Missile.t) in H2. cbn [length] in H2. lia.
Qed.

Lemma tick_flash_paced (g : Game.t) :
  paced g -> paced (Game.tick_flash g).
Proof.
  unfold paced, Game.tick_flash.
  destruct (0 <? Game.flash_timer g) eqn:E; [|tauto].
  apply Z.ltb_lt in E. cbn. intros (H1 & H2 & H3 & H4 & H5).
  repeat split; try tauto; lia.
Qed.

Lemma tick_spawn_paced (d : Draws) (g : Game.t) :
  paced g -> paced (Game.tick_spawn d g).
Proof.
  unfold paced, Game.tick_spawn, Game.spawn_enemy_missile. cbv zeta.
  intros (H1 & H2 & H3 & H4 & H5 & H6 & H7).
  destruct (_ && _) eqn:Hc.
  - apply andb_true_iff in Hc. destruct Hc as [_ Hq].
    apply Z.ltb_lt in Hq.
    change (Game.missiles_spawned_this_level
              (Game.set_enemy_spawn_timer (Game.enemy_spawn_timer g + 1) g))
      with (Game.missiles_spawned_this_level g) in Hq.
    change (Game.missiles_per_level
              (Game.set_enemy_spawn_timer (Game.enemy_spawn_timer g + 1) g))
      with (Game.missiles_per_level g) in Hq.
    destruct (choice _ _) as [[tx ty]|].
    + cbn [Game.missiles_spawned_this_level Game.missiles_per_level
           Game.enemy_missiles Game.enemy_spawn_timer Game.flash_timer
           Game.score Game.enemy_spawn_rate Game.level
           Game.set_enemy_spawn_timer Game.set_missiles_spawned_this_level
           Game.set_enemy_missiles].
      rewrite length_app. cbn [length].
      repeat split; try tauto; lia.
    + cbn. repeat split; try tauto; lia.
  - cbn. repeat split; try tauto; lia.
Qed.

Lemma resolve_paced (d : Draws) (g : Game.t) :
  paced g -> paced (Game.resolve d g).
Proof.
  intros H. apply tick_flash_paced in H. apply (tick_spawn_paced d) in H.
  unfold Game.resolve.
  set (g1 := Game.tick_spawn d (Game.tick_flash g)) in *.
  destruct (update_player_missiles_pacing g1) as ((A1 & A2 & A3) & A4 & A5).
  set (g2 := Game.update_player_missiles g1) in *.
  destruct (update_enemy_missiles_pacing g2)
    as ((B1 & B2 & B3) & B4 & k & Hk & B5).
  set (g3 := Game.update_enemy_missiles g2) in *.
  destruct (update_player_missiles_control g1)
    as (_ & _ & C1 & C2 & _ & C3 & _).
  destruct (update_enemy_missiles_control g2)
    as (_ & _ & D1 & D2 & _ & D3 & _).
  fold g2 in C1, C2, C3. fold g3 in D1, D2, D3.
  unfold paced in *.
  change (Game.missiles_spawned_this_level (Game.update_explosions g3))
    with (Game.missiles_spawned_this_level g3).
  change (Game.missiles_per_level (Game.update_explosions g3))
    with (Game.missiles_per_level g3).
  change (Game.enemy_missiles (Game.update_explosions g3))
    with (Game.enemy_missiles g3).
  change (Game.enemy_spawn_timer (Game.update_explosions g3))
    with (Game.enemy_spawn_timer g3).
  change (Game.flash_timer (Game.update_explosions g3))
    with (Game.flash_timer g3).
  change (Game.score (Game.update_explosions g3)) with (Game.score g3).
  change (Game.enemy_spawn_rate (Game.update_explosions g3))
    with (Game.enemy_spawn_rate g3).
  change (Game.level (Game.update_explosions g3)) with (Game.level g3).
  destruct H as (H1 & H2 & H3 & H4 & H5 & H6 & H7).
  rewrite B1, B2, B3, A1, A2, A3, D1, D2, D3, C1, C2, C3, B5, A5.
  rewrite A4 in B4.
  repeat split; try tauto; try lia.
  apply Z.divide_add_r; [exact H6 | apply Z.divide_factor_l].
Qed.

Lemma next_level_paced (d : Draws) (s : Game.t) :
  0 <= Game.starting_ammo s -> Game.enemy_missiles s = [] ->
  paced s -> paced (Game.next_level d s).
Proof.
  intros Hsa Hm (H1 & H2 & H3 & H4 & H5 & H6 & H7).
  assert (Hscore : Game.score (Game.next_level d s)
                   = Game.score s + 100 * active_cities s + 50 * launchers s).
  { change (Game.score (Game.next_level d s))
      with (fold_left
              (fun s b => if MissileBase.active b then s + 50 else s)
              (map (Game.refill (Game.starting_ammo s)) (Game.bases s))
              (fold_left (fun s c => if City.active c then s + 100 else s)
                         (Game.cities s) (Game.score s))).
    rewrite base_bonus_sum, city_bonus_sum.
    unfold active_cities, launchers. lia. }
  unfold paced.
  rewrite Hscore, next_level_quota, next_level_rate, next_level_level,
    total_ammo_refilled.
  change (Game.missiles_spawned_this_level (Game.next_level d s)) with 0.
  change (Game.enemy_spawn_timer (Game.next_level d s)) with 0.
  change (Game.flash_timer (Game.next_level d s)) with 20.
  change (Game.enemy_missiles (Game.next_level d s))
    with (Game.enemy_missiles s).
  unfold active_cities, launchers. rewrite Hm. cbn [length].
  assert (Hq : 0 <= Game.starting_ammo s * Z.of_nat (length (Game.bases s)))
    by (apply Z.mul_nonneg_nonneg; lia).
  assert (Hd : (25 | Game.score s
                     + 100 * Z.of_nat (length (filter City.active
                                                      (Game.cities s)))
                     + 50 * Z.of_nat (length (Game.bases s)))).
  { apply Z.divide_add_r; [apply Z.divide_add_r; [exact H6|]|].
    - exists (4 * Z.of_nat (length (filter City.active (Game.cities s)))).
      lia.
    - exists (2 * Z.of_nat (length (Game.bases s))). lia. }
  repeat split; try assumption; lia.
Qed.

Lemma paced_update (d : Draws) (g : Game.t) :
  sound g -> paced g -> paced (Game.update d g).
Proof.
  intros Hs Hp. unfold Game.update.
  destruct (Game.game_over g); [exact Hp|].
  pose proof (resolve_paced d g Hp) as Hr.
  destruct (resolve_control d g) as (_ & _ & _ & _ & Hsa & _).
  destruct Hs as (_ & _ & Hs & _).
  unfold Game.check_level, Game.check_game_over.
  destruct (Game.all_cities_destroyed (Game.resolve d g)).
  - destruct (Game.level_complete _) eqn:Hc; [|exact Hr].
    apply level_complete_iff_conditions in Hc. destruct Hc as (Hm & _).
    apply next_level_paced; [|exact Hm|exact Hr].
    change (0 <= Game.starting_ammo (Game.resolve d g)). lia.
  - destruct (Game.level_complete (Game.resolve d g)) eqn:Hc; [|exact Hr].
    apply level_complete_iff_conditions in Hc. destruct Hc as (Hm & _).
    apply next_level_paced; [lia|exact Hm|exact Hr].
Qed.

Lemma paced_handle_event (mouse : Z * Z) (ev : Event) (g g' : Game.t) :
  sound g -> paced g -> Game.handle_event mouse ev g = Some g' -> paced g'.
Proof.
  intros Hs Hp. destruct ev as [|button|key|]; cbn [Game.handle_event].
  - intros E. injection E as <-. exact Hp.
  - assert (Hf : forall i, Game.fire_from i mouse g = Some g' -> paced g').
    { intros i. unfold Game.fire_from.
      destruct (nth_error _ _) as [b|]; [|discriminate].
      destruct (MissileBase.fire _ _ _) as [b' [ms|]];
        intros E; injection E as <-; exact Hp. }
    destruct (negb _); [|intros E; injection E as <-; exact Hp].
    destruct (_ =? 1); [apply Hf|].
    destruct (_ =? 2); [apply Hf|].
    destruct (_ =? 3); [apply Hf|].
    intros E; injection E as <-; exact Hp.
  - destruct key; [|intros E; injection E as <-; exact Hp].
    destruct (Game.game_over g); intros E; injection E as <-;
      [|exact Hp].
    destruct (restart_fields g)
      as (_ & _ & _ & Es & El & _ & Ee & _ & _ & Eq & Er & Et & En & Ef & _).
    destruct Hp as (H1 & H2 & H3 & H4 & H5 & H6 & H7).
    destruct Hs as (_ & _ & _ & _ & _ & Hrate & Hlev).
    unfold paced. rewrite Es, El, Ee, Eq, Er, Et, En, Ef.
    cbn [length]. repeat split; try tauto; try lia.
    exists 0. reflexivity.
  - intros E. injection E as <-. exact Hp.
Qed.

Lemma paced_handle_events (mouse : Z * Z) (evs : list Event) :
  forall g g', sound g -> paced g ->
          Game.handle_events mouse evs g = Some g' -> paced g'.
Proof.
  induction evs as [|ev evs IH]; intros g g' Hs Hp; cbn [Game.handle_events].
  - intros E. injection E as <-. exact Hp.
  - destruct (sound_handle_event mouse ev g Hs) as [g1 [E1 Hs1]].
    rewrite E1. intros E. apply (IH g1 g' Hs1); [|exact E].
    exact (paced_handle_event mouse ev g g1 Hs Hp E1).
Qed.

Lemma paced_init : paced Game.init.
Proof.
  unfold paced. cbn. repeat split; try lia. exists 0. reflexivity.
Qed.

Lemma paced_run (fs : list Frame) :
  forall g g', sound g -> paced g -> run fs g = Some g' -> paced g'.
Proof.
  induction fs as [|f fs IH]; intros g g' Hs Hp; cbn [run].
  - intros E. injection E as <-. exact Hp.
  - destruct (Game.running g); [|intros E; injection E as <-; exact Hp].
    unfold frame.
    destruct (sound_handle_events (mouse_pos f) (events f) g Hs)
      as [g1 [E1 Hs1]].
    rewrite E1. intros E.
    apply (IH (Game.update (draws f) g1) g'); [| |exact E].
    + apply sound_update, Hs1.
    + apply paced_update; [exact Hs1|].
      exact (paced_handle_events _ _ g g1 Hs Hp E1).
Qed.

(** X6. Between any two iterations of the main loop: the number of
    threats spawned this level is between 0 and the quota; no more
    threats are in flight than were spawned this level; the spawn
    timer and the flash timer are not negative and the flash timer is
    at most 20; the score is a non-negative multiple of 25; and the
    spawn interval is at most [max 30 (65 - 5 * level)], the interval
    a game without restarts has at that level. *)
Theorem reachable_paced (g : Game.t) : reachable g -> paced g.
Proof.
  intros [fs Hrun].
  exact (paced_run fs Game.init g sound_init paced_init Hrun).
Qed.

Lemma reachable_paced_witness : paced (after (drill 1000)).
Proof. exact (reachable_paced _ (after_reachable (drill 1000))). Defined.

(** ** Events while the game is on *)

Lemma only_shots_refl (mouse : Z * Z) (g : Game.t) : only_shots mouse g g.
Proof.
  unfold only_shots. repeat split.
  exists []. rewrite app_nil_r. split; [reflexivity | constructor].
Qed.

Lemma only_shots_trans (mouse : Z * Z) (g1 g2 g3 : Game.t) :
  only_shots mouse g1 g2 -> only_shots mouse g2 g3 -> only_shots mouse g1 g3.
Proof.
  intros (A1 & A2 & A3 & n1 & A4 & A5) (B1 & B2 & B3 & n2 & B4 & B5).
  unfold only_shots.
  split; [congruence|]. split; [congruence|]. split; [lia|].
  exists (n1 ++ n2). rewrite B4, A4, app_assoc. split; [reflexivity|].
  apply Forall_app. split; [exact A5|].
  eapply Forall_impl; [|exact B5].
  intros m (sx & sy & sd & Hin & ->). exists sx, sy, sd.
  rewrite <- A2. auto.
Qed.

Lemma total_ammo_list_set (bs : list MissileBase.t) :
  forall i b v, nth_error bs i = Some b ->
           Game.total_ammo (list_set i v bs)
           = Game.total_ammo bs - MissileBase.ammo b + MissileBase.ammo v.
Proof.
  unfold Game.total_ammo.
  induction bs as [|a bs IH]; intros [|i] b v Hn; try discriminate.
  - cbn in Hn. injection Hn as ->. cbn. lia.
  - cbn [list_set fold_right nth_error] in *. rewrite (IH i b v Hn). lia.
Qed.

Lemma fire_from_only_shots (i : nat) (mouse : Z * Z) (g g' : Game.t) :
  Game.fire_from i mouse g = Some g' -> only_shots mouse g g'.
Proof.
  unfold Game.fire_from.
  destruct (nth_error (Game.bases g) i) as [b|] eqn:Hn; [|discriminate].
  unfold MissileBase.fire.
  destruct (MissileBase.active b && (0 <? MissileBase.ammo b)) eqn:Hc.
  - apply andb_true_iff in Hc. destruct Hc as [Ha _].
    intros E. injection E as <-.
    unfold only_shots.
    change (Game.bases (Game.set_player_missiles ?v (Game.set_bases ?w g)))
      with w.
    change (Game.player_missiles
              (Game.set_player_missiles ?v (Game.set_bases ?w g)))
      with v.
    change (Game.player_missiles (Game.set_bases ?w g))
      with (Game.player_missiles g).
    split; [reflexivity|].
    split; [apply (list_set_map base_post _ i b); [exact Hn|];
            unfold base_post; reflexivity|].
    split.
    + rewrite (total_ammo_list_set _ i b _ Hn), length_app. cbn. lia.
    + eexists. split; [reflexivity|].
      constructor; [|constructor].
      exists (MissileBase.x b), (MissileBase.y b), (MissileBase.side b).
      split; [|reflexivity].
      apply in_map_iff. exists b. split.
      * unfold base_post. rewrite Ha. reflexivity.
      * eapply nth_error_In, Hn.
  - intros E. injection E as <-.
    unfold only_shots.
    change (Game.bases (Game.set_bases ?w g)) with w.
    change (Game.player_missiles (Game.set_bases ?w g))
      with (Game.player_missiles g).
    split; [reflexivity|].
    split; [apply (list_set_map base_post _ i b); [exact Hn | reflexivity]|].
    split.
    + rewrite (total_ammo_list_set _ i b _ Hn). lia.
    + exists []. rewrite app_nil_r. split; [reflexivity | constructor].
Qed.

Lemma handle_event_only_shots (mouse : Z * Z) (ev : Event) (g g' : Game.t) :
  Game.game_over g = false ->
  Game.handle_event mouse ev g = Some g' ->
  only_shots mouse g g' /\ Game.game_over g' = false.
Proof.
  intros Hplay. destruct ev as [|button|key|]; cbn [Game.handle_event];
    rewrite ?Hplay; cbn [negb].
  - intros E. injection E as <-. split; [|exact Hplay].
    unfold only_shots. repeat split.
    exists []. rewrite app_nil_r. split; [reflexivity | constructor].
  - assert (Hf : forall i, Game.fire_from i mouse g = Some g' ->
                      only_shots mouse g g' /\ Game.game_over g' = false).
    { intros i E. pose proof (fire_from_only_shots i mouse g g' E) as H.
      split; [exact H|]. destruct H as (H & _).
      apply (f_equal Game.game_over) in H. exact (eq_trans H Hplay). }
    destruct (_ =? 1); [apply Hf|].
    destruct (_ =? 2); [apply Hf|].
    destruct (_ =? 3); [apply Hf|].
    intros E. injection E as <-. split; [apply only_shots_refl | exact Hplay].
  - destruct key; intros E; injection E as <-;
      (split; [apply only_shots_refl | exact Hplay]).
  - intros E. injection E as <-. split; [apply only_shots_refl | exact Hplay].
Qed.

(** X7. While the game is on, the events of a frame can do nothing
    but fire (and clear [running]): the state after them differs from
    the state before only in the launchers' ammo and in the
    interceptors appended, each made at an active launcher's position
    and aimed at the mouse position, and every unit of ammo spent is
    one interceptor more, so ammo plus interceptors in flight is
    conserved.  The game stays on: the restart key does nothing. *)
Theorem events_only_fire (mouse : Z * Z) (evs : list Event) :
  forall g g',
    Game.game_over g = false ->
    Game.handle_events mouse evs g = Some g' ->
    only_shots mouse g g' /\ Game.game_over g' = false.
Proof.
  induction evs as [|ev evs IH]; intros g g' Hplay; cbn [Game.handle_events].
  - intros E. injection E as <-. split; [apply only_shots_refl | exact Hplay].
  - destruct (Game.handle_event mouse ev g) as [g1|] eqn:E1; [|discriminate].
    intros E.
    destruct (handle_event_only_shots mouse ev g g1 Hplay E1) as [H1 Hp1].
    destruct (IH g1 g' Hp1 E) as [H2 Hp2].
    split; [eapply only_shots_trans; eassumption | exact Hp2].
Qed.

Lemma events_only_fire_witness :
  only_shots (300, 200) Game.init clicked
  /\ Game.game_over clicked = false.
Proof.
  apply (events_only_fire (300, 200) busy_events Game.init clicked).
  - reflexivity.
  - vm_compute. reflexivity.
Defined.

(** ** One more iteration *)




(** ** Leaving the loop *)

Lemma update_running (d : Draws) (g : Game.t) :
  Game.running (Game.update d g) = Game.running g.
Proof.
  unfold Game.update. destruct (Game.game_over g); [reflexivity|].
  assert (H : Game.running (Game.check_game_over (Game.resolve d g))
              = Game.running g).
  { unfold Game.check_game_over.
    destruct (Game.all_cities_destroyed _); cbn [Game.running Game.set_game_over];
      apply (resolve_control d g). }
  unfold Game.check_level. destruct (Game.level_complete _); [|exact H].
  rewrite <- H. reflexivity.
Qed.

Lemma handle_event_stopped (mouse : Z * Z) (ev : Event) (g g' : Game.t) :
  Game.running g = false -> Game.handle_event mouse ev g = Some g' ->
  Game.running g' = false.
Proof.
  intros Hr. destruct ev as [|button|key|]; cbn [Game.handle_event].
  - intros E. injection E as <-. reflexivity.
  - assert (F : forall i, Game.fire_from i mouse g = Some g' ->
                          Game.running g' = false).
    { intros i. unfold Game.fire_from.
      destruct (nth_error (Game.bases g) i) as [b|]; [|discriminate].
      destruct (MissileBase.fire b (fst mouse) (snd mouse)) as [b' [m|]];
        intros E; injection E as <-; exact Hr. }
    destruct (negb (Game.game_over g)).
    + destruct (button =? 1); [apply F|].
      destruct (button =? 2); [apply F|].
      destruct (button =? 3); [apply F|].
      intros E. injection E as <-. exact Hr.
    + intros E. injection E as <-. exact Hr.
  - destruct key; [destruct (Game.game_over g)|];
      intros E; injection E as <-; exact Hr.
  - intros E. injection E as <-. exact Hr.
Qed.

Lemma handle_events_stopped (mouse : Z * Z) (evs : list Event) :
  forall g g', Game.running g = false ->
               Game.handle_events mouse evs g = Some g' ->
               Game.running g' = false.
Proof.
  induction evs as [|ev evs IH]; intros g g' Hr; cbn [Game.handle_events].
  - intros E. injection E as <-. exact Hr.
  - destruct (Game.handle_event mouse ev g) as [g1|] eqn:E1; [|discriminate].
    apply IH. exact (handle_event_stopped mouse ev g g1 Hr E1).
Qed.

Lemma handle_events_quit (mouse : Z * Z) (evs : list Event) :
  forall g g', In QUIT evs ->
               Game.handle_events mouse evs g = Some g' ->
               Game.running g' = false.
Proof.
  induction evs as [|ev evs IH]; intros g g' Hin; [destruct Hin|].
  cbn [Game.handle_events].
  destruct (Game.handle_event mouse ev g) as [g1|] eqn:E1; [|discriminate].
  destruct Hin as [-> | Hin].
  - cbn [Game.handle_event] in E1. injection E1 as <-.
    apply handle_events_stopped. reflexivity.
  - apply IH, Hin.
Qed.

Lemma handle_event_running (mouse : Z * Z) (ev : Event) (g g' : Game.t) :
  ev <> QUIT -> Game.handle_event mouse ev g = Some g' ->
  Game.running g' = Game.running g.
Proof.
  intros Hq. destruct ev as [|button|key|]; cbn [Game.handle_event].
  - congruence.
  - assert (F : forall i, Game.fire_from i mouse g = Some g' ->
                          Game.running g' = Game.running g).
    { intros i. unfold Game.fire_from.
      destruct (nth_error (Game.bases g) i) as [b|]; [|discriminate].
      destruct (MissileBase.fire b (fst mouse) (snd mouse)) as [b' [m|]];
        intros E; injection E as <-; reflexivity. }
    destruct (negb (Game.game_over g)).
    + destruct (button =? 1); [apply F|].
      destruct (button =? 2); [apply F|].
      destruct (button =? 3); [apply F|].
      intros E. injection E as <-. reflexivity.
    + intros E. injection E as <-. reflexivity.
  - destruct key; [destruct (Game.game_over g)|];
      intros E; injection E as <-; reflexivity.
  - intros E. injection E as <-. reflexivity.
Qed.

Lemma handle_events_no_quit (mouse : Z * Z) (evs : list Event) :
  forall g g', ~ In QUIT evs ->
               Game.handle_events mouse evs g = Some g' ->
               Game.running g' = Game.running g.
Proof.
  induction evs as [|ev evs IH]; intros g g' Hq; cbn [Game.handle_events].
  - intros E. injection E as <-. reflexivity.
  - destruct (Game.handle_event mouse ev g) as [g1|] eqn:E1; [|discriminate].
    intros E. rewrite (IH g1 g' (fun H => Hq (or_intror H)) E).
    apply (handle_event_running mouse ev g g1); [|exact E1].
    intros ->. apply Hq. left. reflexivity.
Qed.

Lemma quit_dec (evs : list Event) : {In QUIT evs} + {~ In QUIT evs}.
Proof.
  apply in_dec. decide equality; [apply Z.eq_dec | decide equality].
Qed.

(** X9. Only [QUIT] ends the loop, and it ends it after the iteration
    it arrives in: an iteration that starts with [running] set leaves
    it cleared exactly when a [QUIT] event was among its events; the
    other events of that iteration are still handled and its update
    still runs, and no later frame is looked at. *)
Theorem loop_ends_at_quit (f : Frame) (fs : list Frame) (g g' : Game.t) :
  Game.running g = true -> frame f g = Some g' ->
  (Game.running g' = false <-> In QUIT (events f))
  /\ run (f :: fs) g = (if Game.running g' then run fs g' else Some g').
Proof.
  intros Hr. unfold frame at 1.
  destruct (Game.handle_events (mouse_pos f) (events f) g) as [g1|] eqn:E1;
    [|discriminate].
  intros E. injection E as <-. split.
  - rewrite update_running. split.
    + intros Hs. destruct (quit_dec (events f)) as [H|H]; [exact H|].
      rewrite (handle_events_no_quit _ _ g g1 H E1) in Hs. congruence.
    + intros H. exact (handle_events_quit _ _ g g1 H E1).
  - cbn [run]. rewrite Hr. unfold frame. rewrite E1.
    destruct (Game.running (Game.update (draws f) g1)) eqn:R; [reflexivity|].
    destruct fs as [|f' fs]; cbn [run]; [reflexivity|].
    rewrite R. reflexivity.
Qed.

Lemma loop_ends_at_quit_witness :
  (Game.running (Game.update idle_draws clicked) = false
   <-> In QUIT (events quit_frame))
  /\ run (quit_frame :: repeat idle 3) Game.init
     = (if Game.running (Game.update idle_draws clicked)
        then run (repeat idle 3) (Game.update idle_draws clicked)
        else Some (Game.update idle_draws clicked)).
Proof.
  apply (loop_ends_at_quit quit_frame (repeat idle 3) Game.init
                           (Game.update idle_draws clicked)).
  - reflexivity.
  - vm_compute. reflexivity.
Defined.

(** ** A blast never lets go *)

Lemma cmp_spec_Z_le (x : spec_float) (z z' : Z) :
  z <= z' ->
  match Py.cmp_spec_Z x z with Some Lt | Some Eq => True | _ => False end ->
  match Py.cmp_spec_Z x z' with Some Lt | Some Eq => True | _ => False end.
Proof.
  intros Hz. destruct x as [s|s| |s m e]; cbn [Py.cmp_spec_Z].
  - destruct (0 ?= z) eqn:C; try contradiction; intros _.
    + apply Z.compare_eq in C. destruct (0 ?= z') eqn:C'; auto.
      rewrite Z.compare_gt_iff in C'. lia.
    + rewrite Z.compare_lt_iff in C. destruct (0 ?= z') eqn:C'; auto.
      rewrite Z.compare_gt_iff in C'. lia.
  - auto.
  - auto.
  - unfold Py.cmp_finite_Z. destruct (0 <=? e) eqn:He.
    + generalize (cond_Zopp s (Z.pos m) * 2 ^ e). intros v.
      destruct (v ?= z) eqn:C; try contradiction; intros _.
      * apply Z.compare_eq in C. destruct (v ?= z') eqn:C'; auto.
        rewrite Z.compare_gt_iff in C'. lia.
      * rewrite Z.compare_lt_iff in C. destruct (v ?= z') eqn:C'; auto.
        rewrite Z.compare_gt_iff in C'. lia.
    + apply Z.leb_gt in He.
      assert (P : 0 < 2 ^ (- e)) by (apply Z.pow_pos_nonneg; lia).
      assert (M : z * 2 ^ (- e) <= z' * 2 ^ (- e))
        by (apply Z.mul_le_mono_nonneg_r; lia).
      revert M. generalize (z * 2 ^ (- e)) (z' * 2 ^ (- e))
                           (cond_Zopp s (Z.pos m)).
      intros a a' v M.
      destruct (v ?= a) eqn:C; try contradiction; intros _.
      * apply Z.compare_eq in C. destruct (v ?= a') eqn:C'; auto.
        rewrite Z.compare_gt_iff in C'. lia.
      * rewrite Z.compare_lt_iff in C.
        destruct (v ?= a') eqn:C'; auto.
        rewrite Z.compare_gt_iff in C'. lia.
Qed.

Lemma leb_float_Z_le (f : float) (z z' : Z) :
  z <= z' ->
  Py.leb (Py.Float f) (Py.Int z) = true ->
  Py.leb (Py.Float f) (Py.Int z') = true.
Proof.
  intros Hz. unfold Py.leb, Py.cmp, Py.cmp_float_Z. intros H.
  pose proof (cmp_spec_Z_le (Prim2SF f) z z' Hz) as M.
  destruct (Py.cmp_spec_Z (Prim2SF f) z) as [[]|]; try discriminate;
    specialize (M I);
    destruct (Py.cmp_spec_Z (Prim2SF f) z') as [[]|];
    try contradiction; reflexivity.
Qed.

Lemma radius_update (e : Explosion.t) :
  Explosion.x (fst (Explosion.update e)) = Explosion.x e
  /\ Explosion.y (fst (Explosion.update e)) = Explosion.y e
  /\ Explosion.radius e <= Explosion.radius (fst (Explosion.update e)).
Proof.
  unfold Explosion.update, Explosion.grow, EXPLOSION_GROWTH_RATE. cbv zeta.
  destruct (Explosion.growing e); cbn; repeat split; lia.
Qed.

Lemma radius_life (n : nat) (e : Explosion.t) :
  Explosion.x (life n e) = Explosion.x e
  /\ Explosion.y (life n e) = Explosion.y e
  /\ Explosion.radius e <= Explosion.radius (life n e).
Proof.
  induction n as [|n (Hx & Hy & Hr)]; cbn [life]; [repeat split; lia|].
  destruct (radius_update (life n e)) as (Hx' & Hy' & Hr').
  repeat split; [congruence | congruence | lia].
Qed.

(** X10. A point a blast holds it holds for the rest of its life: the
    radius never shrinks and the centre never moves, so
    [collides_with] stays true through any number of updates. *)
Theorem blast_keeps_hold (n : nat) (e : Explosion.t) (px py : Py.num) :
  Explosion.collides_with e px py = true ->
  Explosion.collides_with (life n e) px py = true.
Proof.
  destruct (radius_life n e) as (Hx & Hy & Hr).
  unfold Explosion.collides_with. cbv zeta. rewrite Hx, Hy.
  unfold Py.sqrt. apply leb_float_Z_le, Hr.
Qed.

Lemma blast_keeps_hold_witness :
  Explosion.collides_with (life 20 (life 5 (Explosion.init 200 300)))
                          (Py.Float 203.5) (Py.Int 304) = true.
Proof.
  apply (blast_keeps_hold 20 (life 5 (Explosion.init 200 300))).
  vm_compute. reflexivity.
Defined.

(** ** The pass over the interceptors *)

Lemma player_pass (ms : list Missile.t) :
  forall g,
    let moved := map Missile.update ms in
    let g' := fold_left Game.player_step ms g in
    Game.player_missiles g' = Game.player_missiles g ++ filter in_flight moved
    /\ Game.explosions g'
       = Game.explosions g
         ++ map blast_at_target (filter Missile.has_reached_target moved)
    /\ Game.set_explosions [] (Game.set_player_missiles [] g')
       = Game.set_explosions [] (Game.set_player_missiles [] g).
Proof.
  induction ms as [|m ms IH]; intros g; cbn zeta.
  - cbn. rewrite !app_nil_r. repeat split.
  - cbn [fold_left map filter].
    destruct (IH (Game.player_step g m)) as (H1 & H2 & H3).
    cbv zeta in H1, H2, H3. rewrite H1, H2, H3. clear H1 H2 H3 IH.
    unfold Game.player_step, in_flight. cbv zeta.
    destruct (Missile.has_reached_target (Missile.update m)); cbn [negb andb].
    + cbn [Game.player_missiles Game.explosions Game.set_explosions map].
      rewrite <- app_assoc. repeat split.
    + destruct (Game.off_screen (Missile.update m)); cbn [negb].
      * repeat split.
      * cbn [Game.player_missiles Game.explosions Game.set_player_missiles].
        rewrite <- app_assoc. repeat split.
Qed.


(** ** The pass over the threats *)

Lemma strike_first_count {A : Type} (act hit : A -> bool) (off : A -> A)
      (boom : A -> Explosion.t) (l : list A) :
  (forall a, hit a = true -> act a = true) ->
  (forall a, act (off a) = false) ->
  (length (filter act (fst (Game.strike_first hit off boom l)))
   + length (opt_list (snd (Game.strike_first hit off boom l)))
   = length (filter act l))%nat
  /\ (length (opt_list (snd (Game.strike_first hit off boom l))) <= 1)%nat.
Proof.
  intros Hhit Hoff. induction l as [|a l [IH1 IH2]]; [cbn; lia|].
  cbn [Game.strike_first]. destruct (hit a) eqn:Ha.
  - cbn [fst snd opt_list filter length]. rewrite Hoff, (Hhit a Ha).
    cbn [length]. lia.
  - destruct (Game.strike_first hit off boom l) as [l' e].
    cbn [fst snd filter] in *. destruct (act a); cbn [length]; lia.
Qed.

Lemma ground_impact_tally (mx : Py.num) (g : Game.t) :
  standing (Game.ground_impact mx g)
  + Z.of_nat (length (Game.explosions (Game.ground_impact mx g)))
  = standing g + Z.of_nat (length (Game.explosions g))
  /\ (length (Game.explosions g)
      <= length (Game.explosions (Game.ground_impact mx g))
      <= length (Game.explosions g) + 2)%nat
  /\ Game.score (Game.ground_impact mx g) = Game.score g
  /\ Game.enemy_missiles (Game.ground_impact mx g) = Game.enemy_missiles g
  /\ Game.player_missiles (Game.ground_impact mx g) = Game.player_missiles g.
Proof.
  unfold Game.ground_impact, Game.strike_cities, Game.strike_bases, standing.
  pose proof (strike_first_count City.active (Game.hits_city mx)
                (City.set_active false)
                (fun c => Explosion.init (City.x c) (City.y c))
                (Game.cities g)) as Hc.
  pose proof (strike_first_count MissileBase.active (Game.hits_base mx)
                (MissileBase.set_active false)
                (fun b => Explosion.init (MissileBase.x b) (MissileBase.y b))
                (Game.bases g)) as Hb.
  destruct (Game.strike_first (Game.hits_city mx) _ _ _) as [cs e1].
  destruct (Game.strike_first (Game.hits_base mx) _ _ _) as [bs e2].
  cbn [fst snd] in Hc, Hb.
  destruct Hc as [Hc1 Hc2].
  { intros c. unfold Game.hits_city. intros H.
    apply andb_prop in H. apply H. }
  { reflexivity. }
  destruct Hb as [Hb1 Hb2].
  { intros b. unfold Game.hits_base. intros H.
    apply andb_prop in H. apply H. }
  { reflexivity. }
  cbn [Game.cities Game.bases Game.explosions Game.score Game.enemy_missiles
       Game.player_missiles Game.set_explosions Game.set_bases
       Game.set_cities].
  rewrite !length_app. repeat split; lia.
Qed.

Lemma enemy_pass_tally (ms : list Missile.t) :
  forall g, tally (length ms) g (fold_left Game.enemy_step ms g).
Proof.
  induction ms as [|m ms IH]; intros g.
  - exists 0%nat, 0%nat. cbn. repeat split; lia.
  - cbn [fold_left length].
    destruct (IH (Game.enemy_step g m))
      as (hit & grounded & H1 & H2 & H3 & H4 & H5).
    revert H1 H2 H3 H4 H5.
    generalize (fold_left Game.enemy_step ms (Game.enemy_step g m)).
    intros g'. unfold Game.enemy_step. cbv zeta.
    destruct (Game.blasted g (Missile.update m)).
    + cbn [Game.enemy_missiles Game.score Game.explosions
           Game.player_missiles Game.set_score].
      change (standing (Game.set_score (Game.score g + 25) g))
        with (standing g).
      intros H1 H2 H3 H4 H5. exists (S hit), grounded.
      repeat split; try lia. exact H5.
    + destruct (Missile.y (Missile.update m) >=? Game.GROUND_Y)%py.
      * destruct (ground_impact_tally (Missile.x (Missile.update m)) g)
          as (G1 & G2 & G3 & G4 & G5).
        rewrite G3, G4, G5, G1. intros H1 H2 H3 H4 H5.
        exists hit, (S grounded). repeat split; try lia. exact H5.
      * cbn [Game.enemy_missiles Game.score Game.explosions
             Game.player_missiles Game.set_enemy_missiles].
        change (standing (Game.set_enemy_missiles _ g)) with (standing g).
        rewrite length_app. cbn [length].
        intros H1 H2 H3 H4 H5. exists hit, grounded.
        repeat split; try lia. exact H5.
Qed.

(** X12. The books of the pass over the threats: each threat that was
    in flight is still in flight, or was caught by a blast, or came
    down; the score goes up by 25 for each one caught and by nothing
    else; every city or launcher lost is one blast more on the list,
    no blast is taken off, and a threat that came down made at most
    two; the interceptors are left alone. *)
Theorem threat_pass_accounting (g : Game.t) :
  let g' := Game.update_enemy_missiles g in
  exists hit grounded : nat,
    length (Game.enemy_missiles g)
    = (length (Game.enemy_missiles g') + hit + grounded)%nat
    /\ Game.score g' = Game.score g + 25 * Z.of_nat hit
    /\ standing g' + Z.of_nat (length (Game.explosions g'))
       = standing g + Z.of_nat (length (Game.explosions g))
    /\ (length (Game.explosions g) <= length (Game.explosions g')
        <= length (Game.explosions g) + 2 * grounded)%nat
    /\ Game.player_missiles g' = Game.player_missiles g.
Proof.
  cbv zeta. unfold Game.update_enemy_missiles.
  destruct (enemy_pass_tally (Game.enemy_missiles g)
                             (Game.set_enemy_missiles [] g))
    as (hit & grounded & H1 & H2 & H3 & H4 & H5).
  change (standing (Game.set_enemy_missiles [] g)) with (standing g) in H3.
  cbn [Game.enemy_missiles Game.set_enemy_missiles Game.score
       Game.explosions Game.player_missiles length] in H1, H2, H3, H4, H5.
  exists hit, grounded. repeat split; try assumption; lia.
Qed.

(** ** Nothing is rebuilt during a level *)

Lemma Forall2_same {A : Type} (R : A -> A -> Prop) :
  (forall a, R a a) -> forall l, Forall2 R l l.
Proof. intros H l. induction l; constructor; auto. Qed.

Lemma Forall2_chain {A : Type} (R : A -> A -> Prop) :
  (forall a b c, R a b -> R b c -> R a c) ->
  forall l1 l2 l3, Forall2 R l1 l2 -> Forall2 R l2 l3 -> Forall2 R l1 l3.
Proof.
  intros H l1 l2 l3 H12. revert l3.
  induction H12 as [|a b l1 l2 Hab _ IH]; intros l3 H23;
    inversion H23; subst; constructor; eauto.
Qed.

Lemma city_kept_refl (c : City.t) : city_kept c c.
Proof. unfold city_kept. tauto. Qed.

Lemma city_kept_trans (a b c : City.t) :
  city_kept a b -> city_kept b c -> city_kept a c.
Proof. unfold city_kept. intuition congruence. Qed.

Lemma base_kept_refl (b : MissileBase.t) : base_kept b b.
Proof. unfold base_kept. tauto. Qed.

Lemma base_kept_trans (a b c : MissileBase.t) :
  base_kept a b -> base_kept b c -> base_kept a c.
Proof. unfold base_kept. intuition congruence. Qed.

Lemma no_repairs_refl (g : Game.t) : no_repairs g g.
Proof.
  split; apply Forall2_same; [apply city_kept_refl | apply base_kept_refl].
Qed.

Lemma no_repairs_trans (g1 g2 g3 : Game.t) :
  no_repairs g1 g2 -> no_repairs g2 g3 -> no_repairs g1 g3.
Proof.
  intros [A1 A2] [B1 B2]. split.
  - exact (Forall2_chain _ city_kept_trans _ _ _ A1 B1).
  - exact (Forall2_chain _ base_kept_trans _ _ _ A2 B2).
Qed.

Lemma strike_first_kept {A : Type} (R : A -> A -> Prop) (hit : A -> bool)
      (off : A -> A) (boom : A -> Explosion.t) (l : list A) :
  (forall a, R a a) -> (forall a, R a (off a)) ->
  Forall2 R l (fst (Game.strike_first hit off boom l)).
Proof.
  intros Hrefl Hoff. induction l as [|a l IH]; [constructor|].
  cbn [Game.strike_first]. destruct (hit a).
  - constructor; [apply Hoff | apply Forall2_same, Hrefl].
  - destruct (Game.strike_first hit off boom l) as [l' e].
    constructor; [apply Hrefl | exact IH].
Qed.

Lemma recolor_kept (rgb : nat -> Z * Z * Z) (cs : list City.t) :
  forall i, Forall2 city_kept cs (Game.recolor_from i rgb cs).
Proof.
  induction cs as [|c cs IH]; intros i; cbn [Game.recolor_from];
    constructor; [|apply IH].
  destruct (City.active c); unfold city_kept; cbn; tauto.
Qed.

Ltac unchanged_sites :=
  match goal with |- no_repairs ?g _ => exact (no_repairs_refl g) end.

Lemma ground_impact_no_repairs (mx : Py.num) (g : Game.t) :
  no_repairs g (Game.ground_impact mx g).
Proof.
  unfold Game.ground_impact, Game.strike_cities, Game.strike_bases.
  pose proof (strike_first_kept city_kept (Game.hits_city mx)
                (City.set_active false)
                (fun c => Explosion.init (City.x c) (City.y c))
                (Game.cities g) city_kept_refl) as Hc.
  pose proof (strike_first_kept base_kept (Game.hits_base mx)
                (MissileBase.set_active false)
                (fun b => Explosion.init (MissileBase.x b) (MissileBase.y b))
                (Game.bases g) base_kept_refl) as Hb.
  destruct (Game.strike_first (Game.hits_city mx) _ _ _) as [cs e1].
  destruct (Game.strike_first (Game.hits_base mx) _ _ _) as [bs e2].
  split; cbn [Game.cities Game.bases Game.set_explosions Game.set_bases
              Game.set_cities fst] in *.
  - apply Hc. intros c. unfold city_kept. cbn. repeat split. discriminate.
  - apply Hb. intros b. unfold base_kept. cbn. repeat split. discriminate.
Qed.

Lemma enemy_step_no_repairs (g : Game.t) (m : Missile.t) :
  no_repairs g (Game.enemy_step g m).
Proof.
  unfold Game.enemy_step. cbv zeta.
  destruct (Game.blasted _ _); [unchanged_sites|].
  destruct (_ >=? _)%py; [apply ground_impact_no_repairs|].
  unchanged_sites.
Qed.

Lemma player_step_no_repairs (g : Game.t) (m : Missile.t) :
  no_repairs g (Game.player_step g m).
Proof.
  unfold Game.player_step. cbv zeta.
  destruct (Missile.has_reached_target _); [unchanged_sites|].
  destruct (Game.off_screen _); unchanged_sites.
Qed.

Lemma fold_no_repairs {B : Type} (f : Game.t -> B -> Game.t) (l : list B) :
  (forall g b, no_repairs g (f g b)) ->
  forall g, no_repairs g (fold_left f l g).
Proof.
  intros Hf g.
  apply (fold_left_inv (fun g' => no_repairs g g')).
  - intros a b Ha. eapply no_repairs_trans; [exact Ha | apply Hf].
  - apply no_repairs_refl.
Qed.

Lemma resolve_no_repairs (d : Draws) (g : Game.t) :
  no_repairs g (Game.resolve d g).
Proof.
  unfold Game.resolve.
  set (g1 := Game.tick_flash g).
  set (g2 := Game.tick_spawn d g1).
  set (g3 := Game.update_player_missiles g2).
  set (g4 := Game.update_enemy_missiles g3).
  assert (H1 : no_repairs g g1).
  { unfold g1, Game.tick_flash. destruct (0 <? _); unchanged_sites. }
  assert (H2 : no_repairs g1 g2).
  { unfold g2, Game.tick_spawn, Game.spawn_enemy_missile. cbv zeta.
    destruct (_ && _); [|unchanged_sites].
    destruct (choice _ _) as [[tx ty]|]; unchanged_sites. }
  assert (H3 : no_repairs g2 g3).
  { unfold g3, Game.update_player_missiles.
    apply (no_repairs_trans _ (Game.set_player_missiles [] g2));
      [unchanged_sites|].
    apply fold_no_repairs, player_step_no_repairs. }
  assert (H4 : no_repairs g3 g4).
  { unfold g4, Game.update_enemy_missiles.
    apply (no_repairs_trans _ (Game.set_enemy_missiles [] g3));
      [unchanged_sites|].
    apply fold_no_repairs, enemy_step_no_repairs. }
  assert (H5 : no_repairs g4 (Game.update_explosions g4))
    by unchanged_sites.
  eauto using no_repairs_trans.
Qed.

(** X13. A tick never brings a city back: after [update] every city
    is where it was and is active only if it was active before, also
    on the tick that completes a level.  Unless the level goes up, the
    same holds for the launchers, whose ammo [update] leaves alone as
    well. *)
Theorem update_never_repairs (d : Draws) (g : Game.t) :
  Forall2 city_kept (Game.cities g) (Game.cities (Game.update d g))
  /\ (Game.level (Game.update d g) = Game.level g ->
      Forall2 base_kept (Game.bases g) (Game.bases (Game.update d g))).
Proof.
  unfold Game.update. destruct (Game.game_over g).
  { split; [|intros _]; apply no_repairs_refl. }
  assert (H : no_repairs g (Game.check_game_over (Game.resolve d g))).
  { apply (no_repairs_trans _ (Game.resolve d g));
      [apply resolve_no_repairs|].
    unfold Game.check_game_over.
    destruct (Game.all_cities_destroyed _); unchanged_sites. }
  assert (L : Game.level (Game.check_game_over (Game.resolve d g))
              = Game.level g).
  { unfold Game.check_game_over.
    destruct (Game.all_cities_destroyed _);
      cbn [Game.level Game.set_game_over]; apply (resolve_control d g). }
  revert H L. generalize (Game.check_game_over (Game.resolve d g)).
  intros s [Hc Hb] L. unfold Game.check_level.
  destruct (Game.level_complete s).
  - split.
    + rewrite next_level_cities.
      exact (Forall2_chain _ city_kept_trans _ _ _ Hc (recolor_kept _ _ 0%nat)).
    + change (Game.level (Game.next_level d s)) with (Game.level s + 1).
      lia.
  - split; [exact Hc | intros _; exact Hb].
Qed.

(** ** Colours *)

Lemma plain_missile_idem (m : Missile.t) :
  plain_missile (plain_missile m) = plain_missile m.
Proof. reflexivity. Qed.

Lemma map_plain_missile_idem (ms : list Missile.t) :
  map plain_missile (map plain_missile ms) = map plain_missile ms.
Proof. rewrite map_map. reflexivity. Qed.

Lemma map_plain_city_idem (cs : list City.t) :
  map plain_city (map plain_city cs) = map plain_city cs.
Proof. rewrite map_map. reflexivity. Qed.

Lemma plain_idem (g : Game.t) : plain (plain g) = plain g.
Proof.
  destruct g. unfold plain.
  cbn [Game.cities Game.player_missiles Game.enemy_missiles
       Game.set_enemy_missile_color Game.set_flash_color Game.set_cities
       Game.set_player_missiles Game.set_enemy_missiles
       Game.running Game.game_over Game.score Game.level
       Game.enemy_spawn_timer Game.enemy_spawn_rate Game.starting_ammo
       Game.missiles_spawned_this_level Game.enemy_missile_color
       Game.flash_timer Game.flash_color Game.bases Game.explosions
       Game.missiles_per_level].
  rewrite !map_plain_missile_idem, map_plain_city_idem. reflexivity.
Qed.

Ltac fields :=
  cbn [Game.cities Game.player_missiles Game.enemy_missiles
       Game.set_enemy_missile_color Game.set_flash_color Game.set_cities
       Game.set_player_missiles Game.set_enemy_missiles
       Game.set_running Game.set_game_over Game.set_score Game.set_level
       Game.set_enemy_spawn_timer Game.set_enemy_spawn_rate
       Game.set_missiles_spawned_this_level Game.set_flash_timer
       Game.set_bases Game.set_explosions Game.set_missiles_per_level
       Game.running Game.game_over Game.score Game.level
       Game.enemy_spawn_timer Game.enemy_spawn_rate Game.starting_ammo
       Game.missiles_spawned_this_level Game.enemy_missile_color
       Game.flash_timer Game.flash_color Game.bases Game.explosions
       Game.missiles_per_level].

Ltac open_game g := destruct g; unfold plain; fields.

Lemma tick_flash_plain (g : Game.t) :
  plain (Game.tick_flash g) = plain (Game.tick_flash (plain g)).
Proof.
  unfold Game.tick_flash. open_game g.
  destruct (0 <? _); unfold plain; fields;
    rewrite !map_plain_missile_idem, map_plain_city_idem; reflexivity.
Qed.

Lemma targets_plain (cs : list City.t) :
  map (fun c => (City.x c, City.y c)) (filter City.active (map plain_city cs))
  = map (fun c => (City.x c, City.y c)) (filter City.active cs).
Proof.
  induction cs as [|c cs IH]; [reflexivity|].
  cbn [map filter plain_city City.set_color City.active].
  destruct (City.active c); cbn [map]; rewrite IH; reflexivity.
Qed.

Lemma possible_targets_plain (g : Game.t) :
  Game.possible_targets (plain g) = Game.possible_targets g.
Proof.
  unfold Game.possible_targets. open_game g. rewrite targets_plain.
  reflexivity.
Qed.

Lemma spawn_plain (d : Draws) (g : Game.t) :
  plain (Game.spawn_enemy_missile d g)
  = plain (Game.spawn_enemy_missile (plain_draws d) (plain g)).
Proof.
  unfold Game.spawn_enemy_missile. cbv zeta.
  rewrite possible_targets_plain.
  cbn [plain_draws start_x_draw target_draw].
  destruct (choice _ _) as [[tx ty]|].
  - open_game g. unfold plain. fields.
    rewrite !map_app, !map_plain_missile_idem, map_plain_city_idem.
    reflexivity.
  - rewrite plain_idem. reflexivity.
Qed.

Lemma tick_spawn_plain (d : Draws) (g : Game.t) :
  plain (Game.tick_spawn d g)
  = plain (Game.tick_spawn (plain_draws d) (plain g)).
Proof.
  unfold Game.tick_spawn. cbv zeta.
  assert (E : Game.set_enemy_spawn_timer (Game.enemy_spawn_timer (plain g) + 1)
                                         (plain g)
              = plain (Game.set_enemy_spawn_timer
                         (Game.enemy_spawn_timer g + 1) g))
    by (destruct g; reflexivity).
  rewrite E.
  set (g1 := Game.set_enemy_spawn_timer (Game.enemy_spawn_timer g + 1) g).
  assert (C : (Game.enemy_spawn_timer (plain g1) >=? Game.enemy_spawn_rate (plain g1))
              && (Game.missiles_spawned_this_level (plain g1)
                  <? Game.missiles_per_level (plain g1))
              = (Game.enemy_spawn_timer g1 >=? Game.enemy_spawn_rate g1)
                && (Game.missiles_spawned_this_level g1
                    <? Game.missiles_per_level g1))
    by (destruct g; reflexivity).
  rewrite C. destruct (_ && _).
  - assert (T : forall s, plain (Game.set_enemy_spawn_timer 0 s)
                          = Game.set_enemy_spawn_timer 0 (plain s))
      by (intros s; destruct s; reflexivity).
    rewrite !T, (spawn_plain d g1). reflexivity.
  - rewrite plain_idem. reflexivity.
Qed.

Section PassOverMissiles.

Variable step : Game.t -> Missile.t -> Game.t.
Hypothesis step_state :
  forall s m, plain (step s m) = plain (step (plain s) m).
Hypothesis step_missile :
  forall s m, plain (step s m) = plain (step s (plain_missile m)).

Lemma pass_state (ms : list Missile.t) :
  forall s, plain (fold_left step ms s) = plain (fold_left step ms (plain s)).
Proof.
  induction ms as [|m ms IH]; intros s; cbn [fold_left].
  - rewrite plain_idem. reflexivity.
  - rewrite (IH (step s m)), step_state, <- IH. reflexivity.
Qed.

Lemma pass_missiles (ms : list Missile.t) :
  forall s, plain (fold_left step ms s)
            = plain (fold_left step (map plain_missile ms) s).
Proof.
  induction ms as [|m ms IH]; intros s; cbn [fold_left map]; [reflexivity|].
  rewrite (IH (step s m)), pass_state, step_missile, <- pass_state.
  reflexivity.
Qed.

Lemma pass_plain (ms : list Missile.t) (s : Game.t) :
  plain (fold_left step ms s)
  = plain (fold_left step (map plain_missile ms) (plain s)).
Proof. rewrite pass_missiles, pass_state. reflexivity. Qed.

End PassOverMissiles.

Lemma player_step_state (s : Game.t) (m : Missile.t) :
  plain (Game.player_step s m) = plain (Game.player_step (plain s) m).
Proof.
  unfold Game.player_step. cbv zeta.
  destruct (Missile.has_reached_target _).
  - open_game s. rewrite !map_plain_missile_idem, map_plain_city_idem.
    reflexivity.
  - destruct (Game.off_screen _); [rewrite plain_idem; reflexivity|].
    open_game s.
    rewrite !map_app, !map_plain_missile_idem, map_plain_city_idem.
    reflexivity.
Qed.

Lemma player_step_missile (s : Game.t) (m : Missile.t) :
  plain (Game.player_step s m) = plain (Game.player_step s (plain_missile m)).
Proof.
  unfold Game.player_step. cbv zeta.
  change (Missile.has_reached_target (Missile.update (plain_missile m)))
    with (Missile.has_reached_target (Missile.update m)).
  change (Game.off_screen (Missile.update (plain_missile m)))
    with (Game.off_screen (Missile.update m)).
  destruct (Missile.has_reached_target _); [reflexivity|].
  destruct (Game.off_screen _); [reflexivity|].
  open_game s. rewrite !map_app. reflexivity.
Qed.

Lemma update_player_missiles_plain (g : Game.t) :
  plain (Game.update_player_missiles g)
  = plain (Game.update_player_missiles (plain g)).
Proof.
  unfold Game.update_player_missiles.
  rewrite (pass_plain _ player_step_state player_step_missile).
  replace (plain (Game.set_player_missiles [] g))
    with (plain (Game.set_player_missiles [] (plain g)))
    by (destruct g; unfold plain; fields;
        rewrite !map_plain_missile_idem, map_plain_city_idem; reflexivity).
  rewrite <- pass_state by apply player_step_state.
  destruct g; reflexivity.
Qed.

Lemma strike_cities_plain (mx : Py.num) (cs : list City.t) :
  Game.strike_cities mx (map plain_city cs)
  = (map plain_city (fst (Game.strike_cities mx cs)),
     snd (Game.strike_cities mx cs)).
Proof.
  unfold Game.strike_cities.
  induction cs as [|c cs IH]; [reflexivity|].
  cbn [map Game.strike_first].
  change (Game.hits_city mx (plain_city c)) with (Game.hits_city mx c).
  destruct (Game.hits_city mx c); [reflexivity|].
  rewrite IH.
  destruct (Game.strike_first (Game.hits_city mx) _ _ cs) as [cs' e].
  reflexivity.
Qed.

Lemma ground_impact_plain (mx : Py.num) (s : Game.t) :
  plain (Game.ground_impact mx s) = plain (Game.ground_impact mx (plain s)).
Proof.
  unfold Game.ground_impact.
  replace (Game.cities (plain s)) with (map plain_city (Game.cities s))
    by (destruct s; reflexivity).
  replace (Game.bases (plain s)) with (Game.bases s)
    by (destruct s; reflexivity).
  rewrite strike_cities_plain.
  destruct (Game.strike_cities mx (Game.cities s)) as [cs e1].
  destruct (Game.strike_bases mx (Game.bases s)) as [bs e2].
  cbn [fst snd]. open_game s.
  rewrite !map_plain_missile_idem, map_plain_city_idem. reflexivity.
Qed.

Lemma enemy_step_state (s : Game.t) (m : Missile.t) :
  plain (Game.enemy_step s m) = plain (Game.enemy_step (plain s) m).
Proof.
  unfold Game.enemy_step. cbv zeta.
  replace (Game.blasted (plain s) (Missile.update m))
    with (Game.blasted s (Missile.update m)) by (destruct s; reflexivity).
  destruct (Game.blasted s _).
  - open_game s. rewrite !map_plain_missile_idem, map_plain_city_idem.
    reflexivity.
  - destruct (_ >=? _)%py; [apply ground_impact_plain|].
    open_game s.
    rewrite !map_app, !map_plain_missile_idem, map_plain_city_idem.
    reflexivity.
Qed.

Lemma enemy_step_missile (s : Game.t) (m : Missile.t) :
  plain (Game.enemy_step s m) = plain (Game.enemy_step s (plain_missile m)).
Proof.
  unfold Game.enemy_step. cbv zeta.
  change (Game.blasted s (Missile.update (plain_missile m)))
    with (Game.blasted s (Missile.update m)).
  change (Missile.y (Missile.update (plain_missile m)))
    with (Missile.y (Missile.update m)).
  change (Missile.x (Missile.update (plain_missile m)))
    with (Missile.x (Missile.update m)).
  destruct (Game.blasted s _); [reflexivity|].
  destruct (_ >=? _)%py; [reflexivity|].
  open_game s. rewrite !map_app. reflexivity.
Qed.

Lemma update_enemy_missiles_plain (g : Game.t) :
  plain (Game.update_enemy_missiles g)
  = plain (Game.update_enemy_missiles (plain g)).
Proof.
  unfold Game.update_enemy_missiles.
  rewrite (pass_plain _ enemy_step_state enemy_step_missile).
  replace (plain (Game.set_enemy_missiles [] g))
    with (plain (Game.set_enemy_missiles [] (plain g)))
    by (destruct g; unfold plain; fields;
        rewrite !map_plain_missile_idem, map_plain_city_idem; reflexivity).
  rewrite <- pass_state by apply enemy_step_state.
  destruct g; reflexivity.
Qed.

Lemma update_explosions_plain (g : Game.t) :
  plain (Game.update_explosions g) = plain (Game.update_explosions (plain g)).
Proof.
  unfold Game.update_explosions. open_game g.
  rewrite !map_plain_missile_idem, map_plain_city_idem. reflexivity.
Qed.

Lemma all_destroyed_plain (cs : list City.t) :
  forallb (fun c => negb (City.active c)) (map plain_city cs)
  = forallb (fun c => negb (City.active c)) cs.
Proof.
  induction cs as [|c cs IH]; [reflexivity|].
  cbn [map forallb]. rewrite IH. reflexivity.
Qed.

Lemma any_alive_plain (cs : list City.t) :
  existsb City.active (map plain_city cs) = existsb City.active cs.
Proof.
  induction cs as [|c cs IH]; [reflexivity|].
  cbn [map existsb]. rewrite IH. reflexivity.
Qed.

Lemma check_game_over_plain (g : Game.t) :
  plain (Game.check_game_over g) = plain (Game.check_game_over (plain g)).
Proof.
  unfold Game.check_game_over, Game.all_cities_destroyed.
  replace (Game.cities (plain g)) with (map plain_city (Game.cities g))
    by (destruct g; reflexivity).
  rewrite all_destroyed_plain.
  destruct (forallb _ _); [|rewrite plain_idem; reflexivity].
  open_game g. rewrite !map_plain_missile_idem, map_plain_city_idem.
  reflexivity.
Qed.

Lemma city_bonus_plain (cs : list City.t) :
  forall s0,
    fold_left (fun s c => if City.active c then s + 100 else s)
              (map plain_city cs) s0
    = fold_left (fun s c => if City.active c then s + 100 else s) cs s0.
Proof.
  induction cs as [|c cs IH]; intros s0; [reflexivity|].
  cbn [map fold_left]. apply IH.
Qed.

Lemma recolor_plain (rgb : nat -> Z * Z * Z) (cs : list City.t) :
  forall i, map plain_city (Game.recolor_from i rgb cs) = map plain_city cs.
Proof.
  induction cs as [|c cs IH]; intros i; [reflexivity|].
  cbn [Game.recolor_from map]. rewrite IH.
  destruct (City.active c); reflexivity.
Qed.

Lemma level_complete_plain (g : Game.t) :
  Game.level_complete (plain g) = Game.level_complete g.
Proof.
  unfold Game.level_complete, Game.any_city_alive. open_game g.
  rewrite any_alive_plain, length_map. reflexivity.
Qed.

Lemma next_level_plain (d : Draws) (g : Game.t) :
  plain (Game.next_level d g)
  = plain (Game.next_level (plain_draws d) (plain g)).
Proof.
  unfold Game.next_level, Game.regenerate_bases, Game.city_bonus,
    Game.randomize_colors.
  cbv zeta. open_game g.
  rewrite !recolor_plain, city_bonus_plain.
  rewrite !map_plain_missile_idem, map_plain_city_idem. reflexivity.
Qed.

Lemma check_level_plain (d : Draws) (g : Game.t) :
  plain (Game.check_level d g)
  = plain (Game.check_level (plain_draws d) (plain g)).
Proof.
  unfold Game.check_level. rewrite level_complete_plain.
  destruct (Game.level_complete g); [apply next_level_plain|].
  rewrite plain_idem. reflexivity.
Qed.

Lemma resolve_plain (d : Draws) (g : Game.t) :
  plain (Game.resolve d g) = plain (Game.resolve (plain_draws d) (plain g)).
Proof.
  unfold Game.resolve.
  rewrite update_explosions_plain, update_enemy_missiles_plain,
    update_player_missiles_plain, tick_spawn_plain, tick_flash_plain.
  rewrite <- (tick_spawn_plain (plain_draws d)).
  rewrite <- update_player_missiles_plain, <- update_enemy_missiles_plain,
    <- update_explosions_plain.
  reflexivity.
Qed.

Lemma update_plain (d : Draws) (g : Game.t) :
  plain (Game.update d g) = plain (Game.update (plain_draws d) (plain g)).
Proof.
  unfold Game.update.
  replace (Game.game_over (plain g)) with (Game.game_over g)
    by (destruct g; reflexivity).
  destruct (Game.game_over g); [rewrite plain_idem; reflexivity|].
  rewrite check_level_plain, check_game_over_plain, resolve_plain.
  rewrite <- check_game_over_plain.
  rewrite <- (check_level_plain (plain_draws d)).
  reflexivity.
Qed.

Lemma some_eq {A : Type} (a b : A) : Some a = Some b -> a = b.
Proof. intros H. injection H as ->. reflexivity. Qed.

Lemma fire_from_plain (i : nat) (mouse : Z * Z) (g : Game.t) :
  option_map plain (Game.fire_from i mouse g)
  = option_map plain (Game.fire_from i mouse (plain g)).
Proof.
  unfold Game.fire_from.
  replace (Game.bases (plain g)) with (Game.bases g)
    by (destruct g; reflexivity).
  destruct (nth_error (Game.bases g) i) as [b|]; [|reflexivity].
  destruct (MissileBase.fire b (fst mouse) (snd mouse)) as [b' [m|]];
    cbn [option_map]; f_equal; open_game g;
    rewrite ?map_app, !map_plain_missile_idem, map_plain_city_idem;
    reflexivity.
Qed.

Lemma handle_event_plain (mouse : Z * Z) (ev : Event) (g : Game.t) :
  option_map plain (Game.handle_event mouse ev g)
  = option_map plain (Game.handle_event mouse ev (plain g)).
Proof.
  destruct ev as [|button|key|]; cbn [Game.handle_event];
    replace (Game.game_over (plain g)) with (Game.game_over g)
    by (destruct g; reflexivity).
  - cbn [option_map]. f_equal. open_game g.
    rewrite !map_plain_missile_idem, map_plain_city_idem. reflexivity.
  - destruct (negb (Game.game_over g));
      [|cbn [option_map]; rewrite plain_idem; reflexivity].
    destruct (button =? 1); [apply fire_from_plain|].
    destruct (button =? 2); [apply fire_from_plain|].
    destruct (button =? 3); [apply fire_from_plain|].
    cbn [option_map]. rewrite plain_idem. reflexivity.
  - destruct key; [destruct (Game.game_over g)|]; cbn [option_map];
      rewrite ?plain_idem; reflexivity.
  - cbn [option_map]. rewrite plain_idem. reflexivity.
Qed.

Lemma handle_events_plain (mouse : Z * Z) (evs : list Event) :
  forall g, option_map plain (Game.handle_events mouse evs g)
            = option_map plain (Game.handle_events mouse evs (plain g)).
Proof.
  induction evs as [|ev evs IH]; intros g; cbn [Game.handle_events].
  - cbn [option_map]. rewrite plain_idem. reflexivity.
  - pose proof (handle_event_plain mouse ev g) as H.
    destruct (Game.handle_event mouse ev g) as [g1|];
      destruct (Game.handle_event mouse ev (plain g)) as [g2|];
      try discriminate; [|reflexivity].
    cbn [option_map] in H. apply some_eq in H.
    rewrite (IH g1), (IH g2), H. reflexivity.
Qed.

Lemma frame_plain (f f' : Frame) (g g' : Game.t) :
  same_play f f' -> plain g = plain g' ->
  option_map plain (frame f g) = option_map plain (frame f' g').
Proof.
  intros (He & Hm & R1 & R2) E. unfold frame. rewrite <- He, <- Hm.
  pose proof (handle_events_plain (mouse_pos f) (events f) g) as H.
  pose proof (handle_events_plain (mouse_pos f) (events f) g') as H'.
  rewrite E, <- H' in H.
  destruct (Game.handle_events _ _ g) as [g1|];
    destruct (Game.handle_events _ _ g') as [g2|];
    try discriminate; [|reflexivity].
  cbn [option_map] in *. apply some_eq in H.
  rewrite (update_plain (draws f) g1), (update_plain (draws f') g2), H.
  unfold plain_draws. rewrite R1, R2. reflexivity.
Qed.

(** X14. Colours are cosmetic.  Two runs of the main loop over frames
    with the same events, mouse positions and start and target draws,
    from states that differ in colours at most, end alike (or both
    raise): the colour draws, the threat colour, the flash colour and
    the colours of cities and missiles never reach anything else. *)
Theorem colours_are_cosmetic (fs fs' : list Frame) :
  Forall2 same_play fs fs' ->
  forall g g', plain g = plain g' ->
               option_map plain (run fs g) = option_map plain (run fs' g').
Proof.
  induction 1 as [|f f' fs fs' Hf _ IH]; intros g g' E; cbn [run].
  - cbn [option_map]. rewrite E. reflexivity.
  - replace (Game.running g') with (Game.running g)
      by (change (Game.running (plain g) = Game.running (plain g'));
          rewrite E; reflexivity).
    destruct (Game.running g); [|cbn [option_map]; rewrite E; reflexivity].
    pose proof (frame_plain f f' g g' Hf E) as H.
    destruct (frame f g) as [g1|]; destruct (frame f' g') as [g2|];
      try discriminate; [|reflexivity].
    cbn [option_map] in H. apply some_eq in H. apply IH, H.
Qed.

Lemma drill_gaudy (n : nat) : Forall2 same_play (drill n) (gaudy n).
Proof.
  unfold drill, gaudy. generalize 1%nat.
  induction n as [|n IH]; intros s; cbn [seq map]; constructor;
    [repeat split | apply IH].
Qed.

Lemma colours_are_cosmetic_witness :
  option_map plain (run (drill 1990) Game.init)
  = option_map plain (run (gaudy 1990) Game.init).
Proof.
  exact (colours_are_cosmetic (drill 1990) (gaudy 1990) (drill_gaudy 1990)
                              Game.init Game.init eq_refl).
Defined.

(** ** Missiles in flight *)

Lemma kept_city_points (l l' : list City.t) :
  Forall2 city_kept l l' -> map city_point l' = map city_point l.
Proof.
  induction 1 as [|c c' l l' (Hx & Hy & _) _ IH]; [reflexivity|].
  cbn [map]. unfold city_point at 1 3. rewrite Hx, Hy, IH. reflexivity.
Qed.

Lemma kept_base_points (l l' : list MissileBase.t) :
  Forall2 base_kept l l' -> map base_point l' = map base_point l.
Proof.
  induction 1 as [|b b' l l' (Hx & Hy & _) _ IH]; [reflexivity|].
  cbn [map]. unfold base_point at 1 3. rewrite Hx, Hy, IH. reflexivity.
Qed.

Lemma placed_kept (g g' : Game.t) :
  no_repairs g g' -> placed g -> placed g'.
Proof.
  intros [Hc Hb] [Pc Pb]. split.
  - rewrite (kept_city_points _ _ Hc). exact Pc.
  - rewrite (kept_base_points _ _ Hb). exact Pb.
Qed.

Lemma threat_made_update (m : Missile.t) :
  threat_made m -> threat_made (Missile.update m).
Proof.
  intros (n & sx & tx & ty & c & -> & H). exists (S n), sx, tx, ty, c.
  split; [reflexivity | exact H].
Qed.

Lemma interceptor_made_update (m : Missile.t) :
  interceptor_made m -> interceptor_made (Missile.update m).
Proof.
  intros (n & bx & bY & tx & ty & -> & H). exists (S n), bx, bY, tx, ty.
  split; [reflexivity | exact H].
Qed.

Lemma targets_placed (g : Game.t) (tx ty : Z) :
  placed g -> In (tx, ty) (Game.possible_targets g) ->
  In (tx, ty) (city_points ++ base_points).
Proof.
  intros [Pc Pb] H. apply possible_targets_active in H.
  apply in_app_iff. destruct H as [(c & Hc & _ & E)|(b & Hb & _ & E)].
  - left. rewrite <- Pc, E. exact (in_map city_point _ _ Hc).
  - right. rewrite <- Pb, E. exact (in_map base_point _ _ Hb).
Qed.

Lemma flights_tick_spawn (d : Draws) (g : Game.t) :
  flights g -> flights (Game.tick_spawn d g).
Proof.
  intros (Hp & He & Hi). unfold Game.tick_spawn. cbv zeta.
  destruct (_ && _); [|exact (conj Hp (conj He Hi))].
  unfold Game.spawn_enemy_missile. cbv zeta.
  change (Game.possible_targets
            (Game.set_enemy_spawn_timer (Game.enemy_spawn_timer g + 1) g))
    with (Game.possible_targets g).
  destruct (choice (target_draw d) (Game.possible_targets g))
    as [[tx ty]|] eqn:E; [|exact (conj Hp (conj He Hi))].
  split; [exact Hp|]. split; [|exact Hi].
  cbn [Game.enemy_missiles Game.set_enemy_spawn_timer
       Game.set_missiles_spawned_this_level Game.set_enemy_missiles].
  apply Forall_app. split; [exact He|].
  constructor; [|constructor]. split.
  - exists 0%nat, (randint 50 (SCREEN_WIDTH - 50) (start_x_draw d)), tx, ty,
      (Game.enemy_missile_color g).
    split; [reflexivity|]. split.
    + apply randint_range. unfold SCREEN_WIDTH. lia.
    + apply (targets_placed g); [exact Hp | exact (choice_in _ _ _ E)].
  - reflexivity.
Qed.

Lemma flights_update_player_missiles (g : Game.t) :
  flights g -> flights (Game.update_player_missiles g).
Proof.
  intros (Hp & He & Hi). unfold Game.update_player_missiles.
  destruct (player_pass (Game.player_missiles g)
                        (Game.set_player_missiles [] g)) as (H1 & _ & H3).
  cbv zeta in H1, H3. revert H1 H3.
  generalize (fold_left Game.player_step (Game.player_missiles g)
                        (Game.set_player_missiles [] g)).
  intros g' H1 H3.
  assert (Ec : Game.cities g' = Game.cities g)
    by exact (f_equal Game.cities H3).
  assert (Eb : Game.bases g' = Game.bases g)
    by exact (f_equal Game.bases H3).
  assert (Ee : Game.enemy_missiles g' = Game.enemy_missiles g)
    by exact (f_equal Game.enemy_missiles H3).
  unfold flights, placed. rewrite Ec, Eb, Ee, H1.
  split; [exact Hp|]. split; [exact He|].
  cbn [Game.player_missiles Game.set_player_missiles app].
  rewrite Forall_forall in *. intros m Hm.
  apply filter_In in Hm. destruct Hm as [Hm Hf].
  apply in_map_iff in Hm. destruct Hm as (m0 & <- & Hm0).
  split.
  - apply interceptor_made_update, (Hi m0 Hm0).
  - unfold in_flight in Hf. apply andb_prop in Hf. destruct Hf as [_ Hf].
    apply negb_true_iff in Hf. exact Hf.
Qed.

Lemma enemy_pass_flights (ms : list Missile.t) :
  Forall threat_made ms ->
  forall g,
    Forall (fun m => threat_made m /\ aloft m) (Game.enemy_missiles g) ->
    Forall (fun m => threat_made m /\ aloft m)
           (Game.enemy_missiles (fold_left Game.enemy_step ms g)).
Proof.
  induction 1 as [|m ms Hm _ IH]; intros g Hg; [exact Hg|].
  cbn [fold_left]. apply IH. unfold Game.enemy_step. cbv zeta.
  destruct (Game.blasted _ _); [exact Hg|].
  destruct (Missile.y (Missile.update m) >=? Game.GROUND_Y)%py eqn:Ey.
  - destruct (ground_impact_tally (Missile.x (Missile.update m)) g)
      as (_ & _ & _ & E & _).
    rewrite E. exact Hg.
  - cbn [Game.enemy_missiles Game.set_enemy_missiles].
    apply Forall_app. split; [exact Hg|].
    constructor; [|constructor].
    split; [apply threat_made_update, Hm | exact Ey].
Qed.

Lemma flights_update_enemy_missiles (g : Game.t) :
  flights g -> flights (Game.update_enemy_missiles g).
Proof.
  intros (Hp & He & Hi).
  assert (Hn : no_repairs g (Game.update_enemy_missiles g)).
  { unfold Game.update_enemy_missiles.
    apply (no_repairs_trans _ (Game.set_enemy_missiles [] g));
      [unchanged_sites|].
    apply fold_no_repairs, enemy_step_no_repairs. }
  split; [exact (placed_kept _ _ Hn Hp)|]. split.
  - unfold Game.update_enemy_missiles. apply enemy_pass_flights.
    + eapply Forall_impl; [|exact He]. intros m [H _]. exact H.
    + constructor.
  - unfold Game.update_enemy_missiles.
    destruct (enemy_pass_tally (Game.enemy_missiles g)
                               (Game.set_enemy_missiles [] g))
      as (hit & grounded & _ & _ & _ & _ & E).
    rewrite E. exact Hi.
Qed.

Lemma flights_resolve (d : Draws) (g : Game.t) :
  flights g -> flights (Game.resolve d g).
Proof.
  intros H. unfold Game.resolve.
  assert (H1 : flights (Game.tick_flash g)).
  { unfold Game.tick_flash. destruct (0 <? _); exact H. }
  apply (flights_tick_spawn d) in H1.
  apply flights_update_player_missiles in H1.
  apply flights_update_enemy_missiles in H1.
  exact H1.
Qed.

Lemma refill_points (a : Z) (bs : list MissileBase.t) :
  map base_point (map (Game.refill a) bs) = map base_point bs.
Proof. rewrite map_map. reflexivity. Qed.

Lemma flights_update (d : Draws) (g : Game.t) :
  flights g -> flights (Game.update d g).
Proof.
  intros H. unfold Game.update. destruct (Game.game_over g); [exact H|].
  assert (H1 : flights (Game.check_game_over (Game.resolve d g))).
  { apply (flights_resolve d) in H. unfold Game.check_game_over.
    destruct (Game.all_cities_destroyed _); exact H. }
  revert H1. generalize (Game.check_game_over (Game.resolve d g)).
  intros s ([Pc Pb] & He & Hi). unfold Game.check_level.
  destruct (Game.level_complete s); [|exact (conj (conj Pc Pb) (conj He Hi))].
  split; [|exact (conj He Hi)].
  split.
  - rewrite next_level_cities.
    rewrite (kept_city_points _ _ (recolor_kept _ _ 0%nat)). exact Pc.
  - rewrite next_level_bases, refill_points. exact Pb.
Qed.

Lemma base_points_on_screen (bx bY tx ty : Z) :
  In (bx, bY) base_points ->
  Game.off_screen (PlayerMissile bx bY tx ty) = false.
Proof.
  unfold base_points, base_sites. cbn [map In].
  intros H.
  repeat match goal with H : _ \/ _ |- _ => destruct H as [H|H] end;
    try contradiction; injection H as <- <-; reflexivity.
Qed.

Lemma list_set_points (bs : list MissileBase.t) :
  forall i b a, nth_error bs i = Some b ->
    map base_point (list_set i (MissileBase.set_ammo a b) bs)
    = map base_point bs.
Proof.
  induction bs as [|b0 bs IH]; intros [|i] b a Hn; try discriminate.
  - cbn in Hn. injection Hn as ->. reflexivity.
  - cbn [list_set map]. rewrite (IH i b a Hn). reflexivity.
Qed.

Lemma flights_fire_from (i : nat) (mouse : Z * Z) (g g' : Game.t) :
  flights g -> Game.fire_from i mouse g = Some g' -> flights g'.
Proof.
  intros ([Pc Pb] & He & Hi). unfold Game.fire_from.
  destruct (nth_error (Game.bases g) i) as [b|] eqn:Hn; [|discriminate].
  unfold MissileBase.fire.
  destruct (MissileBase.active b && (0 <? MissileBase.ammo b)).
  - intros E. injection E as <-.
    split; [split; [exact Pc|]|split; [exact He|]].
    + cbn [Game.bases Game.set_bases Game.set_player_missiles].
      rewrite (list_set_points _ _ _ _ Hn). exact Pb.
    + cbn [Game.player_missiles Game.set_bases Game.set_player_missiles].
      apply Forall_app. split; [exact Hi|].
      constructor; [|constructor].
      assert (Hb : In (MissileBase.x b, MissileBase.y b) base_points).
      { rewrite <- Pb. apply nth_error_In in Hn.
        exact (in_map base_point _ _ Hn). }
      split.
      * exists 0%nat, (MissileBase.x b), (MissileBase.y b),
          (fst mouse), (snd mouse).
        split; [reflexivity | exact Hb].
      * apply base_points_on_screen, Hb.
  - intros E. injection E as <-.
    split; [split; [exact Pc|]|split; [exact He | exact Hi]].
    cbn [Game.bases Game.set_bases].
    replace b with (MissileBase.set_ammo (MissileBase.ammo b) b)
      by (destruct b; reflexivity).
    rewrite (list_set_points _ _ _ _ Hn). exact Pb.
Qed.

Lemma flights_handle_event (mouse : Z * Z) (ev : Event) (g g' : Game.t) :
  flights g -> Game.handle_event mouse ev g = Some g' -> flights g'.
Proof.
  intros H. destruct ev as [|button|key|]; cbn [Game.handle_event].
  - intros E. injection E as <-. exact H.
  - destruct (negb (Game.game_over g)).
    + destruct (button =? 1); [apply flights_fire_from, H|].
      destruct (button =? 2); [apply flights_fire_from, H|].
      destruct (button =? 3); [apply flights_fire_from, H|].
      intros E. injection E as <-. exact H.
    + intros E. injection E as <-. exact H.
  - destruct key; [destruct (Game.game_over g)|];
      intros E; injection E as <-; try exact H.
    destruct (restart_fields g) as (Rc & Rb & _).
    split; [split|split].
    + rewrite Rc. reflexivity.
    + rewrite Rb. reflexivity.
    + constructor.
    + constructor.
  - intros E. injection E as <-. exact H.
Qed.

Lemma flights_handle_events (mouse : Z * Z) (evs : list Event) :
  forall g g', flights g -> Game.handle_events mouse evs g = Some g' ->
               flights g'.
Proof.
  induction evs as [|ev evs IH]; intros g g' H; cbn [Game.handle_events].
  - intros E. injection E as <-. exact H.
  - destruct (Game.handle_event mouse ev g) as [g1|] eqn:E1; [|discriminate].
    apply IH. exact (flights_handle_event mouse ev g g1 H E1).
Qed.

Lemma flights_run (fs : list Frame) :
  forall g g', flights g -> run fs g = Some g' -> flights g'.
Proof.
  induction fs as [|f fs IH]; intros g g' H; cbn [run].
  - intros E. injection E as <-. exact H.
  - destruct (Game.running g); [|intros E; injection E as <-; exact H].
    unfold frame.
    destruct (Game.handle_events (mouse_pos f) (events f) g) as [g1|] eqn:E1;
      [|discriminate].
    apply IH, flights_update.
    exact (flights_handle_events _ _ g g1 H E1).
Qed.

(** X15. Between any two iterations of the main loop the cities and
    launchers stand on the points [setup_game] chose; every threat in
    flight is some ticks into the flight of a threat made by the
    constructor, started on the top edge with 50 <= x <= 750 and aimed
    at one of those points, and is above the ground line; every
    interceptor in flight is some ticks into the flight of an
    interceptor made at a launcher point, and is on the screen.  So a
    missile's start, target, speed and velocity are those its
    constructor fixed. *)
Theorem reachable_flights (g : Game.t) : reachable g -> flights g.
Proof.
  intros [fs Hrun]. apply (flights_run fs Game.init g); [|exact Hrun].
  split; [split; reflexivity | split; constructor].
Qed.

Lemma reachable_flights_witness : flights (after (drill 1000)).
Proof. exact (reachable_flights _ (after_reachable (drill 1000))). Defined.

(** ** An interceptor that has nowhere to go *)

(** X16. An interceptor fired at the very point its launcher stands on
    does not fly: its velocity is zero, its distance to the target is
    0 < 5, and the next pass over the interceptors turns it into a
    blast at that point. *)
Theorem blast_on_the_spot (g : Game.t) (bx bY : Z) :
  Game.player_step g (PlayerMissile bx bY bx bY)
  = Game.set_explosions (Game.explosions g ++ [Explosion.init bx bY]) g.
Proof.
  unfold Game.player_step, PlayerMissile, Missile.init, Missile.velocity.
  cbv zeta. rewrite !Z.sub_diag. change (0 * 0 + 0 * 0) with 0.
  replace (Py.sqrt (Py.Int 0) >? 0)%py with false
    by (vm_compute; reflexivity).
  unfold Missile.has_reached_target, Missile.update.
  cbn [fst snd Missile.x Missile.y Missile.velocity_x Missile.velocity_y
       Missile.target_x Missile.target_y Missile.speed Py.add Py.sub Py.sq].
  rewrite !Z.add_0_r, !Z.sub_diag. change (0 * 0 + 0 * 0) with 0.
  replace (Py.sqrt (Py.Int 0) <? PLAYER_MISSILE_SPEED)%py with true
    by (vm_compute; reflexivity).
  reflexivity.
Qed.

(** ** The spawn interval over a run *)





